(** * MimiC middle end: SSA builder, textual dump, pass manager and LICM

    A shallow embedding of

    - [mid/module.cpp]   ([Module::SealGlobalCtor], [Module::CreateJump],
                          [Module::CreateStore], [Module::CreateCast],
                          [Module::CreateFunction], [Module::CreateBlock],
                          [Module::CreateReturn], [Module::CreateCall],
                          [Module::EnterGlobalCtor], [Module::Dump]),
    - [mid/ssa.cpp]      (the [Dump] methods of the SSA classes),
    - [opt/passman.cpp]  ([PassManager::RunPasses], [PassManager::ShowInfo]),
    - [opt/transforms/licm.cpp] (the loop invariant code motion pass),

    followed by the properties established about them.

    SSA objects live in a store indexed by addresses ([Value]); a null
    pointer is [None].  The instruction list [insts_] of every block is kept
    in a second map indexed by the block's address, so that a pass which only
    moves instructions visibly leaves the SSA objects alone.  Loops of the
    C++ code that have no evident bound carry a fuel argument; a failed
    [assert] or a null dereference ends the run with [Abort]. *)

From Stdlib Require Import String Ascii DecimalString.
From stdpp Require Import base option list gmap strings.

Set Warnings "-clear-no-such-hyp".

Open Scope string_scope.
Open Scope list_scope.

(** ** Outcome of a run *)

Inductive Res (A : Type) : Type :=
| Done (a : A)      (* normal return *)
| Abort             (* assertion failure or null dereference *)
| NoFuel.           (* the loop was still running when the fuel ran out *)
Arguments Done {A} a.
Arguments Abort {A}.
Arguments NoFuel {A}.

#[global] Instance Res_ret : MRet Res := fun A a => Done a.
#[global] Instance Res_bind : MBind Res := fun A B f m =>
  match m with
  | Done a => f a
  | Abort => Abort
  | NoFuel => NoFuel
  end.

(** Dereference of a possibly null pointer. *)
Definition deref {A : Type} (o : option A) : Res A :=
  match o with
  | Some a => Done a
  | None => Abort
  end.

(** [for (x : l) s = f(s, x);] with early exit on failure. *)
Fixpoint forM {A S : Type} (f : S -> A -> Res S) (l : list A) (s : S) : Res S :=
  match l with
  | [] => Done s
  | x :: l' => s' ← f s x; forM f l' s'
  end.

(** ** The type interface

    [define/type.h] is not part of the sources at hand: the methods of
    [BaseType] used by the modelled code are taken as an interface. *)

Class BaseType (Ty : Type) : Type := {
  IsIdentical : Ty -> Ty -> bool;       (* [a->IsIdentical(b)] *)
  CanAccept : Ty -> Ty -> bool;         (* [dst->CanAccept(src)] *)
  CanCastTo : Ty -> Ty -> bool;         (* [src->CanCastTo(dst)] *)
  GetDerefedType : Ty -> option Ty;     (* null when there is no pointee *)
  GetTrivialType : Ty -> Ty;
  IsArray : Ty -> bool;
  IsPointer : Ty -> bool;
  IsUnsigned : Ty -> bool;
  GetTypeId : Ty -> string;             (* what [os << type->GetTypeId()] prints *)
}.

(** ** SSA objects *)

Definition Value := nat.

Inductive AccessType := AccPointer | AccElement.

Inductive BinaryOp :=
| Add | Sub | Mul | UDiv | SDiv | URem | SRem | Equal | NotEq
| ULess | SLess | ULessEq | SLessEq | UGreat | SGreat | UGreatEq | SGreatEq
| And | Or | Xor | Shl | LShr | AShr.

Inductive UnaryOp := Neg | LogicNot | Not.

Inductive LinkageTypes := Internal | Inline | External | GlobalCtor | GlobalDtor.

(** The dynamic class of an SSA object together with its non-operand
    fields. *)
Inductive SSAKind :=
| LoadSSA
| StoreSSA
| AccessSSA (acc_type_ : AccessType)
| BinarySSA (op_ : BinaryOp)
| UnarySSA (op_ : UnaryOp)
| CastSSA
| CallSSA
| BranchSSA
| JumpSSA
| ReturnSSA
| FunctionSSA (link_ : LinkageTypes) (name_ : string) (args_ : list Value)
| GlobalVarSSA (link_ : LinkageTypes) (is_var_ : bool) (name_ : string)
| AllocaSSA
| BlockSSA (parent_ : option Value) (name_ : string)
| ArgRefSSA (func_ : Value) (index_ : nat)
| ConstIntSSA (value_ : N)
| ConstStrSSA (str_ : string)
| ConstStructSSA
| ConstArraySSA
| ConstZeroSSA
| PhiOperandSSA
| PhiSSA
| SelectSSA
| UndefSSA.

(** A [Value] object: its class, its operands (the [Use]s it owns as a
    [User], each holding a possibly null value), the users found on its use
    list, and its two types. *)
Record Node (Ty : Type) : Type := mkNode {
  kind : SSAKind;
  oprs : list (option Value);
  uses : list Value;
  type_ : option Ty;
  org_type_ : option Ty;
}.
Arguments mkNode {Ty}.
Arguments kind {Ty}.
Arguments oprs {Ty}.
Arguments uses {Ty}.
Arguments type_ {Ty}.
Arguments org_type_ {Ty}.

Section Store.
Context {Ty : Type}.
Implicit Types (nodes : gmap Value (Node Ty)) (insts : gmap Value (list Value)).

Definition kindOf nodes (v : Value) : option SSAKind := kind <$> nodes !! v.

(** [this->operator[](i).value()] *)
Definition operand nodes (v : Value) (i : nat) : option Value :=
  n ← nodes !! v; mjoin (oprs n !! i).

Definition usersOf nodes (v : Value) : list Value :=
  default [] (uses <$> nodes !! v).

Definition typeOf nodes (v : Value) : option Ty := n ← nodes !! v; type_ n.

(** [block->insts()] *)
Definition instsOf insts (b : Value) : list Value := default [] (insts !! b).

Definition IsSSA_ArgRef nodes v : bool :=
  match kindOf nodes v with Some (ArgRefSSA _ _) => true | _ => false end.
Definition IsSSA_GlobalVar nodes v : bool :=
  match kindOf nodes v with Some (GlobalVarSSA _ _ _) => true | _ => false end.
Definition IsUndef nodes v : bool :=
  match kindOf nodes v with Some UndefSSA => true | _ => false end.

(** Modelled from the spec: [Value::IsConst] is declared in [mid/ssa.h],
    which is not at hand.  The constant classes answer true; a cast is
    constant when its operand is ([CreateCast] builds "a constant type
    casting" exactly for a constant operand and [CastSSA::Dump] asks the
    cast itself); every other class answers false. *)
Fixpoint IsConst_go (fuel : nat) nodes (v : Value) : bool :=
  match kindOf nodes v with
  | Some (ConstIntSSA _) | Some (ConstStrSSA _) | Some ConstStructSSA
  | Some ConstArraySSA | Some ConstZeroSSA => true
  | Some CastSSA =>
      match fuel, operand nodes v 0 with
      | S fuel', Some o => IsConst_go fuel' nodes o
      | _, _ => false
      end
  | _ => false
  end.
Definition IsConst nodes (v : Value) : bool := IsConst_go (size nodes) nodes v.
End Store.

(** ** LICM: [opt/transforms/licm.cpp] *)

(** [LoopInfo] as far as the pass reads it: the block set [body], listed in
    the order in which the container iterates, and the pre-header. *)
Record LoopInfo := mkLoop {
  body : list Value;
  preheader : option Value;
}.

(** The fields of the pass that the marking loop updates. *)
Record Marks := mkMarks {
  marked_invs_ : gset Value;
  invs_ : list Value;
}.

Section LICM.
Context {Ty : Type} `{!BaseType Ty}.

(** The SSA objects; the pass never changes them. *)
Variable nodes : gmap Value (Node Ty).
(** [parent_->GetParent(val)] (null when the scanner has no block for
    [val]) and [dom_->IsDominate(a, b)]: [opt/helper/inst.h] and
    [opt/analysis/dominance.h] are not at hand. *)
Variable GetParent : Value -> option Value.
Variable IsDominate : Value -> Value -> bool.

(** [SSACast<T>(v)]: a cast that asserts the dynamic class. *)
Definition SSACast_PhiOperand (v : Value) : Res Value :=
  match kindOf nodes v with
  | Some PhiOperandSSA => Done v
  | _ => Abort
  end.

(** One turn of the [for (;;)] of [GetBasePointer] on a non-null [ptr]:
    [inl p] continues with [ptr = p], [inr p] returns [p]. *)
Definition GetBasePointer_step (ptr : Value) : Res (option Value + Value) :=
  n ← deref (nodes !! ptr);
  match kind n with
  | AccessSSA _ => Done (inl (mjoin (oprs n !! 0)))
  | CastSSA => Done (inl (mjoin (oprs n !! 0)))
  | PhiSSA =>
      let users : gset Value := list_to_set (uses n) in
      p ← forM (fun cur (i : option Value) =>
                  v ← deref i;
                  opr ← SSACast_PhiOperand v;
                  match operand nodes opr 0 with
                  | Some val =>
                      if decide (val ∈ users) then Done cur else Done (Some val)
                  | None => Done None
                  end)
               (oprs n) (Some ptr);
      Done (inl p)
  | _ => Done (inr ptr)
  end.

Fixpoint GetBasePointer (fuel : nat) (ptr : option Value) : Res Value :=
  match fuel with
  | 0 => NoFuel
  | S fuel' =>
      p ← deref ptr;
      r ← GetBasePointer_step p;
      match r with
      | inl p' => GetBasePointer fuel' p'
      | inr b => Done b
      end
  end.

(** The loop being processed ([cur_loop_]). *)
Variable cur_loop_ : LoopInfo.

(** [cur_loop_->body.count(b)] *)
Definition in_body (b : option Value) : bool :=
  match b with
  | Some b => bool_decide (b ∈ body cur_loop_)
  | None => false
  end.

Definition IsInvariant (marked : gset Value) (val : Value) : bool :=
  (IsConst nodes val || IsUndef nodes val)
  || (IsSSA_ArgRef nodes val || IsSSA_GlobalVar nodes val)
  || negb (in_body (GetParent val))
  || bool_decide (val ∈ marked).

(** [for (const auto &i : ssa) if (!IsInvariant(i.value())) return;]
    as a test; a null operand is dereferenced by [IsInvariant]. *)
Fixpoint all_operands_invariant (marked : gset Value) (l : list (option Value))
  : Res bool :=
  match l with
  | [] => Done true
  | o :: l' =>
      val ← deref o;
      if IsInvariant marked val then all_operands_invariant marked l'
      else Done false
  end.

(** The second loop of [LogInvariant], over the use list. *)
Definition dominates_users (cur_block_ : Value) (users : list Value) : bool :=
  forallb (fun user =>
             let parent := GetParent user in
             if in_body parent
             then match parent with
                  | Some p => IsDominate cur_block_ p
                  | None => true
                  end
             else true) users.

(** [invs_] receives [ssa.uses().front()->value()], the shared pointer to
    [ssa] itself that its first use holds. *)
Definition LogInvariant (cur_block_ : Value) (s : Marks) (ssa : Value) : Res Marks :=
  n ← deref (nodes !! ssa);
  ok ← all_operands_invariant (marked_invs_ s) (oprs n);
  if negb ok then Done s
  else if negb (dominates_users cur_block_ (uses n)) then Done s
  else Done {| marked_invs_ := {[ssa]} ∪ marked_invs_ s;
               invs_ := match uses n with
                        | [] => invs_ s
                        | _ :: _ => invs_ s ++ [ssa]
                        end |}.

Variable gfuel : nat.                   (* fuel of each [GetBasePointer] call *)
Variable stored_ptrs_ : gset Value.

(** [i->RunPass( *this )]: the [RunOn] overload of the dynamic class; the
    classes the pass does not override do nothing. *)
Definition RunPass (cur_block_ : Value) (s : Marks) (i : Value) : Res Marks :=
  k ← deref (kindOf nodes i);
  match k with
  | AccessSSA _ | BinarySSA _ | UnarySSA _ | CastSSA | SelectSSA =>
      LogInvariant cur_block_ s i
  | AllocaSSA => Abort
  | LoadSSA =>
      b ← GetBasePointer gfuel (operand nodes i 0);
      if decide (b ∈ stored_ptrs_) then Done s
      else LogInvariant cur_block_ s i
  | _ => Done s
  end.

(** The instruction lists; marking only reads them. *)
Variable insts : gmap Value (list Value).

(** One pass of the [while] body of [ProcessLoop]. *)
Definition sweep_block (s : Marks) (block : Value) : Res Marks :=
  forM (fun s i =>
          if decide (i ∈ marked_invs_ s) then Done s else RunPass block s i)
       (instsOf insts block) s.

Definition sweep (s : Marks) : Res Marks :=
  forM sweep_block (body cur_loop_) s.

(** [while (marked_invs_.size() != last_size) { last_size = ...; sweep }] *)
Fixpoint mark_loop (fuel : nat) (last_size : nat) (s : Marks) : Res Marks :=
  if decide (size (marked_invs_ s) = last_size) then Done s
  else match fuel with
       | 0 => NoFuel
       | S fuel' =>
           s' ← sweep s;
           mark_loop fuel' (size (marked_invs_ s)) s'
       end.

(** [marked_invs_.clear(); invs_.clear(); last_size = 1; while ...] *)
Definition mark_invariants (fuel : nat) : Res Marks :=
  mark_loop fuel 1 {| marked_invs_ := ∅; invs_ := [] |}.
End LICM.

Section LICM_transform.
Context {Ty : Type} `{!BaseType Ty}.
Variable nodes : gmap Value (Node Ty).
Variable GetParent : Value -> option Value.
Variable IsDominate : Value -> Value -> bool.
Variable cur_loop_ : LoopInfo.
Variable gfuel : nat.

(** The arguments of the function that owns [block]:
    [SSACast<FunctionSSA>(block->parent().get())->args()]. *)
Definition args_of_parent (block : Value) : Res (list Value) :=
  bk ← deref (kindOf nodes block);
  match bk with
  | BlockSSA parent _ =>
      f ← deref parent;
      fk ← deref (kindOf nodes f);
      match fk with
      | FunctionSSA _ _ args => Done args
      | _ => Abort
      end
  | _ => Abort
  end.

(** The body of the inner loop of [ProcessStores]; the pointer of a store
    is its second operand ([StoreSSA::Dump] prints the stored value
    first). *)
Definition ProcessStores_inst (block : Value) (stored : gset Value) (i : Value)
  : Res (gset Value) :=
  k ← deref (kindOf nodes i);
  match k with
  | StoreSSA =>
      ptr ← GetBasePointer nodes gfuel (operand nodes i 1);
      stored' ← (if IsSSA_ArgRef nodes ptr then
                   args ← args_of_parent block;
                   forM (fun st arg =>
                           ty ← deref (typeOf nodes arg);
                           Done (if IsPointer ty then {[arg]} ∪ st else st))
                        args stored
                 else Done stored);
      Done ({[ptr]} ∪ stored')
  | _ => Done stored
  end.

Definition ProcessStores (insts : gmap Value (list Value)) : Res (gset Value) :=
  forM (fun st block => forM (ProcessStores_inst block) (instsOf insts block) st)
       (body cur_loop_) ∅.

(** [pos = --l.end(); l.insert(pos, invs.begin(), invs.end())]; stepping
    back from the end of an empty list is not defined. *)
Fixpoint insert_before_last (invs l : list Value) : list Value :=
  match l with
  | [] => invs
  | [t] => invs ++ [t]
  | x :: l' => x :: insert_before_last invs l'
  end.

(** [parent->insts().remove(i)] *)
Definition remove_inst (insts : gmap Value (list Value)) (parent i : Value)
  : gmap Value (list Value) :=
  alter (filter (fun x => x ≠ i)) parent insts.

Definition hoist (invs : list Value) (insts : gmap Value (list Value))
  : Res (gmap Value (list Value)) :=
  block ← deref (preheader cur_loop_);
  match instsOf insts block with
  | [] => Abort
  | l =>
      forM (fun m i => parent ← deref (GetParent i); Done (remove_inst m parent i))
           invs (<[block := insert_before_last invs l]> insts)
  end.

Definition ProcessLoop (fuel : nat) (insts : gmap Value (list Value))
  : Res (gmap Value (list Value) * bool) :=
  stored ← ProcessStores insts;
  s ← mark_invariants nodes GetParent IsDominate cur_loop_ gfuel stored insts fuel;
  match invs_ s with
  | [] => Done (insts, false)
  | invs => insts' ← hoist invs insts; Done (insts', true)
  end.
End LICM_transform.

Section LICM_pass.
Context {Ty : Type} `{!BaseType Ty}.
Variable nodes : gmap Value (Node Ty).

(** The blocks of a function are its operands. *)
Definition blocksOf (func : Value) : list Value :=
  default [] ((fun n => omap id (oprs n)) <$> nodes !! func).

(** Modelled from the spec: [ParentScanner] ([opt/helper/inst.h]) is not at
    hand.  "Parent scanner: maps each Value to its parent Block, computed
    by one pass over all blocks' instruction lists; must be recomputed
    after any transform that moves instructions." *)
Definition ParentScanner (insts : gmap Value (list Value)) (func : Value)
  : gmap Value Value :=
  foldl (fun (m : gmap Value Value) (b : Value) =>
           foldl (fun (m : gmap Value Value) (i : Value) => <[i := b]> m)
                 m (instsOf insts b))
        ∅ (blocksOf func).

(** Modelled from the spec: [FunctionSSA::is_decl] is not at hand; a
    declaration is a function without blocks, the case in which
    [FunctionSSA::Dump] prints [declare]. *)
Definition is_decl (func : Value) : bool :=
  match blocksOf func with [] => true | _ => false end.

(** [RunOnFunction]; [IsDominate] and [loops] are what the [dom_info] and
    [loop_info] passes hand out for [func]. *)
Definition RunOnFunction (IsDominate : Value -> Value -> bool)
    (loops : list LoopInfo) (gfuel fuel : nat) (func : Value)
    (insts : gmap Value (list Value)) : Res (gmap Value (list Value) * bool) :=
  if is_decl func then Done (insts, false)
  else
    let parent := ParentScanner insts func in
    forM (fun (st : gmap Value (list Value) * bool) info =>
            ProcessLoop nodes (fun v => parent !! v) IsDominate
              info gfuel fuel (fst st)
            ≫= fun r : gmap Value (list Value) * bool =>
                 Done (fst r, if snd r then true else snd st))
         loops (insts, false).
End LICM_pass.

(** ** Vocabulary for the statements about the marking loop *)

(** The classes that [RunPass] hands to [LogInvariant]. *)
Definition hoistable (k : SSAKind) : bool :=
  match k with
  | AccessSSA _ | BinarySSA _ | UnarySSA _ | CastSSA | SelectSSA | LoadSSA => true
  | _ => false
  end.

Section LICM_vocabulary.
Context {Ty : Type} `{!BaseType Ty}.
Variable nodes : gmap Value (Node Ty).
Variable GetParent : Value -> option Value.
Variable IsDominate : Value -> Value -> bool.
Variable cur_loop_ : LoopInfo.
Variable gfuel : nat.
Variable stored_ptrs_ : gset Value.
Variable insts : gmap Value (list Value).

(** The instructions of the loop, block after block. *)
Definition loop_insts : list Value := body cur_loop_ ≫= instsOf insts.

(** The fields after the last lines of [LogInvariant] have run on [ssa]. *)
Definition mark_one (s : Marks) (ssa : Value) : Marks :=
  {| marked_invs_ := {[ssa]} ∪ marked_invs_ s;
     invs_ := match usersOf nodes ssa with
              | [] => invs_ s
              | _ :: _ => invs_ s ++ [ssa]
              end |}.

(** [invs_] lists, without repetition, the marked instructions that have
    a use. *)
Definition invs_ok (s : Marks) : Prop :=
  NoDup (invs_ s)
  /\ forall i, i ∈ invs_ s <-> i ∈ marked_invs_ s /\ usersOf nodes i <> [].

(** [grows s s']: [s'] is reached from [s] by marking, one after the
    other, loop instructions that were not marked yet and on which
    [RunPass] reaches the end of [LogInvariant]. *)
Inductive grows (s : Marks) : Marks -> Prop :=
| grows_refl : grows s s
| grows_step (s1 : Marks) (block i : Value) :
    grows s s1 ->
    block ∈ body cur_loop_ ->
    i ∈ instsOf insts block ->
    i ∉ marked_invs_ s1 ->
    RunPass nodes GetParent IsDominate cur_loop_ gfuel stored_ptrs_ block s1 i
      = Done (mark_one s1 i) ->
    grows s (mark_one s1 i).
End LICM_vocabulary.

(** [x] occurs in [l] somewhere before [y]. *)
Definition comes_before {A : Type} (x y : A) (l : list A) : Prop :=
  exists l1 l2 l3, l = l1 ++ x :: l2 ++ y :: l3.

(** The instructions that [RunPass] can hand to [LogInvariant]. *)
Definition is_hoistable {Ty : Type} (nodes : gmap Value (Node Ty)) (i : Value) : bool :=
  match kindOf nodes i with
  | Some k => hoistable k
  | None => false
  end.

(** The classes at which [GetBasePointer] returns. *)
Definition is_base (k : SSAKind) : bool :=
  match k with
  | AccessSSA _ | CastSSA | PhiSSA => false
  | _ => true
  end.
(** [p] is the base pointer of a store of the loop, or a pointer-typed
    argument of the function of a block whose store goes to an argument. *)
Definition store_origin {Ty : Type} `{!BaseType Ty} (nodes : gmap Value (Node Ty))
    (cur_loop_ : LoopInfo) (gfuel : nat) (insts : gmap Value (list Value))
    (p : Value) : Prop :=
  exists block i b,
    block ∈ body cur_loop_ /\ i ∈ instsOf insts block
    /\ kindOf nodes i = Some StoreSSA
    /\ GetBasePointer nodes gfuel (operand nodes i 1) = Done b
    /\ (p = b
        \/ IsSSA_ArgRef nodes b = true
           /\ exists args ty,
               args_of_parent nodes block = Done args /\ p ∈ args
               /\ typeOf nodes p = Some ty /\ IsPointer ty = true).

(** ** The pass manager: [opt/passman.cpp] *)

Section PassManager.
(** Everything a pass can read or change: the values reachable from
    [vars_] and [funcs_], and the fields of the pass objects. *)
Variable World : Type.
(** [*funcs_], and the blocks (operands) of a function. *)
Variable funcs : World -> list Value.
Variable blocks : World -> Value -> list Value.

(** [PassBase] ([opt/pass.h], not at hand): the three class tests and the
    entry points, each returning the new state and the [changed] flag. *)
Record PassBase := mkPass {
  IsModulePass : bool;
  IsFunctionPass : bool;
  IsBlockPass : bool;
  RunOnModule_vars : World -> World * bool;    (* [RunOnModule( *vars_ )] *)
  RunOnModule_funcs : World -> World * bool;   (* [RunOnModule( *funcs_ )] *)
  RunOnFunction_ : Value -> World -> World * bool;
  RunOnBlock : Value -> World -> World * bool;
}.

Record PassInfo := mkPassInfo {
  name : string;
  min_opt_level : nat;
  pass : PassBase;
}.

(** State of one pass over the list: the world, [changed], and the names
    of the passes run so far (a ghost record of which [info->pass()] were
    reached). *)
Record Sweep := mkSweep {
  world : World;
  changed : bool;
  ran : list string;
}.

(** [if (run(x)) changed = true;] for every [x] of [l] *)
Fixpoint for_each {A : Type} (run : A -> World -> World * bool) (l : list A)
    (w : World) (ch : bool) : World * bool :=
  match l with
  | [] => (w, ch)
  | x :: l' =>
      let r := run x w in
      for_each run l' (fst r) (if snd r then true else ch)
  end.

(** [for (func : *funcs_) for (i : *func) if (run(i)) changed = true;] *)
Fixpoint for_each_block (run : Value -> World -> World * bool) (fs : list Value)
    (w : World) (ch : bool) : World * bool :=
  match fs with
  | [] => (w, ch)
  | func :: fs' =>
      let r := for_each run (blocks w func) w ch in
      for_each_block run fs' (fst r) (snd r)
  end.

(** The body of [for (const auto &info : GetPasses())].  The list of
    functions is read when the pass starts, the list of blocks when its
    function is reached. *)
Definition run_info (opt_level_ : nat) (s : Sweep) (info : PassInfo) : Res Sweep :=
  if decide (opt_level_ < min_opt_level info) then Done s
  else
    let p := pass info in
    let w := world s in
    let log := ran s ++ [name info] in
    if IsModulePass p then
      let r1 := RunOnModule_vars p w in
      let ch1 := if snd r1 then true else changed s in
      let r2 := RunOnModule_funcs p (fst r1) in
      Done (mkSweep (fst r2) (if snd r2 then true else ch1) log)
    else if IsFunctionPass p then
      let r := for_each (RunOnFunction_ p) (funcs w) w (changed s) in
      Done (mkSweep (fst r) (snd r) log)
    else if IsBlockPass p then
      let r := for_each_block (RunOnBlock p) (funcs w) w (changed s) in
      Done (mkSweep (fst r) (snd r) log)
    else Abort.

(** One turn of [while (changed)]: [changed = false;] then the [for]. *)
Definition sweep_passes (passes : list PassInfo) (opt_level_ : nat) (w : World)
  : Res Sweep :=
  forM (run_info opt_level_) passes (mkSweep w false []).

(** [RunPasses]: the final world and the names of all passes run. *)
Fixpoint RunPasses (passes : list PassInfo) (opt_level_ : nat) (fuel : nat)
    (w : World) : Res (World * list string) :=
  match fuel with
  | 0 => NoFuel
  | S fuel' =>
      s ← sweep_passes passes opt_level_ w;
      if changed s then
        r ← RunPasses passes opt_level_ fuel' (world s);
        Done (fst r, ran s ++ snd r)
      else Done (world s, ran s)
  end.

(** Vocabulary for the statements: the passes that the guard on
    [min_opt_level] lets through, and "the [n]-th repetition of the sweep
    is the first one that reports no change, and leaves [w']". *)
Definition enabled (opt_level_ : nat) (passes : list PassInfo) : list PassInfo :=
  filter (fun info => min_opt_level info <= opt_level_) passes.

Inductive sweeps_until_stable (passes : list PassInfo) (opt_level_ : nat)
  : World -> nat -> World -> Prop :=
| stable_now (w : World) (s : Sweep) :
    sweep_passes passes opt_level_ w = Done s ->
    changed s = false ->
    sweeps_until_stable passes opt_level_ w 0 (world s)
| stable_later (w : World) (s : Sweep) (n : nat) (w' : World) :
    sweep_passes passes opt_level_ w = Done s ->
    changed s = true ->
    sweeps_until_stable passes opt_level_ (world s) n w' ->
    sweeps_until_stable passes opt_level_ w (S n) w'.

(** The reading of the spec, to compare [sweep_passes] with:
    "[run_passes()] iterates every registered pass whose
    [min_opt_level <= current]", "A pass reports change by returning true
    from its [run_on_*] entry point".  An entry point is called on the state
    reached so far and its answer joins [changed]; a module pass is run on
    the global variables and then on the functions, a function pass on every
    function, a block pass on every block of every function; a sweep runs
    the passes that the level admits, in the order of registration. *)
Definition call_entry (st : World * bool) (entry : World -> World * bool)
  : World * bool :=
  let r := entry (fst st) in (fst r, snd st || snd r).

Definition run_pass (p : PassBase) (st : World * bool) : World * bool :=
  if IsModulePass p then
    call_entry (call_entry st (RunOnModule_vars p)) (RunOnModule_funcs p)
  else if IsFunctionPass p then
    foldl (fun st func => call_entry st (RunOnFunction_ p func)) st (funcs (fst st))
  else
    foldl (fun st func =>
             foldl (fun st blk => call_entry st (RunOnBlock p blk)) st
                   (blocks (fst st) func))
          st (funcs (fst st)).

Definition full_sweep (passes : list PassInfo) (opt_level_ : nat) (w : World)
  : World * bool :=
  foldl (fun st info => run_pass (pass info) st) (w, false)
        (enabled opt_level_ passes).

(** The state after [n] full sweeps. *)
Definition after_sweeps (passes : list PassInfo) (opt_level_ : nat) (n : nat)
    (w : World) : World :=
  Nat.iter n (fun w => fst (full_sweep passes opt_level_ w)) w.
End PassManager.

Arguments mkPass {World}.
Arguments mkPassInfo {World}.
Arguments IsModulePass {World}.
Arguments IsFunctionPass {World}.
Arguments IsBlockPass {World}.
Arguments name {World}.
Arguments min_opt_level {World}.
Arguments pass {World}.
Arguments world {World}.
Arguments changed {World}.
Arguments ran {World}.
Arguments mkSweep {World}.
Arguments enabled {World}.

(** ** The builder: [mid/module.cpp] *)

(** Methods of the SSA classes that are declared in [mid/ssa.h] and defined
    in files that are not at hand. *)
Class SSAMethods (Ty : Type) : Type := {
  GetAddr : gmap Value (Node Ty) -> Value -> option Value;  (* [val->GetAddr()] *)
  UndefDump : string;                    (* what [UndefSSA::Dump] writes *)
}.

(** The fields of [Module], with the store of SSA objects ([m_nodes],
    [m_insts]) and the next free address ([m_next]). *)
Record Module (Ty : Type) : Type := mkModule {
  m_nodes : gmap Value (Node Ty);
  m_insts : gmap Value (list Value);
  m_next : Value;
  vars_ : list Value;
  funcs_ : list Value;
  insert_point_ : option Value;
  global_ctor_ : option Value;
  ctor_entry_ : option Value;
  ctor_exit_ : option Value;
  is_ctor_sealed_ : bool;
}.
Arguments mkModule {Ty}.
Arguments m_nodes {Ty}.
Arguments m_insts {Ty}.
Arguments m_next {Ty}.
Arguments vars_ {Ty}.
Arguments funcs_ {Ty}.
Arguments insert_point_ {Ty}.
Arguments global_ctor_ {Ty}.
Arguments ctor_entry_ {Ty}.
Arguments ctor_exit_ {Ty}.
Arguments is_ctor_sealed_ {Ty}.

Section Builder.
Context {Ty : Type} `{!BaseType Ty} `{!SSAMethods Ty}.
Implicit Types (m : Module Ty) (nodes : gmap Value (Node Ty)).

Definition set_store m nodes (insts : gmap Value (list Value)) (next : Value)
  : Module Ty :=
  mkModule nodes insts next (vars_ m) (funcs_ m) (insert_point_ m)
           (global_ctor_ m) (ctor_entry_ m) (ctor_exit_ m) (is_ctor_sealed_ m).

Definition set_insert_point m (b : option Value) : Module Ty :=
  mkModule (m_nodes m) (m_insts m) (m_next m) (vars_ m) (funcs_ m) b
           (global_ctor_ m) (ctor_entry_ m) (ctor_exit_ m) (is_ctor_sealed_ m).

Definition set_is_ctor_sealed m (b : bool) : Module Ty :=
  mkModule (m_nodes m) (m_insts m) (m_next m) (vars_ m) (funcs_ m)
           (insert_point_ m) (global_ctor_ m) (ctor_entry_ m) (ctor_exit_ m) b.

(** [value->AddUse(use)] for a use owned by [user]. *)
Definition add_use (user : Value) (n : Node Ty) : Node Ty :=
  mkNode (kind n) (oprs n) (uses n ++ [user]) (type_ n) (org_type_ n).

Definition link_use nodes (user : Value) (val : option Value)
  : gmap Value (Node Ty) :=
  match val with
  | Some x => alter (add_use user) x nodes
  | None => nodes
  end.

(** [user->AddValue(val)]: a new operand, linked into the use list of
    [val]. *)
Definition AddValue nodes (user : Value) (val : option Value)
  : gmap Value (Node Ty) :=
  link_use (alter (fun n => mkNode (kind n) (oprs n ++ [val]) (uses n)
                                   (type_ n) (org_type_ n)) user nodes)
           user val.

Definition set_type nodes (v : Value) (t : option Ty) : gmap Value (Node Ty) :=
  alter (fun n => mkNode (kind n) (oprs n) (uses n) t (org_type_ n)) v nodes.

Definition set_org_type nodes (v : Value) (t : option Ty) : gmap Value (Node Ty) :=
  alter (fun n => mkNode (kind n) (oprs n) (uses n) (type_ n) t) v nodes.

(** [MakeSSA<T>(operands...)]: a new object at the next free address,
    whose constructor links every operand. *)
Definition MakeSSA m (k : SSAKind) (operands : list (option Value))
  : Module Ty * Value :=
  let v := m_next m in
  let nodes1 := <[v := mkNode k operands [] None None]> (m_nodes m) in
  (set_store m (foldl (fun ns o => link_use ns v o) nodes1 operands)
             (m_insts m) (S v), v).

(** Modelled from the spec: [Module::AddInst] is defined in
    [mid/module.h], which is not at hand.  "Values are created through the
    Module's builder API, inserted at an implicit [insert_point] (current
    block)": the new instruction goes to the end of the current block. *)
Definition AddInst m (k : SSAKind) (operands : list (option Value))
  : Res (Module Ty * Value) :=
  block ← deref (insert_point_ m);
  let r := MakeSSA m k operands in
  let m1 := fst r in
  Done (set_store m1 (m_nodes m1)
                  (<[block := instsOf (m_insts m1) block ++ [snd r]]> (m_insts m1))
                  (m_next m1), snd r).

(** [set_types(nullptr)] leaves both types of a fresh object null. *)
Definition CreateJump m (target : Value) : Res (Module Ty * Value) :=
  r ← AddInst m JumpSSA [Some target];
  let m1 := fst r in
  Done (set_store m1 (AddValue (m_nodes m1) target (insert_point_ m1))
                  (m_insts m1) (m_next m1), snd r).

Definition SealGlobalCtor m : Res (Module Ty) :=
  match global_ctor_ m with
  | Some _ =>
      if negb (is_ctor_sealed_ m) then
        let m1 := set_insert_point m (ctor_entry_ m) in
        target ← deref (ctor_exit_ m1);
        r ← CreateJump m1 target;
        Done (set_is_ctor_sealed (fst r) true)
      else Done m
  | None => Done m
  end.

Definition CreateCast m (opr : Value) (type : Ty) : Res (Module Ty * Value) :=
  opr_ty ← deref (typeOf (m_nodes m) opr);
  let target := GetTrivialType type in
  if negb (CanCastTo opr_ty target) then Abort
  else if IsIdentical opr_ty target then Done (m, opr)
  else
    operand ← (if IsArray opr_ty then deref (GetAddr (m_nodes m) opr)
               else Done opr);
    r ← (if IsConst (m_nodes m) operand
         then Done (MakeSSA m CastSSA [Some operand])
         else AddInst m CastSSA [Some operand]);
    let m1 := fst r in
    let cast := snd r in
    Done (set_store m1
            (set_org_type (set_type (m_nodes m1) cast (Some target)) cast (Some type))
            (m_insts m1) (m_next m1), cast).



End Builder.

(** ** The textual dump: [mid/ssa.cpp] and [Module::Dump] *)

(** Modelled from the spec: [IdManager] ([mid/ssa.h] or a helper header) is
    not at hand.  "Values are named [@name] when named (functions, globals,
    named blocks) else [%N] with per-function numeric ids reset at each
    function definition": a table of logged names, a table of numeric ids
    handed out in order of first request, and the next id. *)
Record IdManager := mkIdManager {
  ids_ : gmap Value nat;
  names_ : gmap Value string;
  cur_id_ : nat;
}.

Definition IdManager_new : IdManager := mkIdManager ∅ ∅ 0.

Definition GetId (idm : IdManager) (val : Value) : IdManager * nat :=
  match ids_ idm !! val with
  | Some n => (idm, n)
  | None => (mkIdManager (<[val := cur_id_ idm]> (ids_ idm)) (names_ idm)
                         (S (cur_id_ idm)), cur_id_ idm)
  end.

Definition GetName (idm : IdManager) (val : Value) : option string :=
  names_ idm !! val.

Definition LogName (idm : IdManager) (val : Value) (name : string) : IdManager :=
  match names_ idm !! val with
  | Some _ => idm
  | None => mkIdManager (ids_ idm) (<[val := name]> (names_ idm)) (cur_id_ idm)
  end.

Definition ResetId (idm : IdManager) : IdManager :=
  mkIdManager ∅ (names_ idm) 0.

(** A computation that writes to the stream [os] and uses the id manager. *)
Definition Out (A : Type) : Type := IdManager * string -> Res (A * (IdManager * string)).

#[global] Instance Out_ret : MRet Out := fun A a st => Done (a, st).
#[global] Instance Out_bind : MBind Out := fun A B f c st =>
  match c st with
  | Done (a, st') => f a st'
  | Abort => Abort
  | NoFuel => NoFuel
  end.

(** [os << s] *)
Definition put (s : string) : Out unit :=
  fun st => Done (tt, (fst st, snd st +:+ s)).

Definition lift {A : Type} (r : Res A) : Out A :=
  fun st => match r with
            | Done a => Done (a, st)
            | Abort => Abort
            | NoFuel => NoFuel
            end.

(** The same computation writing to [null_os]. *)
Definition quiet {A : Type} (c : Out A) : Out A :=
  fun st => match c (fst st, "") with
            | Done (a, st') => Done (a, (fst st', snd st))
            | Abort => Abort
            | NoFuel => NoFuel
            end.

Fixpoint for_out {A : Type} (f : A -> Out unit) (l : list A) : Out unit :=
  match l with
  | [] => mret tt
  | x :: l' => f x;; for_out f l'
  end.

(** Elements separated by [", "]. *)
Fixpoint for_out_sep {A : Type} (f : A -> Out unit) (l : list A) : Out unit :=
  match l with
  | [] => mret tt
  | x :: l' =>
      f x;;
      match l' with
      | [] => mret tt
      | _ :: _ => put ", ";; for_out_sep f l'
      end
  end.

Definition endl : string := String "010"%char "".
Definition kIndent : string := "  ".

Definition kLinkTypes (l : LinkageTypes) : string :=
  match l with
  | Internal => "internal" | Inline => "inline" | External => "external"
  | GlobalCtor => "global_ctor" | GlobalDtor => "global_dtor"
  end.

Definition kBinOps (op : BinaryOp) : string :=
  match op with
  | Add => "add" | Sub => "sub" | Mul => "mul" | UDiv => "udiv" | SDiv => "sdiv"
  | URem => "urem" | SRem => "srem" | Equal => "eq" | NotEq => "neq"
  | ULess => "ult" | SLess => "slt" | ULessEq => "ule" | SLessEq => "sle"
  | UGreat => "ugt" | SGreat => "sgt" | UGreatEq => "uge" | SGreatEq => "sge"
  | And => "and" | Or => "or" | Xor => "xor" | Shl => "shl" | LShr => "lshr"
  | AShr => "ashr"
  end.

Definition kUnaOps (op : UnaryOp) : string :=
  match op with Neg => "neg" | LogicNot => "lnot" | Not => "not" end.

Definition dec (n : nat) : string := NilEmpty.string_of_uint (Nat.to_uint n).

(** [os << value_] for an unsigned 32-bit value and
    [os << static_cast<std::int32_t>(value_)]. *)
Definition dec_u32 (v : N) : string := dec (N.to_nat v).
Definition dec_i32 (v : N) : string :=
  if (v <? 2147483648)%N then dec (N.to_nat v)
  else "-" +:+ dec (N.to_nat (4294967296 - v)).

(** The format flags of the stream [os] that [ConvertChar] relies on and
    does not set: the side on which a field is padded ([std::left],
    [std::right], [std::internal], or none of them, as in a new stream),
    [std::showbase] and [std::uppercase].  The stream is taken to write
    integers in decimal (as [ConvertChar] leaves it with [std::dec]) and to
    have no field width pending. *)
Inductive Adjust := AdjustLeft | AdjustRight | AdjustInternal | AdjustNone.

Record Format := mkFormat {
  adjustfield : Adjust;
  showbase : bool;
  uppercase : bool;
}.

Definition hex_digit (upper : bool) (n : nat) : string :=
  String (nth n (list_ascii_of_string (if upper then "0123456789ABCDEF"
                                       else "0123456789abcdef")) "0"%char) "".

(** [os << std::setw(2) << std::setfill('0') << std::hex << v] for the value
    [v] of [static_cast<int>(c)], [c] being the byte [n], on a host with
    signed [char]: a byte above 127 is a negative [int] and is written as
    the eight digits of its two's complement.  With [showbase] the digits
    follow [0x] (the value is not zero here) and fill the two columns; a
    single digit is otherwise padded with [0], after the digit on a stream
    that is left adjusted and before it on any other. *)
Definition hex_int (fmt : Format) (n : nat) : string :=
  let d := hex_digit (uppercase fmt) in
  let digits :=
    if decide (n < 16) then d n
    else if decide (n < 128) then d (n / 16) +:+ d (n mod 16)
    else (if uppercase fmt then "FFFFFF" else "ffffff") +:+ d (n / 16) +:+ d (n mod 16) in
  if showbase fmt then (if uppercase fmt then "0X" else "0x") +:+ digits
  else if decide (n < 16) then
    match adjustfield fmt with
    | AdjustLeft => digits +:+ "0"
    | AdjustRight | AdjustInternal | AdjustNone => "0" +:+ digits
    end
  else digits.

(** [ConvertChar], in the C locale. *)
Definition ConvertChar (fmt : Format) (c : ascii) : string :=
  let n := nat_of_ascii c in
  if decide (n = 7) then "\a"
  else if decide (n = 8) then "\b"
  else if decide (n = 12) then "\f"
  else if decide (n = 10) then "\n"
  else if decide (n = 13) then "\r"
  else if decide (n = 9) then "\t"
  else if decide (n = 11) then "\v'"
  else if decide (n = 92) then "\\"
  else if decide (n = 39) then "'"
  else if decide (n = 34) then String "\"%char (String (ascii_of_nat 34) "")
  else if decide (n = 0) then "\0"
  else if decide (32 <= n /\ n <= 126) then String c ""
  else "\x" +:+ hex_int fmt n.

Section Dump.
Context {Ty : Type} `{!BaseType Ty} `{!SSAMethods Ty}.
(** The format flags of [os] when the dump starts. *)
Variable fmt : Format.
Variable nodes : gmap Value (Node Ty).
Variable insts : gmap Value (list Value).

Definition PrintId (val : Value) : Out unit :=
  fun st =>
    match GetName (fst st) val with
    | Some name => Done (tt, (fst st, snd st +:+ "@" +:+ name))
    | None =>
        let r := GetId (fst st) val in
        Done (tt, (fst r, snd st +:+ "%" +:+ dec (snd r)))
    end.

Definition PrintType (type : option Ty) : Out unit :=
  t ← lift (deref type); put (GetTypeId t).

Definition logName (val : Value) (name : string) : Out unit :=
  fun st => Done (tt, (LogName (fst st) val name, snd st)).

Definition resetId : Out unit :=
  fun st => Done (tt, (ResetId (fst st), snd st)).

(** [assert(in_expr)] *)
Definition assert_in_expr (in_expr : nat) : Out unit :=
  match in_expr with 0 => lift Abort | S _ => mret tt end.

Definition PrintPrefix (in_expr : nat) (val : Value) : Out bool :=
  match in_expr with
  | 0 => put kIndent;; PrintId val;; put " = ";; mret false
  | S _ => PrintId val;; mret true
  end.

(** [if (PrintPrefix(os, idm, this)) return;] followed by [rest] *)
Definition with_prefix (in_expr : nat) (val : Value) (rest : Out unit) : Out unit :=
  PrintPrefix in_expr val ≫= fun r : bool => if r then mret tt else rest.

(** The [Dump] method of the object [this], whose fields are [n], with the
    global [in_expr] at the given value; [DumpVal e o] dumps the value [o]
    with [in_expr] at [e].  Every scope guarded by [InExpr()] passes
    [S in_expr] down. *)
Definition Dump_node (DumpVal : nat -> option Value -> Out unit)
    (in_expr : nat) (this : Value) (n : Node Ty) : Out unit :=
      let opr i := mjoin (oprs n !! i) in
      let DumpWithType e o :=
        (v ← lift (deref o);
         PrintType (typeOf nodes v);; put " ";; DumpVal e o) in
      let e := S in_expr in
      match kind n with
      | LoadSSA =>
          with_prefix in_expr this
            (put "load ";; PrintType (type_ n);; put ", ";;
               DumpWithType e (opr 0);; put endl)
      | StoreSSA =>
          put kIndent;; put "store ";; DumpWithType e (opr 0);; put ", ";;
          DumpWithType e (opr 1);; put endl
      | AccessSSA acc =>
          with_prefix in_expr this
            (put "access ";;
               put (match acc with AccPointer => "ptr " | AccElement => "elem " end);;
               DumpWithType e (opr 0);; put ", ";; DumpVal e (opr 1);; put endl)
      | BinarySSA op =>
          with_prefix in_expr this
            (put (kBinOps op);; put " ";; PrintType (type_ n);; put " ";;
               DumpVal e (opr 0);; put ", ";; DumpVal e (opr 1);; put endl)
      | UnarySSA op =>
          with_prefix in_expr this
            (put (kUnaOps op);; put " ";; PrintType (type_ n);; put " ";;
               DumpVal e (opr 0);; put endl)
      | CastSSA =>
          let is_const := IsConst nodes this in
          let rest := put "cast ";; PrintType (type_ n);; put " ";;
                      DumpVal e (opr 0);;
                      (if is_const then mret tt else put endl) in
          if is_const then rest else with_prefix in_expr this rest
      | CallSSA =>
          with_prefix in_expr this
            (put "call ";; DumpWithType e (opr 0);;
               for_out (fun o => put ", ";; DumpVal e o) (tail (oprs n));;
               put endl)
      | BranchSSA =>
          put kIndent;; put "branch ";; DumpVal e (opr 0);; put ", ";;
          DumpVal e (opr 1);; put ", ";; DumpVal e (opr 2);; put endl
      | JumpSSA =>
          put kIndent;; put "jump ";; DumpVal e (opr 0);; put endl
      | ReturnSSA =>
          put kIndent;; put "return ";;
          match opr 0 with
          | None => put "void"
          | Some _ => DumpWithType e (opr 0)
          end;;
          put endl
      | FunctionSSA link name _ =>
          logName this name;;
          match in_expr with
          | S _ => PrintId this
          | 0 =>
              put (match oprs n with [] => "declare " | _ => "define " end);;
              put (kLinkTypes link);; put " ";; PrintType (type_ n);; put " ";;
              PrintId this;;
              match oprs n with
              | [] => mret tt
              | blocks =>
                  resetId;;
                  quiet (for_out (DumpVal e) blocks);;
                  put " {";; put endl;;
                  for_out (DumpVal in_expr) blocks;;
                  put "}"
              end;;
              put endl
          end
      | GlobalVarSSA link is_var name =>
          logName this name;;
          PrintId this;;
          match in_expr with
          | S _ => mret tt
          | 0 =>
              put " = ";; put (kLinkTypes link);; put " global ";;
              put (if is_var then "var" else "const");; put " ";;
              PrintType (type_ n);;
              match opr 0 with
              | None => mret tt
              | Some _ => put ", ";; DumpVal e (opr 0)
              end;;
              put endl
          end
      | AllocaSSA =>
          with_prefix in_expr this
            (put "alloca ";; PrintType (type_ n);; put endl)
      | BlockSSA _ name =>
          (if decide (name = "") then mret tt else logName this name);;
          PrintId this;;
          match in_expr with
          | S _ => mret tt
          | 0 =>
              put ":";;
              match oprs n with
              | [] => mret tt
              | preds => put " ; preds: ";; for_out_sep (DumpVal e) preds
              end;;
              put endl;;
              for_out (fun i => DumpVal in_expr (Some i)) (instsOf insts this)
          end
      | ArgRefSSA _ index =>
          assert_in_expr in_expr;; put "arg ";; put (dec index)
      | ConstIntSSA value =>
          assert_in_expr in_expr;; put "constant ";; PrintType (type_ n);;
          put " ";;
          match type_ n with
          | Some t => if IsUnsigned t || IsPointer t then put (dec_u32 value)
                      else put (dec_i32 value)
          | None => lift Abort
          end
      | ConstStrSSA str =>
          assert_in_expr in_expr;; put "constant ";; PrintType (type_ n);;
          put " ";; put (String (ascii_of_nat 34) "");;
          for_out (fun c => put (ConvertChar fmt c)) (list_ascii_of_string str);;
          put (String (ascii_of_nat 34) "")
      | ConstStructSSA | ConstArraySSA =>
          assert_in_expr in_expr;; put "constant ";; PrintType (type_ n);;
          put " {";; for_out_sep (DumpVal in_expr) (oprs n);; put "}"
      | ConstZeroSSA =>
          assert_in_expr in_expr;; put "constant ";; PrintType (type_ n);;
          put " zero"
      | PhiOperandSSA =>
          assert_in_expr in_expr;; put "[";; DumpVal in_expr (opr 0);;
          put ", ";; DumpVal in_expr (opr 1);; put "]"
      | PhiSSA =>
          with_prefix in_expr this
            (put "phi ";; PrintType (type_ n);; put " ";;
               for_out_sep (DumpVal e) (oprs n);; put endl)
      | SelectSSA =>
          with_prefix in_expr this
            (put "select ";; DumpWithType e (opr 0);; put ", ";;
               DumpWithType e (opr 1);; put ", ";; DumpWithType e (opr 2);;
               put endl)
      | UndefSSA => put UndefDump
      end.

(** [val->Dump(os, idm)] *)
Fixpoint Dump (fuel : nat) (in_expr : nat) (val : option Value) : Out unit :=
  match fuel with
  | 0 => lift NoFuel
  | S fuel' =>
      this ← lift (deref val);
      n ← lift (deref (nodes !! this));
      Dump_node (Dump fuel') in_expr this n
  end.
End Dump.

Section ModuleDump.
Context {Ty : Type} `{!BaseType Ty} `{!SSAMethods Ty}.

(** [Module::Dump] on a stream with the format flags [fmt]: the sealed
    module and the text written to [os]. *)
Definition Module_Dump (fmt : Format) (fuel : nat) (m : Module Ty)
  : Res (Module Ty * string) :=
  m1 ← SealGlobalCtor m;
  let dump_all :=
    for_out (fun i => Dump fmt (m_nodes m1) (m_insts m1) fuel 0 (Some i);; put endl) in
  r ← (dump_all (vars_ m1);; dump_all (funcs_ m1)) (IdManager_new, "");
  Done (m1, snd (snd r)).
End ModuleDump.

(** ** Vocabulary for the statements about the builder and the dump *)

Section Builder_vocabulary.
Context {Ty : Type} `{!BaseType Ty} `{!SSAMethods Ty}.
Implicit Types (m : Module Ty).





(** What [PrintId] writes for [val], and the id manager it leaves. *)
Definition id_text (idm : IdManager) (val : Value) : IdManager * string :=
  match GetName idm val with
  | Some name => (idm, "@" +:+ name)
  | None => let r := GetId idm val in (fst r, "%" +:+ dec (snd r))
  end.

End Builder_vocabulary.

(** ** [PassManager::ShowInfo] *)

(** [os << std::setw(w) << std::left << s] on a stream whose fill character
    is [fill]: [s], padded on the right up to the width [w]. *)
Definition setw_left (fill : ascii) (w : nat) (s : string) : string :=
  s +:+ string_of_list_ascii (replicate (w - String.length s) fill).

Section ShowInfo.
Variable World : Type.
(** The fill character of [os]; its numbers are written in base ten. *)
Variable fill : ascii.

(** The body of the loop over the registered passes. *)
Definition show_registered (os : string) (i : PassInfo World) : string :=
  os +:+ "  " +:+ setw_left fill 20 (name i)
     +:+ "min_opt_level = " +:+ dec (min_opt_level i) +:+ endl.

(** The body of the loop over the enabled passes, on the stream and
    [count]. *)
Definition show_enabled (opt_level_ : nat) (st : string * nat) (i : PassInfo World)
  : string * nat :=
  if decide (min_opt_level i <= opt_level_) then
    let os1 := if decide (snd st mod 5 = 0) then fst st +:+ "  " else fst st in
    let os2 := os1 +:+ setw_left fill 16 (name i) in
    let os3 := if decide (snd st mod 5 = 4) then os2 +:+ endl else os2 in
    (os3, S (snd st))
  else st.

(** What [ShowInfo] writes. *)
Definition ShowInfo (passes : list (PassInfo World)) (opt_level_ : nat) : string :=
  let os := "current optimization level: " +:+ dec opt_level_ +:+ endl +:+ endl
            +:+ "registed passes:" +:+ endl in
  match passes with
  | [] => os +:+ "  <none>" +:+ endl
  | _ :: _ =>
      let os := foldl show_registered os passes +:+ endl
                +:+ "enabled passes:" +:+ endl in
      let r := foldl (show_enabled opt_level_) (os, 0) passes in
      if decide (snd r = 0) then fst r +:+ "  <none>" +:+ endl
      else if decide ((snd r - 1) mod 5 <> 4) then fst r +:+ endl
      else fst r
  end.
End ShowInfo.

Arguments ShowInfo {World}.
Arguments show_registered {World}.
Arguments show_enabled {World}.

(** Vocabulary for the statement about [ShowInfo]: the concatenation of a
    list of texts, a list cut into rows of five, the line of a registered
    pass and a row of enabled passes. *)
Definition cat (l : list string) : string := foldr String.append "" l.

Fixpoint rows_of_five {A : Type} (fuel : nat) (l : list A) : list (list A) :=
  match fuel, l with
  | 0, _ => []
  | _, [] => []
  | S fuel', _ => take 5 l :: rows_of_five fuel' (drop 5 l)
  end.

Definition registered_line {World : Type} (fill : ascii) (i : PassInfo World) : string :=
  "  " +:+ setw_left fill 20 (name i)
  +:+ "min_opt_level = " +:+ dec (min_opt_level i) +:+ endl.

Definition enabled_row (fill : ascii) (names : list string) : string :=
  "  " +:+ cat (setw_left fill 16 <$> names) +:+ endl.

(** The text of the enabled passes [names] when [c] names were written
    before them. *)
Fixpoint enabled_text (fill : ascii) (c : nat) (names : list string) : string :=
  match names with
  | [] => ""
  | n :: ns =>
      (if decide (c mod 5 = 0) then "  " else "")
      +:+ setw_left fill 16 n
      +:+ (if decide (c mod 5 = 4) then endl else "")
      +:+ enabled_text fill (S c) ns
  end.

(** A pass that is neither a module pass, nor a function pass, nor a block
    pass: [assert(pass->IsBlockPass())] fails on it. *)
Definition of_no_kind {World : Type} (info : PassInfo World) : Prop :=
  IsModulePass (pass info) = false
  /\ IsFunctionPass (pass info) = false
  /\ IsBlockPass (pass info) = false.

(** ** Vocabulary for the statements about string constants *)

(** What [for (const auto &c : str_) ConvertChar(os, c);] writes. *)
Definition escape (fmt : Format) (str : string) : string :=
  cat (ConvertChar fmt <$> list_ascii_of_string str).

(** The 256 values of a [char]. *)
Definition all_chars : list ascii := List.map ascii_of_nat (seq 0 256).

(** The sixteen settings of the format flags. *)
Definition all_formats : list Format :=
  a ← [AdjustLeft; AdjustRight; AdjustInternal; AdjustNone];
  b ← [false; true];
  u ← [false; true];
  [mkFormat a b u].

(** A stream that pads before the digits and writes no base. *)
Definition pads_before (fmt : Format) : bool :=
  match adjustfield fmt with AdjustLeft => false | _ => true end
  && negb (showbase fmt).

(** A printable character of the C locale. *)
Definition printable (c : ascii) : bool :=
  Nat.leb 32 (nat_of_ascii c) && Nat.leb (nat_of_ascii c) 126.

Fixpoint is_prefix (l k : list ascii) : bool :=
  match l, k with
  | [], _ => true
  | _ :: _, [] => false
  | x :: l', y :: k' => bool_decide (x = y) && is_prefix l' k'
  end.

(** The escape sequence of every character. *)
Definition escape_table (fmt : Format) : list (ascii * list ascii) :=
  List.map (fun c => (c, list_ascii_of_string (ConvertChar fmt c))) all_chars.

(** An escape sequence is not empty and is made of printable characters;
    it does not begin the escape sequence of another character. *)
Definition escape_ok (x : ascii * list ascii) : bool :=
  match snd x with [] => false | _ :: _ => true end && forallb printable (snd x).

Definition escape_apart (x y : ascii * list ascii) : bool :=
  implb (is_prefix (snd x) (snd y)) (bool_decide (fst x = fst y)).

(** ** More of the builder: the global constructor and calls *)

(** The methods of [BaseType] and the type constructors that the functions
    below use besides those above ([define/type.h] is not at hand). *)
Class FuncTypeMethods (Ty : Type) : Type := {
  IsFunction : Ty -> bool;
  IsVoid : Ty -> bool;
  GetArgsType : Ty -> option (list Ty);       (* a [std::optional<TypePtrList>] *)
  GetReturnType : Ty -> list Ty -> option Ty; (* null when there is none *)
  MakeVoid : Ty;
  FuncType : list Ty -> Ty -> bool -> Ty;     (* [std::make_shared<FuncType>(...)] *)
}.

Section Builder_more.
Context {Ty : Type} `{!BaseType Ty} `{!SSAMethods Ty} `{!FuncTypeMethods Ty}.
Implicit Types (m : Module Ty) (nodes : gmap Value (Node Ty)).

Definition set_funcs m (l : list Value) : Module Ty :=
  mkModule (m_nodes m) (m_insts m) (m_next m) (vars_ m) l (insert_point_ m)
           (global_ctor_ m) (ctor_entry_ m) (ctor_exit_ m) (is_ctor_sealed_ m).

Definition set_global_ctor m (f : option Value) : Module Ty :=
  mkModule (m_nodes m) (m_insts m) (m_next m) (vars_ m) (funcs_ m) (insert_point_ m)
           f (ctor_entry_ m) (ctor_exit_ m) (is_ctor_sealed_ m).

Definition set_ctor_entry m (b : option Value) : Module Ty :=
  mkModule (m_nodes m) (m_insts m) (m_next m) (vars_ m) (funcs_ m) (insert_point_ m)
           (global_ctor_ m) b (ctor_exit_ m) (is_ctor_sealed_ m).

Definition set_ctor_exit m (b : option Value) : Module Ty :=
  mkModule (m_nodes m) (m_insts m) (m_next m) (vars_ m) (funcs_ m) (insert_point_ m)
           (global_ctor_ m) (ctor_entry_ m) b (is_ctor_sealed_ m).

Definition set_nodes m nodes : Module Ty :=
  set_store m nodes (m_insts m) (m_next m).

(** Modelled from the spec: [Value::set_types] is defined in
    [mid/usedef.h], which is not at hand.  "Every node in the IR is a Value
    with: (1) a primary Type (post-coercion view), (2) an optional original
    Type (pre-trivialization view, carrying reference/const attributes)";
    "Trivial type: a type with reference/const qualifiers stripped - the
    view used for SSA typing": the primary type becomes the trivial type of
    the given one, the original type the given one, and [set_types(nullptr)]
    leaves both null. *)
Definition set_types nodes (v : Value) (t : option Ty) : gmap Value (Node Ty) :=
  set_org_type (set_type nodes v (GetTrivialType <$> t)) v t.

(** The function starts without arguments and without blocks. *)
Definition CreateFunction m (link : LinkageTypes) (name : string) (type : Ty)
  : Res (Module Ty * Value) :=
  if negb (IsFunction type) then Abort
  else
    let r := MakeSSA m (FunctionSSA link name []) [] in
    let m1 := set_nodes (fst r) (set_types (m_nodes (fst r)) (snd r) (Some type)) in
    Done (set_funcs m1 (funcs_ m1 ++ [snd r]), snd r).

(** [CreateBlock(parent, name)]; the parent is a field of the block, the
    block becomes an operand of the parent. *)
Definition CreateBlock m (parent : option Value) (name : string)
  : Res (Module Ty * Value) :=
  p ← deref parent;
  pty ← deref (typeOf (m_nodes m) p);
  if negb (IsFunction pty) then Abort
  else
    let r := MakeSSA m (BlockSSA (Some p) name) [] in
    Done (set_nodes (fst r) (AddValue (m_nodes (fst r)) p (Some (snd r))), snd r).

(** [insert_point_->parent()] *)
Definition parent_of_block nodes (block : Value) : Res Value :=
  bk ← deref (kindOf nodes block);
  match bk with
  | BlockSSA parent _ => deref parent
  | _ => Abort
  end.

(** [CreateReturn(value)]; in the assertion, [val->type()] is reached with
    a null [val] when the return type is not void. *)
Definition CreateReturn m (value : option Value) : Res (Module Ty * Value) :=
  block ← deref (insert_point_ m);
  func ← parent_of_block (m_nodes m) block;
  fn ← deref (m_nodes m !! func);
  func_type ← deref (org_type_ fn);
  args ← deref (GetArgsType func_type);
  ret_type ← deref (GetReturnType func_type args);
  ok ← (if IsVoid ret_type && bool_decide (value = None) then Done true
        else
          val ← deref value;
          vty ← deref (typeOf (m_nodes m) val);
          Done (IsIdentical (GetTrivialType ret_type) vty));
  if negb ok then Abort else AddInst m ReturnSSA [value].

(** [EnterGlobalCtor]: the module it leaves, and the block that the guard
    it returns puts back as the insert point. *)
Definition EnterGlobalCtor m : Res (Module Ty * option Value) :=
  let cur_block := insert_point_ m in
  m' ← match global_ctor_ m with
       | Some _ => Done m
       | None =>
           CreateFunction m GlobalCtor "_$ctor" (FuncType [] MakeVoid true)
           ≫= fun r1 : Module Ty * Value =>
           let m1 := set_global_ctor (fst r1) (Some (snd r1)) in
           CreateBlock m1 (global_ctor_ m1) "entry"
           ≫= fun r2 : Module Ty * Value =>
           let m2 := set_ctor_entry (fst r2) (Some (snd r2)) in
           CreateBlock m2 (global_ctor_ m2) "exit"
           ≫= fun r3 : Module Ty * Value =>
           let m3 := set_ctor_exit (fst r3) (Some (snd r3)) in
           CreateReturn (set_insert_point m3 (ctor_exit_ m3)) None
           ≫= fun r4 : Module Ty * Value =>
           Done (set_is_ctor_sealed (fst r4) false)
       end;
  Done (set_insert_point m' (ctor_entry_ m'), cur_block).

(** What the guard does when it is released: [insert_point_ = cur_block]. *)
Definition release_guard m (cur_block : option Value) : Module Ty :=
  set_insert_point m cur_block.

(** One round of the loop of [CreateCall]: the next argument, behind a cast
    when its type is not the trivial type of the parameter, is appended to
    [casted_args]. *)
Definition cast_arg (st : Module Ty * list (option Value)) (pa : Ty * option Value)
  : Res (Module Ty * list (option Value)) :=
  arg ← deref (snd pa);
  let arg_ty := GetTrivialType (fst pa) in
  aty ← deref (typeOf (m_nodes (fst st)) arg);
  r ← (if negb (IsIdentical aty arg_ty) then CreateCast (fst st) arg arg_ty
       else Done (fst st, arg));
  Done (fst r, snd st ++ [Some (snd r)]).

(** [CreateCall(callee, args)]; the loop runs over the parameter types and
    takes the arguments in step, the call has the callee as its first
    operand and the arguments after it. *)
Definition CreateCall m (callee : Value) (args : list (option Value))
  : Res (Module Ty * Value) :=
  cty ← deref (typeOf (m_nodes m) callee);
  if negb (IsFunction cty) then Abort
  else
    cn ← deref (m_nodes m !! callee);
    org ← deref (org_type_ cn);
    args_type ← deref (GetArgsType org);
    if negb (bool_decide (length args_type = length args)) then Abort
    else
      st ← forM cast_arg (zip args_type args) (m, []);
      r ← AddInst (fst st) CallSSA (Some callee :: snd st);
      cn' ← deref (m_nodes (fst r) !! callee);
      org' ← deref (org_type_ cn');
      let ret_type := GetReturnType org' args_type in
      Done (set_nodes (fst r) (set_types (m_nodes (fst r)) (snd r) ret_type), snd r).

(** The addresses from [m_next] on are free: an object that is created is
    not one of those that exist. *)
Definition fresh m : Prop := forall v, m_next m <= v -> m_nodes m !! v = None.

(** What the builder never changes of an object that exists: everything but
    its use list. *)
Definition core (n : Node Ty) : SSAKind * list (option Value) * option Ty * option Ty :=
  (kind n, oprs n, type_ n, org_type_ n).

(** [m'] is [m] after more objects were created. *)
Definition extends m m' : Prop :=
  m_next m <= m_next m'
  /\ insert_point_ m' = insert_point_ m
  /\ forall y, y < m_next m -> core <$> m_nodes m' !! y = core <$> m_nodes m !! y.
End Builder_more.

(** ** A concrete type system for the examples *)

(** Modelled from the spec: [define/type.cpp] is not at hand.  The variants
    of section 3 that the examples use, with "[is_identical(a,b)] is
    structural equality", and for [can_accept(dst, src)]: "integers widen and
    sign-convert (same-width cast is identity); array decays to
    pointer-to-element; pointers match when pointees are identical or one
    side is [void*]; everything else requires identity"; "[can_cast_to]
    additionally permits int<->pointer and narrowing integer conversions".
    No variant of this fragment carries a reference or const attribute, so
    [trivial_type] has nothing to strip.  Type ids are rendered as in the
    examples of section 6 ([i32], [i32*]). *)
Module SpecType.
Inductive PrimKind := Void | Int8 | Int32.

#[warnings="-register-all"]
Inductive Ty :=
| Prim (k : PrimKind) (signed : bool)
| Pointer (pointee : Ty) (mutable : bool)
| Array (elem : Ty) (len : nat)
| Function (params : list Ty) (ret : Ty) (variadic : bool).

Definition prim_eqb (a b : PrimKind) : bool :=
  match a, b with
  | Void, Void | Int8, Int8 | Int32, Int32 => true
  | _, _ => false
  end.

Fixpoint is_identical (a b : Ty) : bool :=
  match a, b with
  | Prim k s, Prim k' s' => prim_eqb k k' && Bool.eqb s s'
  | Pointer p m, Pointer p' m' => is_identical p p' && Bool.eqb m m'
  | Array e n, Array e' n' => is_identical e e' && Nat.eqb n n'
  | Function ps r v, Function ps' r' v' =>
      (fix all2 (l : list Ty) (l' : list Ty) : bool :=
         match l, l' with
         | [], [] => true
         | x :: l, x' :: l' => is_identical x x' && all2 l l'
         | _, _ => false
         end) ps ps'
      && is_identical r r' && Bool.eqb v v'
  | _, _ => false
  end.

Definition is_integer (t : Ty) : bool :=
  match t with
  | Prim Int8 _ | Prim Int32 _ => true
  | _ => false
  end.

Definition is_pointer (t : Ty) : bool :=
  match t with Pointer _ _ => true | _ => false end.

Definition is_array (t : Ty) : bool :=
  match t with Array _ _ => true | _ => false end.

Definition is_unsigned (t : Ty) : bool :=
  match t with
  | Prim Int8 s | Prim Int32 s => negb s
  | _ => false
  end.

Definition byte_size (t : Ty) : nat :=
  match t with
  | Prim Int8 _ => 1
  | Prim Int32 _ => 4
  | _ => 0
  end.

Definition is_void_ptr (t : Ty) : bool :=
  match t with Pointer (Prim Void _) _ => true | _ => false end.

Definition pointee (t : Ty) : option Ty :=
  match t with
  | Pointer p _ => Some p
  | Array e _ => Some e
  | _ => None
  end.

Definition can_accept (dst src : Ty) : bool :=
  if is_integer dst && is_integer src then Nat.leb (byte_size src) (byte_size dst)
  else match dst, src with
       | Pointer p _, Array e _ => is_identical p e
       | Pointer p _, Pointer p' _ =>
           is_identical p p' || is_void_ptr dst || is_void_ptr src
       | _, _ => is_identical dst src
       end.

Definition can_cast_to (src dst : Ty) : bool :=
  can_accept dst src
  || (is_integer src && is_integer dst)
  || (is_integer src && is_pointer dst)
  || (is_pointer src && is_integer dst).

Fixpoint type_id (t : Ty) : string :=
  match t with
  | Prim Void _ => "void"
  | Prim Int8 s => (if s then "i8" else "u8")
  | Prim Int32 s => (if s then "i32" else "u32")
  | Pointer p _ => type_id p +:+ "*"
  | Array e n => type_id e +:+ "[" +:+ NilEmpty.string_of_uint (Nat.to_uint n) +:+ "]"
  | Function ps r _ =>
      type_id r +:+ "("
      +:+ (fix go (l : list Ty) : string :=
            match l with
            | [] => ""
            | x :: l' =>
                match l' with
                | [] => type_id x
                | _ :: _ => type_id x +:+ ", " +:+ go l'
                end
            end) ps
      +:+ ")"
  end.

#[global] Instance Ty_BaseType : BaseType Ty := {|
  IsIdentical := is_identical;
  CanAccept := can_accept;
  CanCastTo := can_cast_to;
  GetDerefedType := pointee;
  GetTrivialType := fun t => t;
  IsArray := is_array;
  IsPointer := is_pointer;
  IsUnsigned := is_unsigned;
  GetTypeId := type_id;
|}.

Definition i32 : Ty := Prim Int32 true.
Definition i8 : Ty := Prim Int8 true.
Definition ptr (t : Ty) : Ty := Pointer t true.
End SpecType.

(** ** Example inputs *)

Module Examples.
Import SpecType.

(** Modelled from the spec: the [GetAddr] overrides are not at hand.  A
    load stands for the object its pointer designates ("handles values that
    were emitted as ref-typed locals"), so its address is its pointer
    operand; no other class has an address. *)
#[global] Instance Example_SSAMethods : SSAMethods Ty := {|
  GetAddr := fun nodes v =>
    match kindOf nodes v with
    | Some LoadSSA => operand nodes v 0
    | _ => None
    end;
  UndefDump := "undef";
|}.

Definition node (k : SSAKind) (operands : list Value) (users : list Value)
    (t : option Ty) : Node Ty :=
  mkNode k (Some <$> operands) users t t.

(** The format flags of a stream that was just created, and those of a
    stream on which [std::left] was written, as [ShowInfo] leaves it. *)
Definition new_stream : Format := mkFormat AdjustNone false false.
Definition left_stream : Format := mkFormat AdjustLeft false false.

Definition fn_ty : Ty := Function [i32; i32; ptr i32; ptr i32] (Prim Void true) false.

(** *** A phi whose only incoming value uses the phi

    [%1 = phi [%3, %10]; %3 = access ptr %1, 1] *)
Definition cyclic_phi : gmap Value (Node Ty) :=
  list_to_map [
    (1, node PhiSSA [2] [3] (Some (ptr i32)));
    (2, node PhiOperandSSA [3; 10] [1] (Some (ptr i32)));
    (3, node (AccessSSA AccPointer) [1; 4] [2] (Some (ptr i32)));
    (4, node (ConstIntSSA 1) [] [3] (Some i32));
    (10, node (BlockSSA (Some 100) "") [] [2] None)
  ].

(** *** A pointer carried unchanged around a loop

    [%1 = phi [arg 2, %11], [%1, %13]; %5 = load %1] *)
Definition carried_phi : gmap Value (Node Ty) :=
  list_to_map [
    (0, node (ArgRefSSA 100 2) [] [2] (Some (ptr i32)));
    (1, node PhiSSA [2; 3] [3; 5] (Some (ptr i32)));
    (2, node PhiOperandSSA [0; 11] [1] (Some (ptr i32)));
    (3, node PhiOperandSSA [1; 13] [1] (Some (ptr i32)));
    (5, node LoadSSA [1] [] (Some i32));
    (11, node (BlockSSA (Some 100) "") [] [2] None);
    (13, node (BlockSSA (Some 100) "") [] [3] None)
  ].

(** *** One loop

<<
    f(x, y, p, q):
    %10:  jump %11
    %11:  jump %12                       ; the pre-header
    %12:  %30 = phi [0, %11], [%46, %13]
          %31 = slt %30, x
          branch %31, %13, %14
    %13:  %40 = mul x, y
          %41 = add %40, y
          %42 = sub x, y                 ; never used
          store %41, p
          %44 = load q
          store %44, @g
          %46 = add %30, 1
          jump %12
    %14:  return void
>> *)
Definition loop1_nodes : gmap Value (Node Ty) :=
  list_to_map [
    (100, node (FunctionSSA Internal "f" [1; 2; 3; 4]) [10; 11; 12; 13; 14] []
               (Some fn_ty));
    (1, node (ArgRefSSA 100 0) [] [31; 40; 42] (Some i32));
    (2, node (ArgRefSSA 100 1) [] [40; 41; 42] (Some i32));
    (3, node (ArgRefSSA 100 2) [] [43] (Some (ptr i32)));
    (4, node (ArgRefSSA 100 3) [] [44] (Some (ptr i32)));
    (5, node (GlobalVarSSA Internal true "g") [] [45] (Some (ptr i32)));
    (10, node (BlockSSA (Some 100) "") [] [100; 11] None);
    (11, node (BlockSSA (Some 100) "") [10] [100; 20; 12; 33] None);
    (12, node (BlockSSA (Some 100) "") [11; 13] [100; 21; 13; 14; 47] None);
    (13, node (BlockSSA (Some 100) "") [12] [100; 32; 12; 34] None);
    (14, node (BlockSSA (Some 100) "") [12] [100; 32] None);
    (20, node JumpSSA [11] [] None);
    (21, node JumpSSA [12] [] None);
    (30, node PhiSSA [33; 34] [31; 46] (Some i32));
    (33, node PhiOperandSSA [50; 11] [30] (Some i32));
    (34, node PhiOperandSSA [46; 13] [30] (Some i32));
    (31, node (BinarySSA SLess) [30; 1] [32] (Some i32));
    (32, node BranchSSA [31; 13; 14] [] None);
    (40, node (BinarySSA Mul) [1; 2] [41] (Some i32));
    (41, node (BinarySSA Add) [40; 2] [43] (Some i32));
    (42, node (BinarySSA Sub) [1; 2] [] (Some i32));
    (43, node StoreSSA [41; 3] [] None);
    (44, node LoadSSA [4] [45] (Some i32));
    (45, node StoreSSA [44; 5] [] None);
    (46, node (BinarySSA Add) [30; 51] [34] (Some i32));
    (47, node JumpSSA [12] [] None);
    (48, mkNode ReturnSSA [None] [] None None);
    (50, node (ConstIntSSA 0) [] [33] (Some i32));
    (51, node (ConstIntSSA 1) [] [46] (Some i32))
  ].

Definition loop1_insts : gmap Value (list Value) :=
  list_to_map [
    (10, [20]); (11, [21]); (12, [30; 31; 32]);
    (13, [40; 41; 42; 43; 44; 45; 46; 47]); (14, [48])
  ].

Definition loop1 : LoopInfo := mkLoop [12; 13] (Some 11).

(** Dominance in a function whose dominator tree is given by the list of
    (dominator, dominated) pairs. *)
Definition dom_of (pairs : list (Value * Value)) (a b : Value) : bool :=
  bool_decide (a = b) || bool_decide ((a, b) ∈ pairs).

Definition loop1_dom : Value -> Value -> bool :=
  dom_of [(10, 11); (10, 12); (10, 13); (10, 14); (11, 12); (11, 13); (11, 14);
          (12, 13); (12, 14)].

Definition loop1_parent : Value -> option Value :=
  fun v => ParentScanner loop1_nodes loop1_insts 100 !! v.

(** [loop1_insts] after the loop has been processed once, and the parent
    scanner built from it. *)
Definition loop1_hoisted : gmap Value (list Value) :=
  list_to_map [(10, [20]); (11, [40; 41; 21]); (12, [30; 31; 32]);
               (13, [42; 43; 44; 45; 46; 47]); (14, [48])].

Definition loop1_parent_again : Value -> option Value :=
  fun v => ParentScanner loop1_nodes loop1_hoisted 100 !! v.

(** *** A pointer that a loop advances in two steps

<<
    f(p):
    %11:  jump %12                       ; the pre-header
    %12:  %1 = phi [p, %11], [%4, %12]
          %5 = load %1
          %3 = access ptr %1, 1
          %4 = access ptr %3, 1
          branch %5, %12, %14
    %14:  return
>>
    The value [%4] that comes round the loop is not a user of the phi. *)
Definition walk_nodes : gmap Value (Node Ty) :=
  list_to_map [
    (0, node (ArgRefSSA 100 0) [] [2] (Some (ptr i32)));
    (1, node PhiSSA [2; 6] [5; 3] (Some (ptr i32)));
    (2, node PhiOperandSSA [0; 11] [1] (Some (ptr i32)));
    (6, node PhiOperandSSA [4; 12] [1] (Some (ptr i32)));
    (5, node LoadSSA [1] [32] (Some i32));
    (3, node (AccessSSA AccPointer) [1; 7] [4] (Some (ptr i32)));
    (4, node (AccessSSA AccPointer) [3; 7] [6] (Some (ptr i32)));
    (7, node (ConstIntSSA 1) [] [3; 4] (Some i32));
    (21, node JumpSSA [12] [] None);
    (32, node BranchSSA [5; 12; 14] [] None);
    (48, mkNode ReturnSSA [None] [] None None);
    (11, node (BlockSSA (Some 100) "") [] [100] None);
    (12, node (BlockSSA (Some 100) "") [11; 12] [100; 21; 32; 6] None);
    (14, node (BlockSSA (Some 100) "") [12] [100; 32] None);
    (100, node (FunctionSSA Internal "f" []) [11; 12; 14] []
               (Some (Function [ptr i32] (Prim Void true) false)))
  ].

Definition walk_insts : gmap Value (list Value) :=
  list_to_map [(11, [21]); (12, [1; 5; 3; 4; 32]); (14, [48])].

Definition walk_loop : LoopInfo := mkLoop [12] (Some 11).

Definition walk_dom : Value -> Value -> bool :=
  dom_of [(11, 12); (11, 14); (12, 14)].

Definition walk_parent : Value -> option Value :=
  fun v => ParentScanner walk_nodes walk_insts 100 !! v.

(** *** A loop whose body set iterates in another order than the program

<<
      f(x, y):
      %10:  jump %11
      %11:  jump %12                       ; the pre-header
      %12:  %35 = add x, y
            branch x, %13, %14
      %13:  %40 = add %35, y
            %41 = mul x, y
            store %40, @g
            store %41, @g
            jump %12
      %14:  return void
>>
    The body set lists [%13] before [%12]. *)
Definition order_nodes : gmap Value (Node Ty) :=
  list_to_map [
    (100, node (FunctionSSA Internal "f" [1; 2]) [10; 11; 12; 13; 14] []
               (Some (Function [i32; i32] (Prim Void true) false)));
    (1, node (ArgRefSSA 100 0) [] [35; 22; 41] (Some i32));
    (2, node (ArgRefSSA 100 1) [] [35; 40; 41] (Some i32));
    (5, node (GlobalVarSSA Internal true "g") [] [42; 43] (Some (ptr i32)));
    (10, node (BlockSSA (Some 100) "") [] [100; 11] None);
    (11, node (BlockSSA (Some 100) "") [10] [100; 20; 12] None);
    (12, node (BlockSSA (Some 100) "") [11; 13] [100; 21; 13; 14; 23] None);
    (13, node (BlockSSA (Some 100) "") [12] [100; 22; 12] None);
    (14, node (BlockSSA (Some 100) "") [12] [100; 22] None);
    (20, node JumpSSA [11] [] None);
    (21, node JumpSSA [12] [] None);
    (22, node BranchSSA [1; 13; 14] [] None);
    (23, node JumpSSA [12] [] None);
    (24, mkNode ReturnSSA [None] [] None None);
    (35, node (BinarySSA Add) [1; 2] [40] (Some i32));
    (40, node (BinarySSA Add) [35; 2] [42] (Some i32));
    (41, node (BinarySSA Mul) [1; 2] [43] (Some i32));
    (42, node StoreSSA [40; 5] [] None);
    (43, node StoreSSA [41; 5] [] None)
  ].

Definition order_insts : gmap Value (list Value) :=
  list_to_map [
    (10, [20]); (11, [21]); (12, [35; 22]); (13, [40; 41; 42; 43; 23]); (14, [24])
  ].

Definition order_loop : LoopInfo := mkLoop [13; 12] (Some 11).

Definition order_parent : Value -> option Value :=
  fun v => ParentScanner order_nodes order_insts 100 !! v.

(** *** Two nested loops

<<
    g(x, y):
    %10:  jump %11
    %11:  jump %12                       ; pre-header of the outer loop
    %12:  branch x, %13, %17             ; header of the outer loop
    %13:  jump %14                       ; pre-header of the inner loop
    %14:  branch y, %15, %16             ; header of the inner loop
    %15:  %40 = add x, y
          store %40, @g
          jump %14
    %16:  jump %12
    %17:  return void
>>
    The loops are listed innermost first. *)
Definition nest_nodes : gmap Value (Node Ty) :=
  list_to_map [
    (100, node (FunctionSSA Internal "g" [1; 2]) [10; 11; 12; 13; 14; 15; 16; 17] []
               (Some (Function [i32; i32] (Prim Void true) false)));
    (1, node (ArgRefSSA 100 0) [] [22; 40] (Some i32));
    (2, node (ArgRefSSA 100 1) [] [24; 40] (Some i32));
    (5, node (GlobalVarSSA Internal true "g") [] [41] (Some (ptr i32)));
    (10, node (BlockSSA (Some 100) "") [] [100; 11] None);
    (11, node (BlockSSA (Some 100) "") [10] [100; 20; 12] None);
    (12, node (BlockSSA (Some 100) "") [11; 16] [100; 21; 13; 17; 26] None);
    (13, node (BlockSSA (Some 100) "") [12] [100; 22; 14] None);
    (14, node (BlockSSA (Some 100) "") [13; 15] [100; 23; 15; 16; 25] None);
    (15, node (BlockSSA (Some 100) "") [14] [100; 24; 14] None);
    (16, node (BlockSSA (Some 100) "") [14] [100; 24; 12] None);
    (17, node (BlockSSA (Some 100) "") [12] [100; 22] None);
    (20, node JumpSSA [11] [] None);
    (21, node JumpSSA [12] [] None);
    (22, node BranchSSA [1; 13; 17] [] None);
    (23, node JumpSSA [14] [] None);
    (24, node BranchSSA [2; 15; 16] [] None);
    (25, node JumpSSA [14] [] None);
    (26, node JumpSSA [12] [] None);
    (27, mkNode ReturnSSA [None] [] None None);
    (40, node (BinarySSA Add) [1; 2] [41] (Some i32));
    (41, node StoreSSA [40; 5] [] None)
  ].

Definition nest_insts : gmap Value (list Value) :=
  list_to_map [
    (10, [20]); (11, [21]); (12, [22]); (13, [23]); (14, [24]);
    (15, [40; 41; 25]); (16, [26]); (17, [27])
  ].

Definition nest_loops : list LoopInfo :=
  [mkLoop [14; 15] (Some 13); mkLoop [12; 13; 14; 15; 16] (Some 11)].

Definition nest_dom : Value -> Value -> bool :=
  dom_of [(10, 11); (10, 12); (10, 13); (10, 14); (10, 15); (10, 16); (10, 17);
          (11, 12); (11, 13); (11, 14); (11, 15); (11, 16); (11, 17);
          (12, 13); (12, 14); (12, 15); (12, 16); (12, 17);
          (13, 14); (13, 15); (13, 16); (14, 15); (14, 16)].

(** *** Two passes over a counter

    The world is a counter; [countdown] is a function pass that decrements
    it and reports a change until it is zero, [idle] a module pass that
    never changes anything. *)
Definition countdown : PassBase nat :=
  mkPass false true false (fun w => (w, false)) (fun w => (w, false))
         (fun _ w => match w with 0 => (0, false) | S w' => (w', true) end)
         (fun _ w => (w, false)).

Definition idle : PassBase nat :=
  mkPass true false false (fun w => (w, false)) (fun w => (w, false))
         (fun _ w => (w, false)) (fun _ w => (w, false)).

(** *** Passes that write down their calls

    The world is a counter and the list of the calls made so far.  The
    module pass [log_module] and the block pass [log_block] change nothing;
    the function pass [log_function] decrements the counter and reports a
    change until it is zero.  The functions are [%1], with the blocks [%10]
    and [%11], and [%2], with the block [%20]. *)
Definition Log : Type := nat * list string.

Definition logs (call : string) (w : Log) : Log * bool :=
  ((fst w, snd w ++ [call]), false).

Definition log_module : PassBase Log :=
  mkPass true false false (logs "m:vars") (logs "m:funcs")
         (fun _ w => (w, false)) (fun _ w => (w, false)).

Definition log_function : PassBase Log :=
  mkPass false true false (fun w => (w, false)) (fun w => (w, false))
         (fun func w =>
            match fst w with
            | 0 => ((0, snd w ++ ["f:" +:+ dec func]), false)
            | S c => ((c, snd w ++ ["f:" +:+ dec func]), true)
            end)
         (fun _ w => (w, false)).

Definition log_block : PassBase Log :=
  mkPass false false true (fun w => (w, false)) (fun w => (w, false))
         (fun _ w => (w, false)) (fun blk => logs ("b:" +:+ dec blk)).

Definition four_passes : list (PassInfo Log) :=
  [mkPassInfo "m" 0 log_module; mkPassInfo "f" 1 log_function;
   mkPassInfo "off" 3 log_module; mkPassInfo "b" 2 log_block].

Definition two_funcs : Log -> list Value := fun _ => [1; 2].
Definition their_blocks : Log -> Value -> list Value :=
  fun _ func => match func with 1 => [10; 11] | 2 => [20] | _ => [] end.

(** *** A module with a global constructor

    Two globals [a] and [b] whose initializers were lowered into
    [_$ctor]: [a = b; b = a + 7].  The state is the one [EnterGlobalCtor]
    and the builder leave behind: [entry] holds the initializers, [exit]
    the pre-inserted [return], and the constructor is not sealed yet. *)
Definition ctor_nodes : gmap Value (Node Ty) :=
  list_to_map [
    (1, mkNode (GlobalVarSSA Internal true "a") [None] [9] (Some (ptr i32))
               (Some (ptr i32)));
    (2, mkNode (GlobalVarSSA Internal true "b") [None] [8; 12] (Some (ptr i32))
               (Some (ptr i32)));
    (3, node (FunctionSSA GlobalCtor "_$ctor" []) [4; 5] []
             (Some (Function [] (Prim Void true) true)));
    (4, node (BlockSSA (Some 3) "entry") [] [3] None);
    (5, node (BlockSSA (Some 3) "exit") [] [3] None);
    (6, mkNode ReturnSSA [None] [] None None);
    (8, node LoadSSA [2] [9; 11] (Some i32));
    (9, node StoreSSA [8; 1] [] None);
    (10, node (ConstIntSSA 7) [] [11] (Some i32));
    (11, node (BinarySSA Add) [8; 10] [12] (Some i32));
    (12, node StoreSSA [11; 2] [] None)
  ].

Definition ctor_module : Module Ty :=
  {| m_nodes := ctor_nodes;
     m_insts := list_to_map [(4, [8; 9; 11; 12]); (5, [6])];
     m_next := 13;
     vars_ := [1; 2];
     funcs_ := [3];
     insert_point_ := None;
     global_ctor_ := Some 3;
     ctor_entry_ := Some 4;
     ctor_exit_ := Some 5;
     is_ctor_sealed_ := false |}.

(** *** A block under construction

    [%1 = alloca i32*], [%7 = alloca i8*], [%8 = load %7] and the
    constant [65] of type [i8]; the insert point is block [%4]. *)
Definition store_module : Module Ty :=
  {| m_nodes := list_to_map [
       (1, node AllocaSSA [] [] (Some (ptr i32)));
       (2, node (ConstIntSSA 65) [] [] (Some i8));
       (3, node (FunctionSSA Internal "h" []) [4] []
                (Some (Function [] (Prim Void true) false)));
       (4, node (BlockSSA (Some 3) "") [] [3] None);
       (7, node AllocaSSA [] [8] (Some (ptr i8)));
       (8, node LoadSSA [7] [] (Some i8))
     ];
     m_insts := list_to_map [(4, [1; 7; 8])];
     m_next := 9;
     vars_ := [];
     funcs_ := [3];
     insert_point_ := Some 4;
     global_ctor_ := None;
     ctor_entry_ := None;
     ctor_exit_ := None;
     is_ctor_sealed_ := false |}.

(** Lines of text, each followed by a newline. *)
Definition unlines (l : list string) : string :=
  foldr (fun line rest => line +:+ endl +:+ rest) "" l.

(** The dump of [ctor_module]. *)
Definition ctor_text : string :=
  unlines [
    "@a = internal global var i32*";
    "";
    "@b = internal global var i32*";
    "";
    "define global_ctor void() @_$ctor {";
    "@entry:";
    "  %0 = load i32, i32* @b";
    "  store i32 %0, i32* @a";
    "  %1 = add i32 %0, constant i32 7";
    "  store i32 %1, i32* @b";
    "  jump @exit";
    "@exit: ; preds: @entry";
    "  return void";
    "}";
    ""
  ].
(** *** A loop that holds an alloca

<<
    k():
    %10:  jump %11
    %11:  jump %12                       ; the pre-header
    %12:  %30 = alloca i32
          jump %12
>> *)
Definition alloca_nodes : gmap Value (Node Ty) :=
  list_to_map [
    (100, node (FunctionSSA Internal "k" []) [10; 11; 12] []
               (Some (Function [] (Prim Void true) false)));
    (10, node (BlockSSA (Some 100) "") [] [100; 11] None);
    (11, node (BlockSSA (Some 100) "") [10] [100; 20; 12] None);
    (12, node (BlockSSA (Some 100) "") [11; 12] [100; 21; 12; 31] None);
    (20, node JumpSSA [11] [] None);
    (21, node JumpSSA [12] [] None);
    (30, node AllocaSSA [] [] (Some (ptr i32)));
    (31, node JumpSSA [12] [] None)
  ].

Definition alloca_insts : gmap Value (list Value) :=
  list_to_map [(10, [20]); (11, [21]); (12, [30; 31])].

Definition alloca_loop : LoopInfo := mkLoop [12] (Some 11).

Definition alloca_parent : Value -> option Value :=
  fun v => ParentScanner alloca_nodes alloca_insts 100 !! v.

(** *** A pointer computed from an alloca

    [%1 = alloca i32*; %2 = access ptr %1, 1; %3 = cast i8* %2] *)
Definition chain_nodes : gmap Value (Node Ty) :=
  list_to_map [
    (1, node AllocaSSA [] [2] (Some (ptr i32)));
    (2, node (AccessSSA AccPointer) [1; 4] [3] (Some (ptr i32)));
    (3, node CastSSA [2] [] (Some (ptr i8)));
    (4, node (ConstIntSSA 1) [] [2] (Some i32))
  ].

(** *** A string constant

    The characters [a], tab, [b], a double quote and the byte 1, of type
    [i8*]. *)
Definition str_text : string :=
  String "a" (String (ascii_of_nat 9) (String "b" (String (ascii_of_nat 34)
    (String (ascii_of_nat 1) "")))).

Definition str_nodes : gmap Value (Node Ty) :=
  list_to_map [(1, node (ConstStrSSA str_text) [] [] (Some (ptr i8)))].

(** *** Seven registered passes, six of them enabled at level 2 *)
Definition seven_passes : list (PassInfo nat) :=
  [mkPassInfo "dom_info" 0 idle; mkPassInfo "loop_info" 0 idle;
   mkPassInfo "licm" 2 countdown; mkPassInfo "dead_code_elim" 1 countdown;
   mkPassInfo "inline" 3 countdown; mkPassInfo "a_pass_with_a_long_name" 1 idle;
   mkPassInfo "gvn" 2 idle].

(** Modelled from the spec: [define/type.cpp] is not at hand.  "Predicates:
    ... [is_function] ..., [args]/[return] (for function)", "constructor
    helpers ([make_func], [make_void])": only a function type has arguments
    and a return type, and they are the ones it was made of. *)
#[global] Instance Ty_FuncTypeMethods : FuncTypeMethods Ty := {|
  IsFunction := fun t => match t with Function _ _ _ => true | _ => false end;
  IsVoid := fun t => match t with Prim Void _ => true | _ => false end;
  GetArgsType := fun t => match t with Function ps _ _ => Some ps | _ => None end;
  GetReturnType := fun t _ => match t with Function _ r _ => Some r | _ => None end;
  MakeVoid := Prim Void true;
  FuncType := Function;
|}.

(** *** A call with one argument to convert

    [@callee] takes an [i32] and an [i8] and returns an [i32];
    [%5 = alloca i32*], [%6 = load %5]; the insert point is block [%4]. *)
Definition call_module : Module Ty :=
  {| m_nodes := list_to_map [
       (1, node (FunctionSSA External "callee" []) [] []
                (Some (Function [i32; i8] i32 false)));
       (3, node (FunctionSSA Internal "h" []) [4] []
                (Some (Function [] (Prim Void true) false)));
       (4, node (BlockSSA (Some 3) "") [] [3] None);
       (5, node AllocaSSA [] [6] (Some (ptr i32)));
       (6, node LoadSSA [5] [] (Some i32))
     ];
     m_insts := list_to_map [(4, [5; 6])];
     m_next := 7;
     vars_ := [];
     funcs_ := [1; 3];
     insert_point_ := Some 4;
     global_ctor_ := None;
     ctor_entry_ := None;
     ctor_exit_ := None;
     is_ctor_sealed_ := false |}.

(** [call_module] after [call @callee(%6, %6)]:
    [%7 = cast i8 %6], [%8 = call @callee(%6, %7)]. *)
Definition call_module_after : Module Ty :=
  {| m_nodes := list_to_map [
       (1, node (FunctionSSA External "callee" []) [] [8]
                (Some (Function [i32; i8] i32 false)));
       (3, node (FunctionSSA Internal "h" []) [4] []
                (Some (Function [] (Prim Void true) false)));
       (4, node (BlockSSA (Some 3) "") [] [3] None);
       (5, node AllocaSSA [] [6] (Some (ptr i32)));
       (6, node LoadSSA [5] [7; 8] (Some i32));
       (7, node CastSSA [6] [8] (Some i8));
       (8, node CallSSA [1; 6; 7] [] (Some i32))
     ];
     m_insts := list_to_map [(4, [5; 6; 7; 8])];
     m_next := 9;
     vars_ := [];
     funcs_ := [1; 3];
     insert_point_ := Some 4;
     global_ctor_ := None;
     ctor_entry_ := None;
     ctor_exit_ := None;
     is_ctor_sealed_ := false |}.

End Examples.

(** * Properties *)

(** ** Reasoning about [Res] *)

Lemma bind_Done {A B : Type} (m : Res A) (f : A -> Res B) (b : B) :
  m ≫= f = Done b <-> exists a, m = Done a /\ f a = Done b.
Proof.
  destruct m as [a| |]; simpl; split.
  - intros Hf. exists a. auto.
  - intros (a' & Ha & Hf). injection Ha as ->. exact Hf.
  - discriminate.
  - intros (a' & Ha & _). discriminate.
  - discriminate.
  - intros (a' & Ha & _). discriminate.
Qed.

Lemma bind_NoFuel {A B : Type} (m : Res A) (f : A -> Res B) :
  m ≫= f = NoFuel <-> m = NoFuel \/ exists a, m = Done a /\ f a = NoFuel.
Proof.
  destruct m as [a| |]; simpl; split; try discriminate; eauto.
  - intros [H | (a' & Ha & Hf)]; [discriminate | congruence].
  - intros [H | (a' & Ha & _)]; discriminate.
Qed.

Lemma deref_Done {A : Type} (o : option A) (a : A) : deref o = Done a <-> o = Some a.
Proof. destruct o; simpl; split; congruence. Qed.

Lemma deref_not_NoFuel {A : Type} (o : option A) : deref o <> NoFuel.
Proof. destruct o; discriminate. Qed.

(** Invariants carried through [forM]. *)
Lemma forM_ind {A S : Type} (P : S -> Prop) (f : S -> A -> Res S) (l : list A) :
  (forall s x s', x ∈ l -> P s -> f s x = Done s' -> P s') ->
  forall s s', P s -> forM f l s = Done s' -> P s'.
Proof.
  induction l as [|x l IH]; intros Hf s s' Hs Hrun; simpl in Hrun.
  - congruence.
  - apply bind_Done in Hrun as (s1 & H1 & H2).
    eapply IH; [| |exact H2].
    + intros; eapply Hf; eauto. by right.
    + eapply Hf; eauto. by left.
Qed.

Lemma forM_NoFuel {A S : Type} (P : S -> Prop) (f : S -> A -> Res S) (l : list A) :
  (forall s x s', x ∈ l -> P s -> f s x = Done s' -> P s') ->
  (forall s x, x ∈ l -> P s -> f s x <> NoFuel) ->
  forall s, P s -> forM f l s <> NoFuel.
Proof.
  induction l as [|x l IH]; intros Hf Hn s Hs; simpl.
  - discriminate.
  - intros Hrun. apply bind_NoFuel in Hrun as [H | (s1 & H1 & H2)].
    + eapply Hn; eauto. by left.
    + revert H2. apply IH.
      * intros; eapply Hf; eauto. by right.
      * intros; eapply Hn; eauto. by right.
      * eapply Hf; eauto. by left.
Qed.

Lemma forM_app {A S : Type} (f : S -> A -> Res S) (l1 l2 : list A) (s : S) :
  forM f (l1 ++ l2) s = forM f l1 s ≫= forM f l2.
Proof.
  revert s. induction l1 as [|x l1 IH]; intros s; simpl; [done|].
  destruct (f s x); simpl; auto.
Qed.

(** ** LICM: non-termination of [GetBasePointer] *)

Section GetBasePointer_facts.
Context {Ty : Type} `{!BaseType Ty}.
Variable nodes : gmap Value (Node Ty).

(** A pointer that the loop body maps to itself is never left. *)
Lemma GetBasePointer_stuck (ptr : Value) :
  GetBasePointer_step nodes ptr = Done (inl (Some ptr)) ->
  forall fuel, GetBasePointer nodes fuel (Some ptr) = NoFuel.
Proof.
  intros Hstep fuel. induction fuel as [|fuel IH]; simpl; [done|].
  rewrite Hstep. simpl. exact IH.
Qed.

(** Pointers among which the loop body goes round are never left. *)
Lemma GetBasePointer_cycle (P : Value -> Prop) :
  (forall p, P p ->
             exists q, GetBasePointer_step nodes p = Done (inl (Some q)) /\ P q) ->
  forall fuel p, P p -> GetBasePointer nodes fuel (Some p) = NoFuel.
Proof.
  intros Hstep fuel. induction fuel as [|fuel IH]; intros p Hp; simpl; [done|].
  destruct (Hstep p Hp) as (q & -> & Hq). simpl. by apply IH.
Qed.

(** The phi case keeps [ptr] when every incoming value is a user of the
    phi. *)
Lemma phi_operands_all_users (ptr : Value) (n : Node Ty) :
  nodes !! ptr = Some n ->
  kind n = PhiSSA ->
  Forall (fun o => exists opr val,
              o = Some opr /\ kindOf nodes opr = Some PhiOperandSSA
              /\ operand nodes opr 0 = Some val /\ val ∈ uses n) (oprs n) ->
  GetBasePointer_step nodes ptr = Done (inl (Some ptr)).
Proof.
  intros Hn Hk Hall. unfold GetBasePointer_step. rewrite Hn. simpl. rewrite Hk.
  assert (forall cur, forM (fun (cur : option Value) (i : option Value) =>
              v ← deref i;
              opr ← SSACast_PhiOperand nodes v;
              match operand nodes opr 0 with
              | Some val =>
                  if decide (val ∈ (list_to_set (uses n) : gset Value))
                  then Done cur else Done (Some val)
              | None => Done None
              end) (oprs n) cur = Done cur) as ->; [|done].
  induction Hall as [|o l (opr & val & -> & Hopr & Hval & Hin) _ IH]; intros cur.
  - done.
  - simpl. unfold SSACast_PhiOperand. rewrite Hopr. simpl. rewrite Hval.
    rewrite decide_True by (by apply elem_of_list_to_set). apply IH.
Qed.
End GetBasePointer_facts.

(** ** LICM: the marking loop *)

Section Marking_facts.
Context {Ty : Type} `{!BaseType Ty}.
Variable nodes : gmap Value (Node Ty).
Variable GetParent : Value -> option Value.
Variable IsDominate : Value -> Value -> bool.
Variable cur_loop_ : LoopInfo.
Variable gfuel : nat.
Variable stored_ptrs_ : gset Value.
Variable insts : gmap Value (list Value).

Local Abbreviation RunPass' := (RunPass nodes GetParent IsDominate cur_loop_ gfuel stored_ptrs_).
Local Abbreviation sweep' := (sweep nodes GetParent IsDominate cur_loop_ gfuel stored_ptrs_ insts).
Local Abbreviation mark_loop' :=
  (mark_loop nodes GetParent IsDominate cur_loop_ gfuel stored_ptrs_ insts).
Local Abbreviation grows' :=
  (grows nodes GetParent IsDominate cur_loop_ gfuel stored_ptrs_ insts).
Local Abbreviation mark_one' := (mark_one nodes).
Local Abbreviation L := (list_to_set (loop_insts cur_loop_ insts) : gset Value).

Lemma all_operands_invariant_not_NoFuel marked l :
  all_operands_invariant nodes GetParent cur_loop_ marked l <> NoFuel.
Proof.
  induction l as [|[v|] l IH]; simpl; try discriminate.
  destruct (IsInvariant _ _ _ _ _); [exact IH | discriminate].
Qed.

Lemma LogInvariant_cases block s i s' :
  LogInvariant nodes GetParent IsDominate cur_loop_ block s i = Done s' ->
  s' = s \/ s' = mark_one' s i.
Proof.
  unfold LogInvariant. intros Hrun.
  apply bind_Done in Hrun as (n & Hn%deref_Done & Hrun).
  apply bind_Done in Hrun as (ok & _ & Hrun).
  destruct (negb ok); [left; congruence|].
  destruct (negb _); [left; congruence|].
  right. injection Hrun as <-. unfold mark_one, usersOf. by rewrite Hn.
Qed.

Lemma LogInvariant_not_NoFuel block s i :
  LogInvariant nodes GetParent IsDominate cur_loop_ block s i <> NoFuel.
Proof.
  unfold LogInvariant. intros Hrun.
  apply bind_NoFuel in Hrun as [Hrun | (n & _ & Hrun)];
    [by apply deref_not_NoFuel in Hrun|].
  apply bind_NoFuel in Hrun as [Hrun | (ok & _ & Hrun)];
    [by apply all_operands_invariant_not_NoFuel in Hrun|].
  destruct (negb ok); [discriminate|]. destruct (negb _); discriminate.
Qed.

Lemma RunPass_cases block s i s' :
  RunPass' block s i = Done s' -> s' = s \/ s' = mark_one' s i.
Proof.
  unfold RunPass. intros Hrun.
  apply bind_Done in Hrun as (k & _ & Hrun).
  destruct k; try (left; congruence); try discriminate;
    try (by eapply LogInvariant_cases).
  apply bind_Done in Hrun as (b & _ & Hrun).
  destruct (decide _); [left; congruence | by eapply LogInvariant_cases].
Qed.

(** A load whose base pointer is in the store set is left alone. *)
Lemma RunPass_stored_load block s i b :
  kindOf nodes i = Some LoadSSA ->
  GetBasePointer nodes gfuel (operand nodes i 0) = Done b ->
  b ∈ stored_ptrs_ ->
  RunPass' block s i = Done s.
Proof.
  intros Hk Hb Hin. unfold RunPass. rewrite Hk. simpl. rewrite Hb. simpl.
  by rewrite decide_True.
Qed.

Lemma RunPass_load_inv block s i s' :
  kindOf nodes i = Some LoadSSA ->
  RunPass' block s i = Done s' ->
  exists b, GetBasePointer nodes gfuel (operand nodes i 0) = Done b
            /\ (b ∈ stored_ptrs_ -> s' = s).
Proof.
  intros Hk. unfold RunPass. rewrite Hk. simpl. intros Hrun.
  apply bind_Done in Hrun as (b & Hb & Hrun). exists b. split; [done|].
  intros Hin. rewrite decide_True in Hrun by done. congruence.
Qed.

Lemma grows_trans s1 s2 s3 : grows' s1 s2 -> grows' s2 s3 -> grows' s1 s3.
Proof.
  intros H12 H23. induction H23 as [|s3 block i H23 IH Hb Hi Hni Hrun]; [done|].
  eapply grows_step; eauto.
Qed.

Lemma sweep_block_grows s s' block :
  block ∈ body cur_loop_ ->
  sweep_block nodes GetParent IsDominate cur_loop_ gfuel stored_ptrs_ insts s block
    = Done s' ->
  grows' s s'.
Proof.
  intros Hb. unfold sweep_block.
  apply (forM_ind (fun s1 => grows' s s1)); [|constructor].
  intros s1 i s2 Hi Hg Hrun.
  destruct (decide (i ∈ marked_invs_ s1)) as [|Hni]; [congruence|].
  destruct (RunPass_cases _ _ _ _ Hrun) as [-> | ->]; [done|].
  eapply grows_step; eauto.
Qed.

Lemma sweep_grows s s' : sweep' s = Done s' -> grows' s s'.
Proof.
  unfold sweep. apply (forM_ind (fun s1 => grows' s s1)); [|constructor].
  intros s1 block s2 Hb Hg Hrun. eapply grows_trans; [exact Hg|].
  by eapply sweep_block_grows.
Qed.

Lemma mark_loop_grows fuel last s s' :
  mark_loop' fuel last s = Done s' -> grows' s s'.
Proof.
  revert last s. induction fuel as [|fuel IH]; intros last s; simpl.
  - destruct (decide _); [|discriminate]. intros [= <-]. constructor.
  - destruct (decide _); [intros [= <-]; constructor|].
    intros Hrun. apply bind_Done in Hrun as (s1 & Hs1 & Hrun).
    eapply grows_trans; [by eapply sweep_grows | by eapply IH].
Qed.

(** *** What marking preserves *)

Lemma grows_mono s s' : grows' s s' -> marked_invs_ s ⊆ marked_invs_ s'.
Proof. induction 1; simpl; set_solver. Qed.

Lemma grows_bounded s s' : grows' s s' -> marked_invs_ s' ⊆ marked_invs_ s ∪ L.
Proof.
  induction 1 as [|s1 block i Hg IH Hb Hi Hni Hrun]; simpl; [set_solver|].
  assert (i ∈ L).
  { apply elem_of_list_to_set. unfold loop_insts. apply list_elem_of_bind. eauto. }
  set_solver.
Qed.

Lemma grows_size s s' :
  grows' s s' -> s' = s \/ size (marked_invs_ s) < size (marked_invs_ s').
Proof.
  induction 1 as [|s1 block i Hg IH Hb Hi Hni Hrun]; [by left|]. right.
  assert (size (marked_invs_ (mark_one' s1 i)) = S (size (marked_invs_ s1))) as ->.
  { simpl. rewrite size_union by set_solver. by rewrite size_singleton. }
  destruct IH as [-> | IH]; lia.
Qed.

Lemma grows_invs_ok s s' : grows' s s' -> invs_ok nodes s -> invs_ok nodes s'.
Proof.
  induction 1 as [|s1 block i Hg IH Hb Hi Hni Hrun]; [done|].
  intros Hok. destruct (IH Hok) as [Hnd Hiff]. unfold invs_ok, mark_one. simpl.
  destruct (usersOf nodes i) as [|u us] eqn:Hu.
  - split; [done|]. intros j. rewrite Hiff. split.
    + intros [? ?]. split; [set_solver | done].
    + intros [[->%elem_of_singleton | ?]%elem_of_union ?]; [congruence | done].
  - split.
    + apply NoDup_app. split_and!; [done| |apply NoDup_singleton].
      intros j Hj ->%list_elem_of_singleton. apply Hiff in Hj. tauto.
    + intros j. rewrite elem_of_app, list_elem_of_singleton, Hiff. split.
      * intros [[? ?] | ->]; [split; [set_solver | done]|].
        split; [set_solver | congruence].
      * intros [[->%elem_of_singleton | ?]%elem_of_union ?]; [by right | by left].
Qed.

(** *** Termination *)

Hypothesis base_pointers_return : forall block i,
  block ∈ body cur_loop_ -> i ∈ instsOf insts block ->
  kindOf nodes i = Some LoadSSA ->
  GetBasePointer nodes gfuel (operand nodes i 0) <> NoFuel.

Lemma RunPass_not_NoFuel block s i :
  block ∈ body cur_loop_ -> i ∈ instsOf insts block ->
  RunPass' block s i <> NoFuel.
Proof.
  intros Hb Hi. unfold RunPass. intros Hrun.
  apply bind_NoFuel in Hrun as [Hrun | (k & Hk%deref_Done & Hrun)];
    [by apply deref_not_NoFuel in Hrun|].
  destruct k; try discriminate; try (by apply LogInvariant_not_NoFuel in Hrun).
  apply bind_NoFuel in Hrun as [Hrun | (b & _ & Hrun)].
  - by eapply base_pointers_return.
  - destruct (decide _); [discriminate | by apply LogInvariant_not_NoFuel in Hrun].
Qed.

Lemma sweep_not_NoFuel s : sweep' s <> NoFuel.
Proof.
  unfold sweep. apply (forM_NoFuel (fun _ => True)); [done| |done].
  intros s1 block Hb _. unfold sweep_block.
  apply (forM_NoFuel (fun _ => True)); [done| |done].
  intros s2 i Hi _. destruct (decide _); [discriminate|].
  by apply RunPass_not_NoFuel.
Qed.

Lemma mark_loop_terminates fuel last s :
  marked_invs_ s ⊆ L ->
  size (marked_invs_ s) = last \/ size L - size (marked_invs_ s) < fuel ->
  mark_loop' fuel last s <> NoFuel.
Proof.
  revert last s. induction fuel as [|fuel IH]; intros last s Hsub Hm; simpl.
  - destruct (decide _); [discriminate | lia].
  - destruct (decide _) as [|Hne]; [discriminate|].
    intros Hrun. apply bind_NoFuel in Hrun as [Hrun | (s1 & Hs1 & Hrun)];
      [by apply sweep_not_NoFuel in Hrun|].
    revert Hrun. apply sweep_grows in Hs1 as Hg. apply IH.
    + pose proof (grows_bounded _ _ Hg). set_solver.
    + destruct (grows_size _ _ Hg) as [-> | Hlt]; [by left|]. right.
      assert (size (marked_invs_ s1) <= size L).
      { apply subseteq_size. pose proof (grows_bounded _ _ Hg). set_solver. }
      lia.
Qed.

(** The loop is left only after a sweep that marked nothing. *)
Lemma mark_loop_stable fuel last s s' :
  (size (marked_invs_ s) = last -> sweep' s = Done s) ->
  mark_loop' fuel last s = Done s' -> sweep' s' = Done s'.
Proof.
  revert last s. induction fuel as [|fuel IH]; intros last s Hfix; simpl.
  - destruct (decide _); [|discriminate]. intros [= <-]. auto.
  - destruct (decide _); [intros [= <-]; auto|].
    intros Hrun. apply bind_Done in Hrun as (s1 & Hs1 & Hrun).
    revert Hrun. apply IH. intros Heq.
    destruct (grows_size _ _ (sweep_grows _ _ Hs1)) as [-> | Hlt]; [done | lia].
Qed.

Lemma mark_loop_fuel_irrelevant fuel fuel' last s :
  mark_loop' fuel last s <> NoFuel -> fuel <= fuel' ->
  mark_loop' fuel' last s = mark_loop' fuel last s.
Proof.
  revert fuel' last s. induction fuel as [|fuel IH]; intros fuel' last s; simpl.
  - destruct (decide _) as [Heq|]; [|done]. intros _ _.
    destruct fuel'; simpl; by rewrite decide_True.
  - destruct (decide _) as [Heq|Hne].
    + intros _ _. destruct fuel'; simpl; by rewrite decide_True.
    + intros Hrun Hle. destruct fuel' as [|fuel']; [lia|]. simpl.
      rewrite decide_False by done.
      destruct (sweep' s) as [s1| |]; simpl in *; try done.
      apply IH; [done | lia].
Qed.
End Marking_facts.

Lemma size_list_to_set_le (l : list Value) :
  size (list_to_set l : gset Value) <= length l.
Proof.
  induction l as [|x l IH]; [by rewrite list_to_set_nil, size_empty|].
  rewrite list_to_set_cons, size_union_alt, size_singleton. simpl.
  assert (size (list_to_set l ∖ {[x]} : gset Value) <= size (list_to_set l : gset Value))
    by (apply subseteq_size; set_solver).
  lia.
Qed.

(** The marking loop of [ProcessLoop] ends on a loop for whose loads the
    [GetBasePointer] calls return (on others it does not, as
    [marking_never_ends_on_pointer_walk] shows for a loop of [walk_nodes]):
    a sweep only adds marks and marks only loop instructions; as many sweeps as
    there are loop instructions, plus one, are enough (more fuel changes
    nothing); and the marks the loop ends with are left unchanged by a
    further sweep and are at most as many as the loop has instructions. *)
Theorem marking_fixpoint_terminates {Ty : Type} `{!BaseType Ty}
    (nodes : gmap Value (Node Ty)) (GetParent : Value -> option Value)
    (IsDominate : Value -> Value -> bool) (cur_loop_ : LoopInfo) (gfuel : nat)
    (stored_ptrs_ : gset Value) (insts : gmap Value (list Value)) :
  (forall block i,
      block ∈ body cur_loop_ -> i ∈ instsOf insts block ->
      kindOf nodes i = Some LoadSSA ->
      GetBasePointer nodes gfuel (operand nodes i 0) <> NoFuel) ->
  let run := mark_invariants nodes GetParent IsDominate cur_loop_ gfuel
               stored_ptrs_ insts in
  let sweep1 := sweep nodes GetParent IsDominate cur_loop_ gfuel stored_ptrs_ insts in
  let L : gset Value := list_to_set (loop_insts cur_loop_ insts) in
  (forall s s', sweep1 s = Done s' ->
                marked_invs_ s ⊆ marked_invs_ s'
                /\ marked_invs_ s' ⊆ marked_invs_ s ∪ L)
  /\ (forall fuel, size L < fuel ->
                   run fuel <> NoFuel /\ run fuel = run (S (size L)))
  /\ (forall fuel s, run fuel = Done s ->
                     sweep1 s = Done s
                     /\ marked_invs_ s ⊆ L
                     /\ size (marked_invs_ s) <= length (loop_insts cur_loop_ insts)).
Proof.
  intros Hbase run sweep1 L. split_and!.
  - intros s s' Hs. apply sweep_grows in Hs. split.
    + by eapply grows_mono.
    + by eapply grows_bounded.
  - intros fuel Hfuel.
    assert (run (S (size L)) <> NoFuel) as Hok.
    { apply mark_loop_terminates; [done|set_solver|]. right.
      unfold marked_invs_. rewrite size_empty. subst L. lia. }
    split.
    + unfold run, mark_invariants.
      rewrite (mark_loop_fuel_irrelevant _ _ _ _ _ _ _ (S (size L)) fuel); [done..|lia].
    + unfold run, mark_invariants.
      apply mark_loop_fuel_irrelevant; [done|lia].
  - intros fuel s Hrun. unfold run, mark_invariants in Hrun. split_and!.
    + eapply mark_loop_stable; [|exact Hrun]. unfold marked_invs_.
      rewrite size_empty. lia.
    + apply mark_loop_grows in Hrun. apply grows_bounded in Hrun. simpl in Hrun.
      set_solver.
    + apply mark_loop_grows in Hrun. apply grows_bounded in Hrun. simpl in Hrun.
      etrans; [|apply size_list_to_set_le]. apply subseteq_size. set_solver.
Qed.

(** ** LICM: the store set *)

Lemma forM_mono {A S : Type} (R : S -> S -> Prop) `{!PreOrder R}
    (f : S -> A -> Res S) (l : list A) :
  (forall s x s', x ∈ l -> f s x = Done s' -> R s s') ->
  forall s s', forM f l s = Done s' -> R s s'.
Proof.
  intros Hf s s'. apply (forM_ind (R s)); [|reflexivity].
  intros s1 x s2 Hx Hs Hrun. etrans; [exact Hs|]. by eapply Hf.
Qed.

(** Every element of the list is processed at some point of the run. *)
Lemma forM_elem {A S : Type} (R : S -> S -> Prop) `{!PreOrder R}
    (f : S -> A -> Res S) (l : list A) :
  (forall s x s', x ∈ l -> f s x = Done s' -> R s s') ->
  forall s s' x, forM f l s = Done s' -> x ∈ l ->
    exists s1 s2, R s s1 /\ f s1 x = Done s2 /\ R s2 s'.
Proof.
  induction l as [|y l IH]; intros Hf s s' x Hrun Hx; [by apply elem_of_nil in Hx|].
  simpl in Hrun. apply bind_Done in Hrun as (s1 & H1 & H2).
  apply elem_of_cons in Hx as [-> | Hx].
  - exists s, s1. split_and!; [reflexivity | done |].
    eapply forM_mono; [done| |exact H2]. intros; eapply Hf; eauto. by right.
  - destruct (IH (fun s x s' Hin => Hf s x s' (list_elem_of_further _ _ _ Hin))
                 s1 s' x H2 Hx) as (s2 & s3 & H12 & Hfx & H3).
    exists s2, s3. split_and!; [|done..]. etrans; [|exact H12].
    eapply Hf; [|exact H1]. by left.
Qed.

Section Stores_facts.
Context {Ty : Type} `{!BaseType Ty}.
Variable nodes : gmap Value (Node Ty).
Variable cur_loop_ : LoopInfo.
Variable gfuel : nat.

Lemma store_args_spec (args : list Value) (st st' : gset Value) :
  forM (fun (st : gset Value) arg =>
          ty ← deref (typeOf nodes arg);
          Done (if IsPointer ty then {[arg]} ∪ st else st)) args st = Done st' ->
  st ⊆ st'
  /\ forall arg ty, arg ∈ args -> typeOf nodes arg = Some ty ->
                    IsPointer ty = true -> arg ∈ st'.
Proof.
  revert st. induction args as [|a args IH]; intros st Hrun; simpl in Hrun.
  - injection Hrun as <-. split; [done|]. intros ? ? []%elem_of_nil.
  - apply bind_Done in Hrun as (st1 & H1 & H2).
    apply bind_Done in H1 as (ty & Hty%deref_Done & H1). injection H1 as <-.
    destruct (IH _ H2) as [Hsub Hargs]. split.
    + destruct (IsPointer ty); set_solver.
    + intros arg ty' [-> | Hin]%elem_of_cons Hty' Hp; [|by eapply Hargs].
      assert (ty' = ty) as -> by congruence. rewrite Hp in Hsub. set_solver.
Qed.

Lemma ProcessStores_inst_mono block st i st' :
  ProcessStores_inst nodes gfuel block st i = Done st' -> st ⊆ st'.
Proof.
  unfold ProcessStores_inst. intros Hrun.
  apply bind_Done in Hrun as (k & _ & Hrun).
  destruct k; try (by injection Hrun as <-).
  apply bind_Done in Hrun as (ptr & _ & Hrun).
  apply bind_Done in Hrun as (st1 & H1 & Hrun). injection Hrun as <-.
  destruct (IsSSA_ArgRef nodes ptr).
  - apply bind_Done in H1 as (args & _ & H1).
    apply store_args_spec in H1 as [? _]. set_solver.
  - injection H1 as <-. set_solver.
Qed.

Lemma ProcessStores_inst_store block st i st' ptr :
  kindOf nodes i = Some StoreSSA ->
  GetBasePointer nodes gfuel (operand nodes i 1) = Done ptr ->
  ProcessStores_inst nodes gfuel block st i = Done st' ->
  ptr ∈ st'
  /\ (IsSSA_ArgRef nodes ptr = true ->
      exists args, args_of_parent nodes block = Done args
                   /\ forall arg ty, arg ∈ args -> typeOf nodes arg = Some ty ->
                                     IsPointer ty = true -> arg ∈ st').
Proof.
  intros Hk Hptr. unfold ProcessStores_inst. rewrite Hk. simpl. rewrite Hptr. simpl.
  intros Hrun. apply bind_Done in Hrun as (st1 & H1 & Hrun). injection Hrun as <-.
  split; [set_solver|]. intros Harg. rewrite Harg in H1.
  apply bind_Done in H1 as (args & Hargs & H1). exists args. split; [done|].
  apply store_args_spec in H1 as [_ H1]. intros arg ty Hin Hty Hp.
  specialize (H1 arg ty Hin Hty Hp). set_solver.
Qed.

Lemma ProcessStores_store insts stored block i ptr :
  ProcessStores nodes cur_loop_ gfuel insts = Done stored ->
  block ∈ body cur_loop_ -> i ∈ instsOf insts block ->
  kindOf nodes i = Some StoreSSA ->
  GetBasePointer nodes gfuel (operand nodes i 1) = Done ptr ->
  ptr ∈ stored
  /\ (IsSSA_ArgRef nodes ptr = true ->
      exists args, args_of_parent nodes block = Done args
                   /\ forall arg ty, arg ∈ args -> typeOf nodes arg = Some ty ->
                                     IsPointer ty = true -> arg ∈ stored).
Proof.
  unfold ProcessStores. intros Hrun Hb Hi Hk Hptr.
  assert (forall b (st st' : gset Value),
             forM (ProcessStores_inst nodes gfuel b) (instsOf insts b) st = Done st' ->
             st ⊆ st') as Hinner.
  { intros b. apply (forM_mono (⊆)). intros ? ? ? _. apply ProcessStores_inst_mono. }
  destruct (forM_elem (⊆) _ _ (fun s x s' _ => Hinner x s s') _ _ _ Hrun Hb)
    as (st1 & st2 & _ & Hblock & H2).
  destruct (forM_elem (⊆) _ _
              (fun s x s' _ => ProcessStores_inst_mono block s x s') _ _ _ Hblock Hi)
    as (st3 & st4 & _ & Hinst & H4).
  destruct (ProcessStores_inst_store _ _ _ _ _ Hk Hptr Hinst) as [Hin Hargs].
  split; [set_solver|]. intros Harg. destruct (Hargs Harg) as (args & ? & Hall).
  exists args. split; [done|]. intros arg ty ? ? ?.
  specialize (Hall arg ty). set_solver.
Qed.
End Stores_facts.

(** ** LICM: the hoist *)

Lemma filter_all {A : Type} (P : A -> Prop) `{!forall x, Decision (P x)} (l : list A) :
  (forall x, x ∈ l -> P x) -> filter P l = l.
Proof.
  induction l as [|x l IH]; intros Hall; [done|].
  rewrite filter_cons_True by (apply Hall; by left).
  f_equal. apply IH. intros; apply Hall. by right.
Qed.

Lemma filter_iff_elem {A : Type} (P Q : A -> Prop)
    `{!forall x, Decision (P x)} `{!forall x, Decision (Q x)} (l : list A) :
  (forall x, x ∈ l -> P x <-> Q x) -> filter P l = filter Q l.
Proof.
  induction l as [|x l IH]; intros Hall; [done|].
  assert (filter P l = filter Q l) as Hl by (apply IH; intros; apply Hall; by right).
  assert (P x <-> Q x) as Hx by (apply Hall; by left).
  destruct (decide (P x)) as [HP|HP].
  - rewrite (filter_cons_True P) by done. rewrite (filter_cons_True Q) by tauto.
    by f_equal.
  - rewrite (filter_cons_False P) by done. rewrite (filter_cons_False Q) by tauto.
    done.
Qed.

Lemma insert_before_last_snoc (invs front : list Value) (t : Value) :
  insert_before_last invs (front ++ [t]) = front ++ invs ++ [t].
Proof.
  induction front as [|x front IH]; [done|].
  simpl. rewrite IH. by destruct (front ++ [t]) eqn:E; [destruct front|].
Qed.

Lemma instsOf_insert (insts : gmap Value (list Value)) (b b' : Value) (l : list Value) :
  instsOf (<[b := l]> insts) b' = if decide (b = b') then l else instsOf insts b'.
Proof. unfold instsOf. rewrite lookup_insert. by destruct (decide _). Qed.

Lemma instsOf_remove_inst (insts : gmap Value (list Value)) (parent i b : Value) :
  instsOf (remove_inst insts parent i) b
  = if decide (parent = b) then filter (fun x => x ≠ i) (instsOf insts b)
    else instsOf insts b.
Proof.
  unfold instsOf, remove_inst. rewrite lookup_alter.
  destruct (decide _) as [->|]; [|done]. by destruct (insts !! b).
Qed.

Section Hoist_facts.
Variable GetParent : Value -> option Value.

(** The loop that removes the hoisted instructions from the blocks the
    scanner recorded for them. *)
Lemma remove_loop_spec (invs : list Value) (m m' : gmap Value (list Value)) :
  forM (fun m i => parent ← deref (GetParent i); Done (remove_inst m parent i))
       invs m = Done m' ->
  forall b, instsOf m' b
            = filter (fun x => ~ (x ∈ invs /\ GetParent x = Some b)) (instsOf m b).
Proof.
  revert m. induction invs as [|i invs IH]; intros m Hrun b; simpl in Hrun.
  - injection Hrun as <-. symmetry. apply filter_all. intros x _ [[]%elem_of_nil _].
  - apply bind_Done in Hrun as (m1 & H1 & Hrun).
    apply bind_Done in H1 as (parent & Hp%deref_Done & H1). injection H1 as <-.
    rewrite (IH _ Hrun b), instsOf_remove_inst. destruct (decide _) as [->|Hne].
    + rewrite list_filter_filter. apply list_filter_iff. intros x.
      rewrite elem_of_cons. split.
      * intros [Hn Hx] [[-> | Hin] Hpx]; [done | tauto].
      * intros Hn. split; [|intros ->]; naive_solver.
    + apply list_filter_iff. intros x. rewrite elem_of_cons.
      split; [|naive_solver]. intros Hn [[-> | Hin] Hpx]; [congruence | tauto].
Qed.

Lemma hoist_spec (cur_loop_ : LoopInfo) (invs : list Value)
    (insts insts' : gmap Value (list Value)) :
  hoist GetParent cur_loop_ invs insts = Done insts' ->
  exists ph front term,
    preheader cur_loop_ = Some ph
    /\ instsOf insts ph = front ++ [term]
    /\ forall b, instsOf insts' b
                 = filter (fun x => ~ (x ∈ invs /\ GetParent x = Some b))
                          (if decide (ph = b) then front ++ invs ++ [term]
                           else instsOf insts b).
Proof.
  unfold hoist. intros Hrun.
  apply bind_Done in Hrun as (ph & Hph%deref_Done & Hrun).
  destruct (instsOf insts ph) as [|x l] eqn:Hl; [discriminate|].
  destruct (exists_last (l := x :: l)) as (front & term & Heq); [done|].
  exists ph, front, term. split_and!; [done|congruence|]. intros b.
  rewrite (remove_loop_spec _ _ _ Hrun b), instsOf_insert.
  rewrite Heq, insert_before_last_snoc. by destruct (decide _).
Qed.
End Hoist_facts.

Section ProcessLoop_facts.
Context {Ty : Type} `{!BaseType Ty}.
Variable nodes : gmap Value (Node Ty).
Variable GetParent : Value -> option Value.
Variable IsDominate : Value -> Value -> bool.
Variable cur_loop_ : LoopInfo.
Variable gfuel : nat.
Variable insts : gmap Value (list Value).

Lemma ProcessLoop_inv fuel insts' ch :
  ProcessLoop nodes GetParent IsDominate cur_loop_ gfuel fuel insts = Done (insts', ch) ->
  exists stored s,
    ProcessStores nodes cur_loop_ gfuel insts = Done stored
    /\ mark_invariants nodes GetParent IsDominate cur_loop_ gfuel stored insts fuel
       = Done s
    /\ (invs_ s = [] /\ insts' = insts /\ ch = false
        \/ invs_ s <> [] /\ ch = true
           /\ hoist GetParent cur_loop_ (invs_ s) insts = Done insts').
Proof.
  unfold ProcessLoop. intros Hrun.
  apply bind_Done in Hrun as (stored & Hst & Hrun).
  apply bind_Done in Hrun as (s & Hs & Hrun).
  exists stored, s. split_and!; [done..|].
  destruct (invs_ s) as [|i invs] eqn:Hinvs.
  - left. injection Hrun as <- <-. done.
  - right. apply bind_Done in Hrun as (m & Hm & Hrun). injection Hrun as <- <-.
    done.
Qed.

Lemma marks_invs_ok stored fuel s :
  mark_invariants nodes GetParent IsDominate cur_loop_ gfuel stored insts fuel
    = Done s ->
  invs_ok nodes s /\ marked_invs_ s ⊆ list_to_set (loop_insts cur_loop_ insts).
Proof.
  intros Hs. apply mark_loop_grows in Hs. split.
  - eapply grows_invs_ok; [exact Hs|]. split; [constructor|]. simpl.
    intros i. split; [intros []%elem_of_nil | set_solver].
  - apply grows_bounded in Hs. simpl in Hs. set_solver.
Qed.

Lemma stored_load_not_marked stored s s' l b :
  grows nodes GetParent IsDominate cur_loop_ gfuel stored insts s s' ->
  kindOf nodes l = Some LoadSSA ->
  GetBasePointer nodes gfuel (operand nodes l 0) = Done b ->
  b ∈ stored ->
  l ∉ marked_invs_ s -> l ∉ marked_invs_ s'.
Proof.
  intros Hg Hk Hb Hin. induction Hg as [|s1 block i Hg IH Hblock Hi Hni Hrun]; [done|].
  intros Hl. specialize (IH Hl). simpl.
  intros [->%elem_of_singleton | ?]%elem_of_union; [|done].
  rewrite (RunPass_stored_load _ _ _ _ _ _ _ _ _ _ Hk Hb Hin) in Hrun.
  injection Hrun as Hrun. apply IH. rewrite Hrun. simpl. set_solver.
Qed.
End ProcessLoop_facts.

(** C2. Let [stored] be the store set that [ProcessStores] computes for a
    loop.  A load of the loop whose base pointer is in [stored] is not
    marked, is not on the list of instructions to hoist, and [ProcessLoop]
    leaves it in the instruction lists it was in; and for every store of the
    loop whose base pointer is an [ArgRefSSA], every argument of the
    enclosing function that has a pointer type is in [stored]. *)
Theorem stored_pointers_block_loads {Ty : Type} `{!BaseType Ty}
    (nodes : gmap Value (Node Ty)) (GetParent : Value -> option Value)
    (IsDominate : Value -> Value -> bool) (cur_loop_ : LoopInfo) (gfuel : nat)
    (insts : gmap Value (list Value)) (stored : gset Value) :
  ProcessStores nodes cur_loop_ gfuel insts = Done stored ->
  (forall l b,
      kindOf nodes l = Some LoadSSA ->
      GetBasePointer nodes gfuel (operand nodes l 0) = Done b ->
      b ∈ stored ->
      (forall fuel s,
          mark_invariants nodes GetParent IsDominate cur_loop_ gfuel stored insts fuel
            = Done s ->
          (l ∉ marked_invs_ s) /\ (l ∉ invs_ s))
      /\ (forall fuel insts' ch,
             ProcessLoop nodes GetParent IsDominate cur_loop_ gfuel fuel insts
               = Done (insts', ch) ->
             forall block, l ∈ instsOf insts' block <-> l ∈ instsOf insts block))
  /\ (forall block i ptr,
         block ∈ body cur_loop_ -> i ∈ instsOf insts block ->
         kindOf nodes i = Some StoreSSA ->
         GetBasePointer nodes gfuel (operand nodes i 1) = Done ptr ->
         IsSSA_ArgRef nodes ptr = true ->
         exists args,
           args_of_parent nodes block = Done args
           /\ forall arg ty, arg ∈ args -> typeOf nodes arg = Some ty ->
                             IsPointer ty = true -> arg ∈ stored).
Proof.
  intros Hstored. split.
  - intros l b Hk Hb Hin.
    assert (forall fuel s,
               mark_invariants nodes GetParent IsDominate cur_loop_ gfuel stored insts
                 fuel = Done s ->
               (l ∉ marked_invs_ s) /\ (l ∉ invs_ s)) as Hmark.
    { intros fuel s Hs.
      assert (l ∉ marked_invs_ s) as Hl.
      { eapply stored_load_not_marked; [by eapply mark_loop_grows|done..|].
        simpl. set_solver. }
      split; [done|]. apply marks_invs_ok in Hs as [[_ Hiff] _].
      intros Hinv%Hiff. tauto. }
    split; [exact Hmark|].
    intros fuel insts' ch Hrun block.
    apply ProcessLoop_inv in Hrun as (stored' & s & Hst & Hs & Hcase).
    assert (stored' = stored) as -> by congruence.
    destruct (Hmark _ _ Hs) as [_ Hni].
    destruct Hcase as [(_ & -> & _) | (_ & _ & Hh)]; [done|].
    apply hoist_spec in Hh as (ph & front & term & Hph & Hfront & Hall).
    rewrite Hall, list_elem_of_filter.
    destruct (decide (ph = block)) as [<-|]; [|tauto].
    rewrite Hfront, !elem_of_app. tauto.
  - intros block i ptr Hb Hi Hk Hptr Harg.
    destruct (ProcessStores_store nodes cur_loop_ gfuel insts stored block i ptr
                Hstored Hb Hi Hk Hptr) as [_ H].
    auto.
Qed.


(** ** LICM on the examples *)

Import Examples SpecType.

(** Closes a goal on concrete data by evaluation. *)
Ltac by_compute := vm_compute; first [reflexivity | discriminate | exact I | done].

Ltac elem_compute := apply (bool_decide_unpack _); vm_compute; exact I.

(** C9 (failing input). In [cyclic_phi] the only incoming value of the phi
    [%1] is [%3], which is a user of [%1]: the phi case of [GetBasePointer]
    leaves [ptr] unchanged and the [for (;;)] never ends, whatever the
    fuel. *)
Theorem GetBasePointer_diverges_on_cyclic_phi :
  GetBasePointer_step cyclic_phi 1 = Done (inl (Some 1))
  /\ forall fuel, GetBasePointer cyclic_phi fuel (Some 1) = NoFuel.
Proof.
  assert (GetBasePointer_step cyclic_phi 1 = Done (inl (Some 1))) as Hstep.
  { eapply phi_operands_all_users; [by_compute | by_compute |].
    repeat constructor. exists 2, 3. split_and!; [done | by_compute | by_compute |].
    elem_compute. }
  split; [exact Hstep|]. by apply GetBasePointer_stuck.
Qed.

(** The same happens for a phi that merges a pointer with itself, the shape
    of a pointer variable that a loop does not assign: the user of [%1] is
    the phi operand, not [%1]. *)
Lemma GetBasePointer_diverges_on_carried_phi :
  forall fuel, GetBasePointer carried_phi fuel (Some 1) = NoFuel.
Proof. apply GetBasePointer_stuck. by_compute. Qed.

(** C8 (failing input). In [walk_loop] the pointer [%1] of the load [%5] is
    a phi whose value from the latch, [%4], is not a user of the phi:
    [GetBasePointer] goes from [%1] to [%4], from there through the two
    accesses back to [%1], and so on.  The first sweep of the marking loop
    reaches the load and never gets past it: whatever the fuel, neither the
    marking loop nor [ProcessLoop] returns. *)
Theorem marking_never_ends_on_pointer_walk :
  (forall gfuel, GetBasePointer walk_nodes gfuel (Some 1) = NoFuel)
  /\ (forall gfuel fuel stored,
         mark_invariants walk_nodes walk_parent walk_dom walk_loop gfuel stored
                         walk_insts fuel = NoFuel)
  /\ (forall gfuel fuel,
         ProcessLoop walk_nodes walk_parent walk_dom walk_loop gfuel fuel walk_insts
         = NoFuel).
Proof.
  assert (forall gfuel, GetBasePointer walk_nodes gfuel (Some 1) = NoFuel) as Hbase.
  { intros gfuel.
    apply (GetBasePointer_cycle walk_nodes (fun p => p = 1 \/ p = 4 \/ p = 3));
      [|by left].
    intros p [-> | [-> | ->]].
    - exists 4. split; [by_compute|by right; left].
    - exists 3. split; [by_compute|by right; right].
    - exists 1. split; [by_compute|by left]. }
  assert (forall gfuel fuel stored,
             mark_invariants walk_nodes walk_parent walk_dom walk_loop gfuel stored
                             walk_insts fuel = NoFuel) as Hmark.
  { intros gfuel fuel stored. unfold mark_invariants.
    destruct fuel as [|fuel]; cbn [mark_loop marked_invs_];
      rewrite decide_False by (by rewrite size_empty); [done|].
    assert (sweep walk_nodes walk_parent walk_dom walk_loop gfuel stored walk_insts
                  {| marked_invs_ := ∅; invs_ := [] |} = NoFuel) as ->; [|done].
    unfold sweep. cbn [body walk_loop forM]. unfold sweep_block.
    change (instsOf walk_insts 12) with ([1] ++ 5 :: [3; 4; 32]).
    rewrite forM_app.
    match goal with
    | |- context [forM ?f [1] ?s0] =>
        assert (forM f [1] s0 = Done s0) as -> by by_compute
    end.
    cbn [mbind Res_bind forM marked_invs_].
    repeat match goal with
           | |- ?x ≫= _ = NoFuel => assert (x = NoFuel) as ->; [|done]
           end.
    destruct (decide _) as [Hin|_]; [set_solver|].
    unfold RunPass.
    assert (kindOf walk_nodes 5 = Some LoadSSA) as -> by by_compute.
    assert (operand walk_nodes 5 0 = Some 1) as -> by by_compute.
    cbn [deref mbind Res_bind]. by rewrite Hbase. }
  split_and!; [exact Hbase|exact Hmark|].
  intros gfuel fuel. unfold ProcessLoop.
  assert (ProcessStores walk_nodes walk_loop gfuel walk_insts = Done ∅) as ->
    by by_compute.
  cbn [mbind Res_bind]. by rewrite Hmark.
Qed.


(** The list that is hoisted is in the order of marking.  In [order_loop]
    the body set yields [%13] before [%12]: [%41] is marked first, then
    [%35], and [%40], which needs [%35], in the second sweep; the pre-header
    receives them in this order, while the program has [%35], [%40],
    [%41]. *)
Lemma hoist_order_is_marking_order :
  exists insts',
    ProcessLoop order_nodes order_parent loop1_dom order_loop 5 10 order_insts
      = Done (insts', true)
    /\ instsOf order_insts 12 = [35; 22]
    /\ instsOf order_insts 13 = [40; 41; 42; 43; 23]
    /\ instsOf insts' 11 = [41; 35; 40; 21].
Proof.
  eexists _. split; [|split; [|split]].
  - by_compute.
  - by_compute.
  - by_compute.
  - by_compute.
Qed.

Lemma loop_insts_Forall (P : Value -> Value -> Prop) (loop : LoopInfo)
    (insts : gmap Value (list Value)) :
  Forall (fun block => Forall (P block) (instsOf insts block)) (body loop) ->
  forall block i, block ∈ body loop -> i ∈ instsOf insts block -> P block i.
Proof.
  intros Hall block i Hb Hi.
  eapply Forall_forall in Hall; [|exact Hb]. eapply Forall_forall in Hall; eauto.
Qed.

(** On concrete lists: one goal per instruction of the loop. *)
Ltac forall_list tac :=
  match goal with
  | |- Forall _ ?l => let l' := eval vm_compute in l in change l with l'
  end;
  repeat match goal with
         | |- Forall _ [] => apply List.Forall_nil
         | |- Forall _ (_ :: _) => apply List.Forall_cons; [cbv beta; tac|]
         end.

Ltac each_loop_inst tac :=
  match goal with
  | |- forall block i, _ ∈ _ -> _ ∈ _ -> @?P block i =>
      apply (loop_insts_Forall P)
  end;
  forall_list ltac:(forall_list tac).


Lemma stored_pointers_block_loads_witness :
  let stored : gset Value := list_to_set [3; 4; 5] in
  exists s,
    ProcessStores loop1_nodes loop1 5 loop1_insts = Done stored
    /\ mark_invariants loop1_nodes loop1_parent loop1_dom loop1 5 stored loop1_insts 10
       = Done s
    /\ 4 ∈ stored
    /\ (44 ∉ marked_invs_ s)
    /\ (44 ∉ invs_ s).
Proof.
  intros stored. eexists _.
  assert (ProcessStores loop1_nodes loop1 5 loop1_insts = Done stored) as Hst
    by by_compute.
  split; [exact Hst|]. split; [by_compute|].
  destruct (stored_pointers_block_loads loop1_nodes loop1_parent loop1_dom loop1
              5 loop1_insts stored Hst) as [Hload Hstore].
  assert (4 ∈ stored) as Hq.
  { destruct (Hstore 13 43 3) as (args & Hargs & Hall);
      [elem_compute | elem_compute | by_compute | by_compute | by_compute |].
    apply (Hall 4 (ptr i32)); [|by_compute|by_compute].
    assert (args = [1; 2; 3; 4]) as -> by (vm_compute in Hargs; congruence).
    elem_compute. }
  split; [exact Hq|].
  destruct (Hload 44 4) as [Hmark _]; [by_compute | by_compute | exact Hq |].
  apply (Hmark 10). by_compute.
Defined.

Lemma marking_fixpoint_terminates_witness :
  mark_invariants loop1_nodes loop1_parent loop1_dom loop1 5 (list_to_set [3; 4; 5])
    loop1_insts 12 <> NoFuel.
Proof.
  assert (forall block i,
             block ∈ body loop1 -> i ∈ instsOf loop1_insts block ->
             kindOf loop1_nodes i = Some LoadSSA ->
             GetBasePointer loop1_nodes 5 (operand loop1_nodes i 0) <> NoFuel) as Hbase
    by (each_loop_inst ltac:(vm_compute; congruence)).
  pose proof (marking_fixpoint_terminates loop1_nodes loop1_parent loop1_dom loop1 5
                (list_to_set [3; 4; 5]) loop1_insts Hbase) as Hthm.
  cbv zeta in Hthm. destruct Hthm as (_ & Hfuel & _).
  apply Hfuel. vm_compute. lia.
Defined.

(** C7 (failing input). [nest_insts] holds two nested loops, listed
    innermost first.  The first run of [RunOnFunction] hoists [%40] into the
    pre-header [%13] of the inner loop, and then, while processing the outer
    loop with the parent map scanned when the run began, inserts it into the
    pre-header [%11] of the outer loop as well and removes it from block
    [%15], where it no longer is: [%40] stays in [%13].  The second run finds
    [%40] inside the outer loop, hoists it again and reports a change. *)
Theorem licm_second_run_reports_change :
  exists insts1 insts2,
    RunOnFunction nest_nodes nest_dom nest_loops 5 10 100 nest_insts
      = Done (insts1, true)
    /\ instsOf insts1 11 = [40; 21]
    /\ instsOf insts1 13 = [40; 23]
    /\ instsOf insts1 15 = [41; 25]
    /\ RunOnFunction nest_nodes nest_dom nest_loops 5 10 100 insts1
       = Done (insts2, true).
Proof.
  eexists _, _. split; [|split; [|split; [|split]]].
  - by_compute.
  - by_compute.
  - by_compute.
  - by_compute.
  - by_compute.
Qed.

(** ** The pass manager *)

Section PassManager_facts.
Variable World : Type.
Variable funcs : World -> list Value.
Variable blocks : World -> Value -> list Value.
Variable passes : list (PassInfo World).
Variable opt_level_ : nat.

Local Abbreviation run_info' := (run_info World funcs blocks opt_level_).
Local Abbreviation sweep' := (sweep_passes World funcs blocks).
Local Abbreviation names := (name <$> enabled opt_level_ passes).

Lemma run_info_skipped (s : Sweep World) (info : PassInfo World) :
  opt_level_ < min_opt_level info -> run_info' s info = Done s.
Proof. intros Hlt. unfold run_info. by rewrite decide_True. Qed.

Lemma run_info_ran (s s' : Sweep World) (info : PassInfo World) :
  min_opt_level info <= opt_level_ ->
  run_info' s info = Done s' -> ran s' = ran s ++ [name info].
Proof.
  intros Hle. unfold run_info. rewrite decide_False by lia.
  destruct (IsModulePass _); [by intros [= <-]|].
  destruct (IsFunctionPass _); [by intros [= <-]|].
  destruct (IsBlockPass _); [by intros [= <-]|discriminate].
Qed.

(** The passes below the current level do not take part in a sweep. *)
Lemma sweep_only_enabled (l : list (PassInfo World)) (s : Sweep World) :
  forM run_info' l s = forM run_info' (enabled opt_level_ l) s.
Proof.
  revert s. induction l as [|info l IH]; intros s; [done|].
  unfold enabled in *. destruct (decide (min_opt_level info <= opt_level_)).
  - rewrite filter_cons_True by done. simpl.
    destruct (run_info' s info); simpl; auto.
  - rewrite filter_cons_False by done. simpl.
    rewrite run_info_skipped by lia. simpl. apply IH.
Qed.

Lemma sweep_ran_enabled (l : list (PassInfo World)) (s s' : Sweep World) :
  forM run_info' l s = Done s' ->
  ran s' = ran s ++ (name <$> enabled opt_level_ l).
Proof.
  revert s. induction l as [|info l IH]; intros s Hrun; simpl in Hrun.
  - injection Hrun as <-. by rewrite app_nil_r.
  - apply bind_Done in Hrun as (s1 & H1 & Hrun). apply IH in Hrun. rewrite Hrun.
    unfold enabled. destruct (decide (min_opt_level info <= opt_level_)).
    + rewrite filter_cons_True by done.
      rewrite (run_info_ran _ _ _ ltac:(done) H1), fmap_cons. by rewrite <- app_assoc.
    + rewrite filter_cons_False by done.
      rewrite run_info_skipped in H1 by lia. by injection H1 as <-.
Qed.

(** The loops of [RunPasses] over functions and blocks are the folds of the
    reading above, and so is its branch on the kind of the pass. *)
Lemma for_each_foldl {A : Type} (run : A -> World -> World * bool) (l : list A)
    (w : World) (ch : bool) :
  for_each World run l w ch
  = foldl (fun st x => call_entry World st (run x)) (w, ch) l.
Proof.
  revert w ch. induction l as [|x l IH]; intros w ch; [done|].
  cbn [for_each foldl]. rewrite IH. f_equal. unfold call_entry. cbn [fst snd].
  by destruct (snd (run x w)), ch.
Qed.

Lemma for_each_block_foldl (run : Value -> World -> World * bool) (fs : list Value)
    (w : World) (ch : bool) :
  for_each_block World blocks run fs w ch
  = foldl (fun st func =>
             foldl (fun st blk => call_entry World st (run blk)) st
                   (blocks (fst st) func))
          (w, ch) fs.
Proof.
  revert w ch. induction fs as [|func fs IH]; intros w ch; [done|].
  cbn [for_each_block foldl fst]. rewrite IH, for_each_foldl.
  by destruct (foldl _ (w, ch) (blocks w func)).
Qed.

Lemma run_info_run_pass (s s' : Sweep World) (info : PassInfo World) :
  min_opt_level info <= opt_level_ ->
  run_info' s info = Done s' ->
  (world s', changed s')
  = run_pass World funcs blocks (pass info) (world s, changed s).
Proof.
  intros Hle. unfold run_info, run_pass. rewrite decide_False by lia.
  destruct (IsModulePass _).
  { intros [= <-]. unfold call_entry. cbn [world changed fst snd].
    by destruct (snd (RunOnModule_vars _ _ _)), (snd (RunOnModule_funcs _ _ _)),
                (changed s). }
  destruct (IsFunctionPass _).
  { intros [= <-]. cbn [world changed fst]. rewrite for_each_foldl.
    by destruct (foldl _ _ _). }
  destruct (IsBlockPass _); [|discriminate].
  intros [= <-]. cbn [world changed fst]. rewrite for_each_block_foldl.
  by destruct (foldl _ _ _).
Qed.

Lemma sweep_full_sweep (l : list (PassInfo World)) (s s' : Sweep World) :
  forM run_info' l s = Done s' ->
  (world s', changed s')
  = foldl (fun st info => run_pass World funcs blocks (pass info) st)
          (world s, changed s) (enabled opt_level_ l).
Proof.
  revert s. induction l as [|info l IH]; intros s Hrun; simpl in Hrun.
  - by injection Hrun as <-.
  - apply bind_Done in Hrun as (s1 & H1 & Hrun). apply IH in Hrun. rewrite Hrun.
    unfold enabled. destruct (decide (min_opt_level info <= opt_level_)).
    + rewrite filter_cons_True by done. cbn [foldl].
      by rewrite (run_info_run_pass _ _ _ ltac:(done) H1).
    + rewrite filter_cons_False by done.
      rewrite run_info_skipped in H1 by lia. by injection H1 as <-.
Qed.

(** A sweep returns when every pass the level admits has a kind. *)
Lemma sweep_returns (l : list (PassInfo World)) (s : Sweep World) :
  (forall info, info ∈ enabled opt_level_ l -> ~ of_no_kind info) ->
  exists s', forM run_info' l s = Done s'.
Proof.
  revert s. induction l as [|info l IH]; intros s Hkind; [by exists s|].
  cbn [forM].
  assert (exists s1, run_info' s info = Done s1) as [s1 ->].
  { unfold run_info. destruct (decide _) as [|Hge]; [by eauto|].
    assert (~ of_no_kind info) as Hk.
    { apply Hkind. unfold enabled. rewrite filter_cons_True by lia. left. }
    unfold of_no_kind in Hk.
    destruct (IsModulePass _); [by eauto|].
    destruct (IsFunctionPass _); [by eauto|].
    destruct (IsBlockPass _); [by eauto|]. by destruct Hk. }
  cbn. apply IH. intros info' Hin. apply Hkind. unfold enabled in *.
  destruct (decide (min_opt_level info <= opt_level_)).
  - rewrite filter_cons_True by done. by right.
  - by rewrite filter_cons_False by done.
Qed.

Lemma RunPasses_stable (fuel : nat) (w w' : World) (tr : list string) :
  RunPasses World funcs blocks passes opt_level_ fuel w = Done (w', tr) ->
  exists n, n < fuel
            /\ sweeps_until_stable World funcs blocks passes opt_level_ w n w'
            /\ tr = concat (replicate (S n) names).
Proof.
  revert w tr. induction fuel as [|fuel IH]; intros w tr; simpl; [discriminate|].
  intros Hrun. apply bind_Done in Hrun as (s & Hs & Hrun).
  pose proof (sweep_ran_enabled _ _ _ Hs) as Hran. simpl in Hran.
  destruct (changed s) eqn:Hch.
  - apply bind_Done in Hrun as ([w1 tr1] & Hrec & Hrun). injection Hrun as <- <-.
    destruct (IH _ _ Hrec) as (n & Hn & Hst & ->). exists (S n). split_and!; [lia| |].
    + eapply stable_later; eauto.
    + simpl. by rewrite Hran.
  - injection Hrun as <- <-. exists 0. split_and!; [lia| |].
    + by eapply stable_now.
    + simpl. by rewrite Hran, app_nil_r.
Qed.

Lemma stable_RunPasses (n : nat) (w w' : World) :
  sweeps_until_stable World funcs blocks passes opt_level_ w n w' ->
  forall fuel, n < fuel ->
    RunPasses World funcs blocks passes opt_level_ fuel w
    = Done (w', concat (replicate (S n) names)).
Proof.
  induction 1 as [w s Hs Hch | w s n w' Hs Hch Hst IH]; intros fuel Hfuel;
    (destruct fuel as [|fuel]; [lia|]); simpl; rewrite Hs; simpl; rewrite Hch;
    pose proof (sweep_ran_enabled _ _ _ Hs) as Hran; simpl in Hran.
  - by rewrite Hran, app_nil_r.
  - rewrite (IH fuel) by lia. simpl. by rewrite Hran.
Qed.

Local Abbreviation full' := (full_sweep World funcs blocks passes opt_level_).
Local Abbreviation after' := (after_sweeps World funcs blocks passes opt_level_).

Lemma after_sweeps_S (n : nat) (w : World) :
  after' (S n) w = after' n (fst (full' w)).
Proof.
  unfold after_sweeps. induction n as [|n IH]; [done|].
  cbn [Nat.iter nat_rect] in *. by rewrite IH.
Qed.

(** The sweeps up to the first one without a change, counted on the
    reading of the spec. *)
Lemma stable_after_sweeps (n : nat) (w w' : World) :
  sweeps_until_stable World funcs blocks passes opt_level_ w n w' ->
  (forall k, k < n -> snd (full' (after' k w)) = true)
  /\ snd (full' (after' n w)) = false
  /\ w' = after' (S n) w.
Proof.
  induction 1 as [w s Hs Hch | w s n w' Hs Hch Hst (IHlt & IHn & IHw)];
    pose proof (sweep_full_sweep _ _ _ Hs) as Hfull; cbn [world changed] in Hfull;
    change (foldl _ (w, false) _) with (full' w) in Hfull.
  - split_and!; [lia| |].
    + change (after' 0 w) with w. by rewrite <- Hfull.
    + change (after' 1 w) with (fst (full' w)). by rewrite <- Hfull.
  - assert (world s = fst (full' w)) as Hw by (by rewrite <- Hfull).
    rewrite Hw in *. split_and!.
    + intros [|k] Hk.
      * change (after' 0 w) with w. rewrite <- Hfull. done.
      * rewrite after_sweeps_S. apply IHlt. lia.
    + by rewrite after_sweeps_S.
    + by rewrite (after_sweeps_S (S n)).
Qed.

Lemma after_sweeps_stable (n : nat) (w : World) :
  (forall info, info ∈ enabled opt_level_ passes -> ~ of_no_kind info) ->
  (forall k, k < n -> snd (full' (after' k w)) = true) ->
  snd (full' (after' n w)) = false ->
  sweeps_until_stable World funcs blocks passes opt_level_ w n (after' (S n) w).
Proof.
  intros Hkind. revert w. induction n as [|n IH]; intros w Hlt Hn.
  - destruct (sweep_returns passes (mkSweep w false []) Hkind) as [s Hs].
    pose proof (sweep_full_sweep _ _ _ Hs) as Hfull. cbn [world changed] in Hfull.
    change (foldl _ (w, false) _) with (full' w) in Hfull.
    change (after' 0 w) with w in Hn. change (after' 1 w) with (fst (full' w)).
    rewrite <- Hfull in *. cbn [fst snd] in *. by apply stable_now.
  - destruct (sweep_returns passes (mkSweep w false []) Hkind) as [s Hs].
    pose proof (sweep_full_sweep _ _ _ Hs) as Hfull. cbn [world changed] in Hfull.
    change (foldl _ (w, false) _) with (full' w) in Hfull.
    rewrite (after_sweeps_S (S n)).
    assert (world s = fst (full' w)) as Hw by (by rewrite <- Hfull).
    apply (stable_later _ _ _ _ _ _ s); [done| |].
    + pose proof (Hlt 0 ltac:(lia)) as H0. change (after' 0 w) with w in H0.
      by rewrite <- Hfull in H0.
    + rewrite Hw. apply IH.
      * intros k Hk. rewrite <- after_sweeps_S. apply Hlt. lia.
      * by rewrite <- after_sweeps_S.
Qed.
End PassManager_facts.

(** C3. A sweep of [RunPasses] runs the registered passes whose minimum
    optimization level is at most the current level, each once and in the
    order of registration, and no other pass: the state and the [changed]
    flag it leaves are those of calling, for each of these passes in turn,
    [RunOnModule] on the variables and on the functions, or [RunOnFunction]
    on every function, or [RunOnBlock] on every block of every function, and
    [changed] is set exactly when one of these calls returned true.  The
    sweep returns when each of these passes has a kind.  [RunPasses] returns
    exactly when some repetition of the sweep is the first to report no
    change: it has then run every sweep up to that one in full and returns
    the state that sweep left. *)
Theorem RunPasses_runs_enabled_until_stable (World : Type)
    (funcs : World -> list Value) (blocks : World -> Value -> list Value)
    (passes : list (PassInfo World)) (opt_level_ : nat) :
  let names := name <$> enabled opt_level_ passes in
  let full := full_sweep World funcs blocks passes opt_level_ in
  let after := after_sweeps World funcs blocks passes opt_level_ in
  (forall w s,
      sweep_passes World funcs blocks passes opt_level_ w = Done s ->
      ran s = names
      /\ sweep_passes World funcs blocks (enabled opt_level_ passes) opt_level_ w
         = Done s
      /\ (world s, changed s) = full w)
  /\ (forall fuel w w' tr,
         RunPasses World funcs blocks passes opt_level_ fuel w = Done (w', tr)
         <-> exists n,
               n < fuel
               /\ sweeps_until_stable World funcs blocks passes opt_level_ w n w'
               /\ tr = concat (replicate (S n) names))
  /\ (forall fuel w w' tr,
         RunPasses World funcs blocks passes opt_level_ fuel w = Done (w', tr) ->
         exists n,
           n < fuel
           /\ (forall k, k < n -> snd (full (after k w)) = true)
           /\ snd (full (after n w)) = false
           /\ w' = after (S n) w)
  /\ ((forall info, info ∈ enabled opt_level_ passes -> ~ of_no_kind info) ->
      (forall w, exists s,
            sweep_passes World funcs blocks passes opt_level_ w = Done s)
      /\ forall fuel n w,
          n < fuel ->
          (forall k, k < n -> snd (full (after k w)) = true) ->
          snd (full (after n w)) = false ->
          RunPasses World funcs blocks passes opt_level_ fuel w
          = Done (after (S n) w, concat (replicate (S n) names))).
Proof.
  intros names full after. split_and!.
  - intros w s Hs. split_and!.
    + by apply sweep_ran_enabled in Hs.
    + unfold sweep_passes in *. by rewrite <- sweep_only_enabled.
    + by apply sweep_full_sweep in Hs.
  - intros fuel w w' tr. split.
    + apply RunPasses_stable.
    + intros (n & Hn & Hst & ->). by apply stable_RunPasses.
  - intros fuel w w' tr Hrun.
    apply RunPasses_stable in Hrun as (n & Hn & Hst & _).
    apply stable_after_sweeps in Hst as (Hlt & Hlast & Hw'). by exists n.
  - intros Hkind. split.
    + intros w. by apply sweep_returns.
    + intros fuel n w Hn Hlt Hlast. apply stable_RunPasses; [|done].
      by apply after_sweeps_stable.
Qed.

(** Four passes that write down their calls, run at level 2 on two
    functions with three blocks: the module pass, the function pass and the
    block pass are called on everything of their kind in two sweeps, the
    pass registered for level 3 is not called. *)
Lemma RunPasses_runs_enabled_until_stable_witness :
  RunPasses Log two_funcs their_blocks four_passes 2 5 (1, [])
  = Done ((0, ["m:vars"; "m:funcs"; "f:1"; "f:2"; "b:10"; "b:11"; "b:20";
               "m:vars"; "m:funcs"; "f:1"; "f:2"; "b:10"; "b:11"; "b:20"]),
          ["m"; "f"; "b"; "m"; "f"; "b"]).
Proof.
  destruct (RunPasses_runs_enabled_until_stable Log two_funcs their_blocks
              four_passes 2) as (_ & _ & _ & Hruns).
  destruct Hruns as [_ Hruns].
  { intros info Hin Hno. unfold of_no_kind in Hno.
    assert (info ∈ four_passes) as Hin' by (by apply list_elem_of_filter in Hin as [_ ?]).
    unfold four_passes in Hin'. set_unfold in Hin'.
    destruct Hin' as [-> | [-> | [-> | [-> | []]]]]; by destruct Hno as (? & ? & ?). }
  apply (Hruns 5 1 (1, [])); [lia| |reflexivity].
  intros [|k] Hk; [reflexivity|lia].
Defined.

(** ** The builder *)

Section Builder_facts.
Context {Ty : Type} `{!BaseType Ty} `{!SSAMethods Ty}.
Implicit Types (m : Module Ty) (nodes : gmap Value (Node Ty)).

(** Updates of use lists and types leave the class and the operands of
    every object alone. *)
Lemma alter_field {B : Type} (g : Node Ty -> B) (f : Node Ty -> Node Ty) nodes x y :
  (forall n, g (f n) = g n) -> g <$> alter f x nodes !! y = g <$> nodes !! y.
Proof.
  intros Hg. rewrite lookup_alter. destruct (decide (x = y)) as [->|]; [|done].
  destruct (nodes !! y); simpl; [|done]. by rewrite Hg.
Qed.

Lemma link_use_field {B : Type} (g : Node Ty -> B) nodes user val y :
  (forall u n, g (add_use u n) = g n) ->
  g <$> link_use nodes user val !! y = g <$> nodes !! y.
Proof. intros Hg. destruct val; simpl; [by apply alter_field | done]. Qed.

Lemma link_uses_field {B : Type} (g : Node Ty -> B) operands nodes user y :
  (forall u n, g (add_use u n) = g n) ->
  g <$> foldl (fun ns o => link_use ns user o) nodes operands !! y = g <$> nodes !! y.
Proof.
  intros Hg. revert nodes. induction operands as [|o l IH]; intros nodes; [done|].
  simpl. rewrite IH. by apply link_use_field.
Qed.

Lemma operand_oprs nodes v i :
  operand nodes v i = (oprs <$> nodes !! v) ≫= fun o => mjoin (o !! i).
Proof. unfold operand. by destruct (nodes !! v). Qed.



(** *** [SealGlobalCtor] and [Module::Dump] *)

Lemma CreateJump_ctor m target m' jump :
  CreateJump m target = Done (m', jump) -> global_ctor_ m' = global_ctor_ m.
Proof.
  unfold CreateJump, AddInst. intros Hrun.
  apply bind_Done in Hrun as ([m1 v] & Hrun1 & Hrun). injection Hrun as <- _.
  apply bind_Done in Hrun1 as (block & _ & Hrun1). by injection Hrun1 as <- _.
Qed.

Lemma SealGlobalCtor_idempotent m m1 :
  SealGlobalCtor m = Done m1 -> SealGlobalCtor m1 = Done m1.
Proof.
  unfold SealGlobalCtor at 1. destruct (global_ctor_ m) as [f|] eqn:Hf.
  - destruct (is_ctor_sealed_ m) eqn:Hs; simpl.
    + intros [= <-]. unfold SealGlobalCtor. by rewrite Hf, Hs.
    + intros Hrun. apply bind_Done in Hrun as (target & _ & Hrun).
      apply bind_Done in Hrun as ([m2 j] & Hj & Hrun). injection Hrun as <-.
      apply CreateJump_ctor in Hj. simpl in *.
      unfold SealGlobalCtor. simpl. by rewrite Hj, Hf.
  - intros [= <-]. unfold SealGlobalCtor. by rewrite Hf.
Qed.

Lemma SealGlobalCtor_returns m :
  (global_ctor_ m <> None -> is_Some (ctor_entry_ m) /\ is_Some (ctor_exit_ m)) ->
  exists m1, SealGlobalCtor m = Done m1.
Proof.
  intros Hwf. unfold SealGlobalCtor. destruct (global_ctor_ m) as [f|]; [|by eauto].
  destruct (is_ctor_sealed_ m); simpl; [by eauto|].
  destruct Hwf as [[entry He] [exit Hx]]; [done|].
  rewrite Hx. simpl. unfold CreateJump, AddInst. simpl. rewrite He. simpl. by eauto.
Qed.

Lemma Module_Dump_again fmt fuel m m1 out :
  Module_Dump fmt fuel m = Done (m1, out) -> Module_Dump fmt fuel m1 = Done (m1, out).
Proof.
  unfold Module_Dump. intros Hrun.
  apply bind_Done in Hrun as (m2 & Hseal & Hrun).
  apply bind_Done in Hrun as (r & Hr & Hrun). injection Hrun as <- <-.
  rewrite (SealGlobalCtor_idempotent _ _ Hseal). simpl. by rewrite Hr.
Qed.

(** *** [CreateCast] *)


(** *** [CreateStore] *)

End Builder_facts.

(** C4. [SealGlobalCtor] returns on every module whose constructor, if it
    exists, has its two blocks, and it is idempotent: once it has returned, a
    second call returns the module unchanged; hence a second [Module::Dump]
    leaves the module as the first one left it and writes the same text. *)
Theorem seal_idempotent_dump_stable {Ty : Type} `{!BaseType Ty} `{!SSAMethods Ty} :
  (forall m : Module Ty,
      (global_ctor_ m <> None -> is_Some (ctor_entry_ m) /\ is_Some (ctor_exit_ m)) ->
      exists m1, SealGlobalCtor m = Done m1)
  /\ (forall m m1 : Module Ty,
         SealGlobalCtor m = Done m1 -> SealGlobalCtor m1 = Done m1)
  /\ (forall (fmt : Format) (fuel : nat) (m m1 : Module Ty) (out : string),
         Module_Dump fmt fuel m = Done (m1, out) ->
         Module_Dump fmt fuel m1 = Done (m1, out)).
Proof.
  split; [|split].
  - apply SealGlobalCtor_returns.
  - apply SealGlobalCtor_idempotent.
  - apply Module_Dump_again.
Qed.

Lemma seal_idempotent_dump_stable_witness :
  exists m1 : Module Ty,
    Module_Dump new_stream 10 ctor_module = Done (m1, ctor_text)
    /\ instsOf (m_insts m1) 4 = [8; 9; 11; 12; 13]
    /\ kindOf (m_nodes m1) 13 = Some JumpSSA
    /\ SealGlobalCtor m1 = Done m1
    /\ Module_Dump new_stream 10 m1 = Done (m1, ctor_text).
Proof.
  eexists _.
  assert (Module_Dump new_stream 10 ctor_module = Done (_, ctor_text)) as Hdump by by_compute.
  split; [exact Hdump|]. split; [by_compute|]. split; [by_compute|].
  destruct (@seal_idempotent_dump_stable Ty _ _) as (_ & Hseal & Hagain). split.
  - apply (Hseal ctor_module). by_compute.
  - by apply Hagain in Hdump.
Defined.




(** With the types of [SpecType], whose trivial type strips nothing and
    whose identity is structural, the two tests pass for every type: there
    [CreateCast(x, t)] returns every value that has a type as it is. *)
Lemma is_identical_refl (t : Ty) : is_identical t t = true.
Proof.
  revert t. fix IH 1. intros t.
  destruct t as [k sg | pointee mu | elem len | params ret va]; simpl.
  - by destruct k, sg.
  - rewrite IH. by destruct mu.
  - by rewrite IH, Nat.eqb_refl.
  - rewrite IH.
    assert ((fix all2 (l l' : list Ty) : bool :=
               match l, l' with
               | [], [] => true
               | x :: l, x' :: l' => is_identical x x' && all2 l l'
               | _, _ => false
               end) params params = true) as ->.
    { induction params as [|x params IHparams]; [done|].
      by rewrite IH, IHparams. }
    by destruct va.
Qed.

Lemma can_cast_to_refl (t : Ty) : can_cast_to t t = true.
Proof.
  assert (can_accept t t = true) as Hacc.
  { unfold can_accept.
    destruct t as [[] sg | pointee mu | elem len | params ret va];
      cbn [is_integer andb byte_size Nat.leb]; try done.
    - apply (is_identical_refl (Prim Void sg)).
    - by rewrite is_identical_refl.
    - apply (is_identical_refl (Array elem len)).
    - apply (is_identical_refl (Function params ret va)). }
  unfold can_cast_to. by rewrite Hacc.
Qed.

Lemma CreateCast_own_type_with_SpecType (m : Module Ty) (x : Value) (t : Ty) :
  typeOf (m_nodes m) x = Some t -> CreateCast m x t = Done (m, x).
Proof.
  intros Hty. unfold CreateCast. rewrite Hty. cbn [deref mbind Res_bind].
  change (GetTrivialType t) with t.
  change (CanCastTo t t) with (can_cast_to t t).
  change (IsIdentical t t) with (is_identical t t).
  by rewrite can_cast_to_refl, is_identical_refl.
Qed.




(** ** The dump of terminators *)

Lemma append_assoc (a b c : string) : (a +:+ b) +:+ c = a +:+ (b +:+ c).
Proof.
  induction a as [|x a IH]; [reflexivity|].
  change (String x ((a +:+ b) +:+ c) = String x (a +:+ (b +:+ c))). by rewrite IH.
Qed.

Section Dump_facts.
Context {Ty : Type} `{!BaseType Ty} `{!SSAMethods Ty}.
Variable fmt : Format.
Variable nodes : gmap Value (Node Ty).
Variable insts : gmap Value (list Value).

Lemma Dump_S (k in_expr : nat) (this : Value) (n : Node Ty)
    (st : IdManager * string) :
  nodes !! this = Some n ->
  Dump fmt nodes insts (S k) in_expr (Some this) st
  = Dump_node fmt nodes insts (Dump fmt nodes insts k) in_expr this n st.
Proof.
  intros Hn. cbn [Dump]. unfold mbind, Out_bind, lift. cbn [deref].
  rewrite Hn. reflexivity.
Qed.

Lemma bind_put {B : Type} (s : string) (f : unit -> Out B) (st : IdManager * string) :
  (put s ≫= f) st = f tt (fst st, snd st +:+ s).
Proof. done. Qed.

Lemma PrintId_text (val : Value) (idm : IdManager) (os : string) :
  PrintId val (idm, os)
  = Done (tt, (fst (id_text idm val), os +:+ snd (id_text idm val))).
Proof. unfold PrintId, id_text. simpl. by destruct (GetName idm val). Qed.

Lemma logName_PrintId_text (val : Value) (name : string) (idm : IdManager)
    (os : string) :
  (logName val name;; PrintId val) (idm, os)
  = Done (tt, (fst (id_text (LogName idm val name) val),
               os +:+ snd (id_text (LogName idm val name) val))).
Proof. unfold mbind, Out_bind, logName. simpl. apply PrintId_text. Qed.

End Dump_facts.




(** ** LICM: a second run over one loop

    When the parent scanner is accurate for the loop in both runs, a second
    [ProcessLoop] finds nothing to hoist: what the marking loop of the first
    run left unmarked stays unmarked, and what it marked and left in place
    has no use. *)

Section Marking_conditions.
Context {Ty : Type} `{!BaseType Ty}.
Variable nodes : gmap Value (Node Ty).
Variable GetParent : Value -> option Value.
Variable IsDominate : Value -> Value -> bool.
Variable cur_loop_ : LoopInfo.
Variable gfuel : nat.
Variable stored_ptrs_ : gset Value.
Variable insts : gmap Value (list Value).

Local Abbreviation RunPass' := (RunPass nodes GetParent IsDominate cur_loop_ gfuel stored_ptrs_).
Local Abbreviation sweep' := (sweep nodes GetParent IsDominate cur_loop_ gfuel stored_ptrs_ insts).
Local Abbreviation grows' :=
  (grows nodes GetParent IsDominate cur_loop_ gfuel stored_ptrs_ insts).
Local Abbreviation all_inv := (all_operands_invariant nodes GetParent cur_loop_).

Lemma mark_one_neq (s : Marks) (i : Value) :
  i ∉ marked_invs_ s -> mark_one nodes s i <> s.
Proof. intros Hni Heq. apply Hni. rewrite <- Heq. simpl. set_solver. Qed.

(** What [RunPass] has checked when it marks [i]. *)
Lemma RunPass_marks_inv block s i :
  i ∉ marked_invs_ s ->
  RunPass' block s i = Done (mark_one nodes s i) ->
  exists n,
    nodes !! i = Some n
    /\ hoistable (kind n) = true
    /\ all_inv (marked_invs_ s) (oprs n) = Done true
    /\ dominates_users GetParent IsDominate cur_loop_ block (uses n) = true
    /\ (kind n = LoadSSA ->
        exists b, GetBasePointer nodes gfuel (operand nodes i 0) = Done b
                  /\ b ∉ stored_ptrs_).
Proof.
  intros Hni. pose proof (mark_one_neq s i Hni) as Hneq.
  unfold RunPass, kindOf. destruct (nodes !! i) as [n|] eqn:Hn; [|discriminate].
  simpl. intros Hrun. exists n.
  assert (LogInvariant nodes GetParent IsDominate cur_loop_ block s i
          = Done (mark_one nodes s i) ->
          all_inv (marked_invs_ s) (oprs n) = Done true
          /\ dominates_users GetParent IsDominate cur_loop_ block (uses n) = true)
    as Hlog.
  { unfold LogInvariant. rewrite Hn. simpl.
    destruct (all_inv (marked_invs_ s) (oprs n)) as [[|]| |]; simpl; try congruence.
    destruct (dominates_users _ _ _ _ _); simpl; [done | congruence]. }
  destruct (kind n) eqn:Hk; try congruence;
    try (destruct (Hlog Hrun); split_and!; by try done).
  apply bind_Done in Hrun as (b & Hb & Hrun).
  destruct (decide (b ∈ stored_ptrs_)); [congruence|].
  destruct (Hlog Hrun). split_and!; try done. intros _. eauto.
Qed.

(** And conversely. *)
Lemma RunPass_marks block s i n :
  nodes !! i = Some n ->
  hoistable (kind n) = true ->
  all_inv (marked_invs_ s) (oprs n) = Done true ->
  dominates_users GetParent IsDominate cur_loop_ block (uses n) = true ->
  (kind n = LoadSSA ->
   exists b, GetBasePointer nodes gfuel (operand nodes i 0) = Done b
             /\ b ∉ stored_ptrs_) ->
  RunPass' block s i = Done (mark_one nodes s i).
Proof.
  intros Hn Hk Hops Hdom Hload. unfold RunPass, kindOf. rewrite Hn. simpl.
  assert (LogInvariant nodes GetParent IsDominate cur_loop_ block s i
          = Done (mark_one nodes s i)) as Hlog.
  { unfold LogInvariant. rewrite Hn. simpl. rewrite Hops. simpl. rewrite Hdom. simpl.
    unfold mark_one, usersOf. by rewrite Hn. }
  destruct (kind n); try discriminate; try exact Hlog.
  destruct Hload as (b & -> & Hb); [done|]. simpl. by rewrite decide_False.
Qed.

Lemma all_inv_true_elem marked l v :
  all_inv marked l = Done true -> Some v ∈ l ->
  IsInvariant nodes GetParent cur_loop_ marked v = true.
Proof.
  induction l as [|o l IH]; intros Hrun Hin; [by apply elem_of_nil in Hin|].
  simpl in Hrun. destruct o as [w|]; [|discriminate]. simpl in Hrun.
  destruct (IsInvariant _ _ _ marked w) eqn:Hw; [|discriminate].
  apply elem_of_cons in Hin as [[= ->] | Hin]; auto.
Qed.

Lemma grows_antisym s s' : grows' s s' -> grows' s' s -> s' = s.
Proof.
  intros H1 H2. destruct (grows_size _ _ _ _ _ _ _ _ _ H1) as [-> | Hlt]; [done|].
  destruct (grows_size _ _ _ _ _ _ _ _ _ H2) as [-> | Hlt']; [done | lia].
Qed.

(** After a sweep that changed nothing, [RunPass] leaves every unmarked
    instruction of the loop unmarked. *)
Lemma sweep_fixpoint_elem s block i :
  sweep' s = Done s ->
  block ∈ body cur_loop_ -> i ∈ instsOf insts block -> i ∉ marked_invs_ s ->
  RunPass' block s i = Done s.
Proof.
  intros Hfix Hb Hi Hni. unfold sweep in Hfix.
  assert (PreOrder grows') as Hpre.
  { split; [intros x; constructor | intros x y z; apply grows_trans]. }
  destruct (forM_elem grows' _ _
              (fun s x s' Hx => sweep_block_grows _ _ _ _ _ _ _ s s' x Hx)
              _ _ _ Hfix Hb) as (s1 & s2 & H1 & Hblock & H2).
  unfold sweep_block in Hblock.
  set (step := fun (s : Marks) (i : Value) =>
                 if decide (i ∈ marked_invs_ s) then Done s else RunPass' block s i)
    in Hblock.
  assert (forall s x s', x ∈ instsOf insts block -> step s x = Done s' -> grows' s s')
    as Hstep.
  { intros s0 x s0' Hx Hrun. unfold step in Hrun.
    destruct (decide (x ∈ marked_invs_ s0)) as [|Hnx]; [injection Hrun as <-; constructor|].
    destruct (RunPass_cases _ _ _ _ _ _ _ _ _ _ Hrun) as [-> | ->]; [constructor|].
    eapply grows_step; eauto. constructor. }
  destruct (forM_elem grows' _ _ Hstep _ _ _ Hblock Hi) as (s3 & s4 & H3 & Hrun & H4).
  assert (s3 = s) as ->.
  { apply grows_antisym; [by etrans|].
    etrans; [|exact H2]. etrans; [|exact H4]. by eapply Hstep. }
  assert (s4 = s) as ->.
  { apply grows_antisym; [|by etrans].
    etrans; [exact H1|]. etrans; [exact H3|]. by eapply Hstep. }
  unfold step in Hrun. by rewrite decide_False in Hrun.
Qed.

(** Every mark was set by a [RunPass] that ran on marks set before. *)
Lemma grows_marked_origin s s' u :
  grows' s s' -> u ∈ marked_invs_ s' ->
  u ∈ marked_invs_ s
  \/ exists s1 block,
      block ∈ body cur_loop_ /\ u ∈ instsOf insts block
      /\ (u ∉ marked_invs_ s1)
      /\ marked_invs_ s1 ⊆ marked_invs_ s'
      /\ RunPass' block s1 u = Done (mark_one nodes s1 u).
Proof.
  induction 1 as [|s1 block i Hg IH Hb Hi Hni Hrun]; [by left|].
  simpl. intros [->%elem_of_singleton | Hu]%elem_of_union.
  - right. exists s1, block. split_and!; try done. simpl. set_solver.
  - destruct (IH Hu) as [? | (s2 & b2 & ? & ? & ? & ? & ?)]; [by left|].
    right. exists s2, b2. split_and!; try done. simpl. set_solver.
Qed.
End Marking_conditions.

Lemma forM_filter_skip {A S : Type} (P : A -> Prop) `{!forall x, Decision (P x)}
    (f : S -> A -> Res S) (l : list A) (s : S) :
  (forall s x, x ∈ l -> ~ P x -> f s x = Done s) ->
  forM f (filter P l) s = forM f l s.
Proof.
  revert s. induction l as [|x l IH]; intros s Hskip; [done|].
  assert (forall s, forM f (filter P l) s = forM f l s) as Hl.
  { intros s0. apply IH. intros; apply Hskip; [by right | done]. }
  destruct (decide (P x)).
  - rewrite filter_cons_True by done. simpl. destruct (f s x); simpl; auto.
  - rewrite filter_cons_False by done. simpl.
    rewrite Hskip by (done || by left). simpl. apply Hl.
Qed.

Lemma forM_ext_in {A S : Type} (f g : S -> A -> Res S) (l : list A) (s : S) :
  (forall s x, x ∈ l -> f s x = g s x) -> forM f l s = forM g l s.
Proof.
  revert s. induction l as [|x l IH]; intros s Hext; [done|].
  simpl. rewrite (Hext s x) by (by left).
  destruct (g s x); simpl; auto. apply IH. intros; apply Hext. by right.
Qed.

Lemma hoist_body_filter (GetParent : Value -> option Value) (cur_loop_ : LoopInfo)
    (invs : list Value) (insts insts' : gmap Value (list Value)) :
  hoist GetParent cur_loop_ invs insts = Done insts' ->
  (forall ph, preheader cur_loop_ = Some ph -> ph ∉ body cur_loop_) ->
  (forall block v, block ∈ body cur_loop_ -> v ∈ instsOf insts block ->
                   GetParent v = Some block) ->
  forall block, block ∈ body cur_loop_ ->
                instsOf insts' block = filter (fun x => x ∉ invs) (instsOf insts block).
Proof.
  intros Hh Hout Hparent block Hb.
  apply hoist_spec in Hh as (ph & front & term & Hph & _ & Hall).
  rewrite Hall, decide_False by (intros ->; by eapply Hout).
  apply filter_iff_elem. intros x Hx. rewrite (Hparent block x Hb Hx). tauto.
Qed.

Section Second_run.
Context {Ty : Type} `{!BaseType Ty}.
Variable nodes : gmap Value (Node Ty).
Variable GetParent1 GetParent2 : Value -> option Value.
Variable IsDominate : Value -> Value -> bool.
Variable cur_loop_ : LoopInfo.
Variable gfuel fuel : nat.
Variable insts0 insts1 : gmap Value (list Value).
Variable changed1 : bool.

(** The first run. *)
Hypothesis first_run :
  ProcessLoop nodes GetParent1 IsDominate cur_loop_ gfuel fuel insts0
  = Done (insts1, changed1).
Hypothesis preheader_outside :
  forall ph, preheader cur_loop_ = Some ph -> ph ∉ body cur_loop_.
(** The parent scanner of each run knows the instructions of the loop. *)
Hypothesis parent1_sound : forall v block,
  GetParent1 v = Some block -> block ∈ body cur_loop_ -> v ∈ instsOf insts0 block.
Hypothesis parent1_complete : forall block v,
  block ∈ body cur_loop_ -> v ∈ instsOf insts0 block -> GetParent1 v = Some block.
Hypothesis parent2_complete : forall block v,
  block ∈ body cur_loop_ -> v ∈ instsOf insts1 block -> GetParent2 v = Some block.
(** A user has the value it uses among its operands. *)
Hypothesis uses_are_operands : forall i u,
  u ∈ usersOf nodes i -> exists n, nodes !! u = Some n /\ Some i ∈ oprs n.
(** No constant cast sits in a block of the loop. *)
Hypothesis no_constant_inst : forall block i,
  block ∈ body cur_loop_ -> i ∈ instsOf insts0 block -> IsConst nodes i = false.

Lemma second_run_facts :
  exists stored s1,
    ProcessStores nodes cur_loop_ gfuel insts0 = Done stored
    /\ mark_invariants nodes GetParent1 IsDominate cur_loop_ gfuel stored insts0 fuel
       = Done s1
    /\ forall block, block ∈ body cur_loop_ ->
                     instsOf insts1 block
                     = filter (fun x => x ∉ invs_ s1) (instsOf insts0 block).
Proof.
  apply ProcessLoop_inv in first_run as (stored & s1 & Hst & Hs & Hcase).
  exists stored, s1. split_and!; [done..|]. intros block Hb.
  destruct Hcase as [(Hnil & -> & _) | (_ & _ & Hh)].
  - rewrite Hnil. symmetry. apply filter_all. intros x _. apply not_elem_of_nil.
  - by eapply hoist_body_filter.
Qed.

Lemma second_run_same_stores stored s1 :
  mark_invariants nodes GetParent1 IsDominate cur_loop_ gfuel stored insts0 fuel
    = Done s1 ->
  (forall block, block ∈ body cur_loop_ ->
                 instsOf insts1 block
                 = filter (fun x => x ∉ invs_ s1) (instsOf insts0 block)) ->
  ProcessStores nodes cur_loop_ gfuel insts1 = ProcessStores nodes cur_loop_ gfuel insts0.
Proof.
  intros Hs Hfilter. unfold ProcessStores. apply forM_ext_in. intros st block Hb.
  rewrite (Hfilter block Hb). apply forM_filter_skip. intros st' x Hx Hin.
  assert (x ∈ invs_ s1) as Hinv by (destruct (decide (x ∈ invs_ s1)); tauto).
  pose proof Hs as [[_ Hiff] _]%marks_invs_ok.
  apply Hiff in Hinv as [Hm _].
  pose proof Hs as Hg1. apply mark_loop_grows in Hg1.
  eapply grows_marked_origin in Hg1 as [[]%not_elem_of_empty | (s2 & b2 & _ & _ & Hni & _ & Hrun)];
    [|exact Hm].
  apply RunPass_marks_inv in Hrun as (n & Hn & Hk & _); [|done].
  unfold ProcessStores_inst, kindOf. rewrite Hn. simpl.
  by destruct (kind n).
Qed.

(** The marks of the second run are marks of the first run. *)
Lemma second_run_marks stored s1 s s' :
  mark_invariants nodes GetParent1 IsDominate cur_loop_ gfuel stored insts0 fuel
    = Done s1 ->
  (forall block, block ∈ body cur_loop_ ->
                 instsOf insts1 block
                 = filter (fun x => x ∉ invs_ s1) (instsOf insts0 block)) ->
  grows nodes GetParent2 IsDominate cur_loop_ gfuel stored insts1 s s' ->
  marked_invs_ s ⊆ marked_invs_ s1 ->
  marked_invs_ s' ⊆ marked_invs_ s1.
Proof.
  intros Hs Hfilter Hg Hsub.
  pose proof Hs as [[_ Hiff] _]%marks_invs_ok.
  pose proof Hs as Hg1. apply mark_loop_grows in Hg1.
  assert (sweep nodes GetParent1 IsDominate cur_loop_ gfuel stored insts0 s1 = Done s1)
    as Hfix.
  { eapply mark_loop_stable; [|exact Hs]. unfold marked_invs_. rewrite size_empty. lia. }
  induction Hg as [|s2 block i Hg IH Hb Hi Hni Hrun]; [done|].
  simpl.
  destruct (decide (i ∈ marked_invs_ s1)) as [|Hn1]; [set_solver|]. exfalso.
  rewrite (Hfilter block Hb) in Hi. apply list_elem_of_filter in Hi as [Hnh Hi0].
  apply RunPass_marks_inv in Hrun as (n & Hn & Hk & Hops & Hdom & Hload); [|done].
  (* the first run would have marked [i] in its last sweep *)
  assert (mark_one nodes s1 i <> s1) as Hneq by (by apply mark_one_neq).
  apply Hneq.
  assert (RunPass nodes GetParent1 IsDominate cur_loop_ gfuel stored block s1 i
          = Done (mark_one nodes s1 i)) as Hmark; [|].
  2: { erewrite sweep_fixpoint_elem in Hmark by done. by injection Hmark. }
  pose proof (parent1_complete block i Hb Hi0) as Hpi.
  eapply RunPass_marks; [exact Hn | exact Hk | | | exact Hload].
  - (* operands *)
    clear Hdom Hload. revert Hops. generalize (oprs n) as l.
    induction l as [|o l IHl]; [done|]. simpl. destruct o as [v|]; [|done]. simpl.
    destruct (IsInvariant nodes GetParent2 cur_loop_ (marked_invs_ s2) v) eqn:Hv2;
      [|discriminate].
    intros Hl. rewrite (IHl Hl).
    assert (IsInvariant nodes GetParent1 cur_loop_ (marked_invs_ s1) v = true) as ->;
      [|done].
    unfold IsInvariant in *.
    destruct (IsConst nodes v || IsUndef nodes v); [done|].
    destruct (IsSSA_ArgRef nodes v || IsSSA_GlobalVar nodes v); [done|]. simpl in *.
    destruct (in_body cur_loop_ (GetParent1 v)) eqn:Hb1; [|done]. simpl.
    apply bool_decide_eq_true.
    destruct (GetParent1 v) as [bv|] eqn:Hp1; [|discriminate]. simpl in Hb1.
    apply bool_decide_eq_true in Hb1.
    pose proof (parent1_sound v bv Hp1 Hb1) as Hv0.
    destruct (decide (v ∈ invs_ s1)) as [Hvh|Hvh]; [by apply Hiff in Hvh as [? _]|].
    assert (v ∈ instsOf insts1 bv) as Hv1.
    { rewrite (Hfilter bv Hb1). apply list_elem_of_filter. done. }
    rewrite (parent2_complete bv v Hb1 Hv1) in Hv2. simpl in Hv2.
    rewrite bool_decide_eq_true_2 in Hv2 by done. simpl in Hv2.
    apply bool_decide_eq_true in Hv2. set_solver.
  - (* users *)
    unfold dominates_users in *. apply forallb_forall. intros u Hu.
    rewrite forallb_forall in Hdom. specialize (Hdom u Hu).
    destruct (in_body cur_loop_ (GetParent1 u)) eqn:Hb1; [|done].
    destruct (GetParent1 u) as [bu|] eqn:Hp1; [|done]. simpl in Hb1.
    apply bool_decide_eq_true in Hb1.
    pose proof (parent1_sound u bu Hp1 Hb1) as Hu0.
    destruct (decide (u ∈ invs_ s1)) as [Huh|Huh].
    + (* a hoisted user: [i] was invariant when the user was marked *)
      exfalso. apply Hiff in Huh as [Hum _].
      eapply grows_marked_origin in Hg1
        as [[]%not_elem_of_empty | (su & b' & _ & _ & Hnu & Hsu & Hrunu)]; [|exact Hum].
      apply RunPass_marks_inv in Hrunu as (nu & Hnu' & _ & Hopsu & _); [|done].
      destruct (uses_are_operands i u) as (nu' & Hnu'' & Hin).
      { unfold usersOf. rewrite Hn. simpl. by apply list_elem_of_In. }
      assert (nu' = nu) as -> by congruence.
      pose proof Hopsu as Hinv. eapply all_inv_true_elem in Hinv; [|exact Hin].
      unfold IsInvariant in Hinv.
      rewrite (no_constant_inst block i Hb Hi0) in Hinv.
      assert (IsUndef nodes i = false /\ IsSSA_ArgRef nodes i = false
              /\ IsSSA_GlobalVar nodes i = false) as (Hk1 & Hk2 & Hk3).
      { unfold IsUndef, IsSSA_ArgRef, IsSSA_GlobalVar, kindOf. rewrite Hn. simpl.
        by destruct (kind n). }
      rewrite Hk1, Hk2, Hk3, Hpi in Hinv. simpl in Hinv.
      rewrite bool_decide_eq_true_2 in Hinv by done. simpl in Hinv.
      apply bool_decide_eq_true in Hinv. set_solver.
    + assert (u ∈ instsOf insts1 bu) as Hu1.
      { rewrite (Hfilter bu Hb1). apply list_elem_of_filter. done. }
      rewrite (parent2_complete bu u Hb1 Hu1) in Hdom. simpl in Hdom.
      by rewrite bool_decide_eq_true_2 in Hdom.
Qed.

(** A second [ProcessLoop] over the same loop reports no change and leaves
    the instruction lists as they are. *)
Lemma second_run_on_one_loop (fuel2 : nat) (insts2 : gmap Value (list Value))
    (changed2 : bool) :
  ProcessLoop nodes GetParent2 IsDominate cur_loop_ gfuel fuel2 insts1
    = Done (insts2, changed2) ->
  changed2 = false /\ insts2 = insts1.
Proof.
  intros Hrun2.
  destruct second_run_facts as (stored & s1 & Hst & Hs & Hfilter).
  apply ProcessLoop_inv in Hrun2 as (stored2 & s2 & Hst2 & Hs2 & Hcase).
  rewrite (second_run_same_stores _ _ Hs Hfilter), Hst in Hst2.
  injection Hst2 as <-.
  destruct Hcase as [(_ & -> & ->) | (Hne & _ & _)]; [done|]. exfalso.
  pose proof Hs as [[_ Hiff1] _]%marks_invs_ok.
  pose proof Hs2 as [[_ Hiff2] Hsub2]%marks_invs_ok.
  pose proof Hs2 as Hg2. apply mark_loop_grows in Hg2.
  pose proof (second_run_marks _ _ _ _ Hs Hfilter Hg2 ltac:(set_solver)) as Hin1.
  destruct (invs_ s2) as [|i l] eqn:Hinvs; [done|].
  assert (i ∈ i :: l) as Hi by left.
  apply Hiff2 in Hi as [Hm2 Hu].
  assert (i ∉ invs_ s1) as Hnh.
  { apply Hsub2 in Hm2. apply elem_of_list_to_set in Hm2. unfold loop_insts in Hm2.
    apply list_elem_of_bind in Hm2 as (block & Hi1 & Hb).
    rewrite (Hfilter block Hb) in Hi1. by apply list_elem_of_filter in Hi1 as [? _]. }
  apply Hnh, Hiff1. split; [by apply Hin1 | done].
Qed.
End Second_run.

(** The loop of [loop1_nodes], run twice with the parent scanner rebuilt in
    between: the first run hoists [%40] and [%41], the second marks [%42]
    (which has no use) and reports no change. *)
Lemma second_run_on_loop1 :
  ProcessLoop loop1_nodes loop1_parent loop1_dom loop1 5 10 loop1_insts
    = Done (loop1_hoisted, true)
  /\ exists insts2 changed2,
       ProcessLoop loop1_nodes loop1_parent_again loop1_dom loop1 5 10 loop1_hoisted
         = Done (insts2, changed2)
       /\ changed2 = false /\ insts2 = loop1_hoisted.
Proof.
  assert (ProcessLoop loop1_nodes loop1_parent loop1_dom loop1 5 10 loop1_insts
          = Done (loop1_hoisted, true)) as Hrun1 by by_compute.
  split; [exact Hrun1|].
  assert (ProcessLoop loop1_nodes loop1_parent_again loop1_dom loop1 5 10 loop1_hoisted
          = Done (loop1_hoisted, false))
    as Hrun2 by by_compute.
  exists loop1_hoisted, false. split; [exact Hrun2|].
  eapply (second_run_on_one_loop loop1_nodes loop1_parent loop1_parent_again loop1_dom loop1
            5 10 loop1_insts loop1_hoisted true Hrun1); [| | | | | |exact Hrun2].
  - intros ph [= <-] Hin. apply (bool_decide_pack _) in Hin. vm_compute in Hin.
    exact Hin.
  - intros v block Hp. revert v block Hp.
    change (map_Forall (fun v block => block ∈ body loop1 -> v ∈ instsOf loop1_insts block)
                       (ParentScanner loop1_nodes loop1_insts 100)).
    apply (bool_decide_unpack _). vm_compute. exact I.
  - each_loop_inst by_compute.
  - each_loop_inst by_compute.
  - intros i u Hu.
    assert (map_Forall (fun (i : Value) (n : Node Ty) =>
              Forall (fun u => Is_true match loop1_nodes !! u with
                                       | Some n' => bool_decide (Some i ∈ oprs n')
                                       | None => false
                                       end) (uses n)) loop1_nodes) as Hall.
    { apply (bool_decide_unpack _). vm_compute. exact I. }
    unfold usersOf in Hu. destruct (loop1_nodes !! i) as [n|] eqn:Hn;
      [|by apply elem_of_nil in Hu].
    simpl in Hu. apply Hall in Hn. rewrite List.Forall_forall in Hn.
    apply list_elem_of_In in Hu. apply Hn in Hu.
    destruct (loop1_nodes !! u) as [n'|]; [|contradiction].
    exists n'. split; [reflexivity|]. exact (bool_decide_unpack _ Hu).
  - each_loop_inst by_compute.
Qed.

(** ** LICM: what the marking loop marks and what the hoist moves *)

Section Marking_soundness.
Context {Ty : Type} `{!BaseType Ty}.
Variable nodes : gmap Value (Node Ty).
Variable GetParent : Value -> option Value.
Variable IsDominate : Value -> Value -> bool.
Variable cur_loop_ : LoopInfo.
Variable gfuel : nat.
Variable stored_ptrs_ : gset Value.
Variable insts : gmap Value (list Value).

Local Abbreviation RunPass' := (RunPass nodes GetParent IsDominate cur_loop_ gfuel stored_ptrs_).
Local Abbreviation grows' :=
  (grows nodes GetParent IsDominate cur_loop_ gfuel stored_ptrs_ insts).
Local Abbreviation all_inv := (all_operands_invariant nodes GetParent cur_loop_).
Local Abbreviation IsInvariant' := (IsInvariant nodes GetParent cur_loop_).

Lemma IsInvariant_mono (marked marked' : gset Value) (v : Value) :
  marked ⊆ marked' -> IsInvariant' marked v = true -> IsInvariant' marked' v = true.
Proof.
  intros Hsub. unfold IsInvariant.
  destruct (IsConst nodes v || IsUndef nodes v); [done|].
  destruct (IsSSA_ArgRef nodes v || IsSSA_GlobalVar nodes v); [done|].
  destruct (negb _); [done|]. simpl.
  intros Hv%bool_decide_eq_true. apply bool_decide_eq_true. set_solver.
Qed.

Lemma IsInvariant_marked (marked : gset Value) (v : Value) :
  IsInvariant' marked v = true -> IsInvariant' ∅ v = false -> v ∈ marked.
Proof.
  unfold IsInvariant.
  destruct (IsConst nodes v || IsUndef nodes v); [done|].
  destruct (IsSSA_ArgRef nodes v || IsSSA_GlobalVar nodes v); [done|].
  destruct (negb _); [done|]. simpl.
  by intros Hv%bool_decide_eq_true _.
Qed.

Lemma all_inv_no_null (marked : gset Value) (l : list (option Value)) :
  all_inv marked l = Done true -> None ∉ l.
Proof.
  induction l as [|o l IH]; [intros _ []%elem_of_nil|].
  simpl. destruct o as [v|]; [|discriminate]. simpl.
  destruct (IsInvariant _ _ _ _ _); [|discriminate].
  intros Hl [[=] | Hin]%elem_of_cons. by apply IH.
Qed.

(** What holds of an instruction once the marking has ended. *)
Lemma grows_marked_sound (s : Marks) (i : Value) :
  grows' {| marked_invs_ := ∅; invs_ := [] |} s ->
  i ∈ marked_invs_ s ->
  exists n block,
    nodes !! i = Some n
    /\ hoistable (kind n) = true
    /\ block ∈ body cur_loop_ /\ i ∈ instsOf insts block
    /\ (None ∉ oprs n)
    /\ (forall v, Some v ∈ oprs n -> IsInvariant' (marked_invs_ s) v = true)
    /\ dominates_users GetParent IsDominate cur_loop_ block (uses n) = true.
Proof.
  intros Hg Hi.
  eapply grows_marked_origin in Hg
      as [[]%not_elem_of_empty | (s1 & block & Hb & Hin & Hni & Hsub & Hrun)];
    [|exact Hi].
  apply RunPass_marks_inv in Hrun as (n & Hn & Hk & Hops & Hdom & _); [|done].
  exists n, block. split_and!; try done.
  - by eapply all_inv_no_null.
  - intros v Hv. eapply IsInvariant_mono; [exact Hsub|]. by eapply all_inv_true_elem.
Qed.

(** The operands that only a mark can make invariant are marked before
    their users, and [invs_] lists them in that order. *)
Lemma grows_operands_first (s : Marks) :
  grows' {| marked_invs_ := ∅; invs_ := [] |} s ->
  forall i n v,
    i ∈ marked_invs_ s -> nodes !! i = Some n -> Some v ∈ oprs n ->
    IsInvariant' ∅ v = false ->
    v ∈ marked_invs_ s
    /\ (usersOf nodes v <> [] -> i ∈ invs_ s -> comes_before v i (invs_ s)).
Proof.
  intros Hg.
  assert (invs_ok nodes {| marked_invs_ := ∅; invs_ := [] |}) as Hok0.
  { split; [constructor|]. simpl. intros i. split; [intros []%elem_of_nil | set_solver]. }
  induction Hg as [|s1 block i0 Hg IH Hb Hi0 Hni Hrun].
  { intros i n v []%not_elem_of_empty. }
  pose proof Hg as Hok. eapply grows_invs_ok in Hok; [|exact Hok0].
  destruct Hok as [Hnd Hiff].
  intros i n v Hi Hn Hv Hvar. simpl in Hi.
  assert (invs_ (mark_one nodes s1 i0) = invs_ s1
          \/ invs_ (mark_one nodes s1 i0) = invs_ s1 ++ [i0]) as Hinvs.
  { unfold mark_one. simpl. destruct (usersOf nodes i0); auto. }
  apply elem_of_union in Hi as [->%elem_of_singleton | Hi].
  - apply RunPass_marks_inv in Hrun as (n' & Hn' & _ & Hops & _); [|done].
    assert (n' = n) as -> by congruence.
    assert (v ∈ marked_invs_ s1) as Hvm.
    { apply IsInvariant_marked; [|done]. by eapply all_inv_true_elem. }
    split; [simpl; set_solver|]. intros Hu Hin.
    assert (v ∈ invs_ s1) as Hvin by (by apply Hiff).
    destruct Hinvs as [Heq | Heq]; rewrite Heq in Hin |- *.
    + apply Hiff in Hin. tauto.
    + apply list_elem_of_split in Hvin as (l1 & l2 & ->).
      exists l1, l2, []. by rewrite <- app_assoc.
  - destruct (IH i n v Hi Hn Hv Hvar) as [Hvm Hord].
    split; [simpl; set_solver|]. intros Hu Hin.
    assert (i <> i0) as Hne by (intros Heq; subst; contradiction).
    assert (i ∈ invs_ s1) as Hin1.
    { destruct Hinvs as [Heq | Heq]; rewrite Heq in Hin; try done.
      apply elem_of_app in Hin as [? | ?%list_elem_of_singleton]; done. }
    destruct (Hord Hu Hin1) as (l1 & l2 & l3 & Heq1).
    destruct Hinvs as [Heq | Heq]; rewrite Heq, Heq1.
    + by exists l1, l2, l3.
    + exists l1, l2, (l3 ++ [i0]). by repeat (rewrite <- app_assoc; simpl).
Qed.
End Marking_soundness.

(** X1. Every instruction that the marking loop marks is an access, a
    binary or unary operation, a cast, a select or a load, lies in a block
    of the loop, has no null operand, has only operands that are invariant
    with respect to the final set of marks, and lies in a block that
    dominates the blocks of its users inside the loop. *)
Theorem marked_instructions_meet_the_conditions {Ty : Type} `{!BaseType Ty}
    (nodes : gmap Value (Node Ty)) (GetParent : Value -> option Value)
    (IsDominate : Value -> Value -> bool) (cur_loop_ : LoopInfo) (gfuel fuel : nat)
    (stored : gset Value) (insts : gmap Value (list Value)) (s : Marks) :
  mark_invariants nodes GetParent IsDominate cur_loop_ gfuel stored insts fuel = Done s ->
  forall i, i ∈ marked_invs_ s ->
    exists n block,
      nodes !! i = Some n
      /\ hoistable (kind n) = true
      /\ block ∈ body cur_loop_ /\ i ∈ instsOf insts block
      /\ (None ∉ oprs n)
      /\ (forall v, Some v ∈ oprs n ->
                    IsInvariant nodes GetParent cur_loop_ (marked_invs_ s) v = true)
      /\ dominates_users GetParent IsDominate cur_loop_ block (uses n) = true.
Proof.
  intros Hs i Hi. apply mark_loop_grows in Hs.
  eapply grows_marked_sound; [exact Hs | exact Hi].
Qed.

(** X2. In [invs_], and so in the pre-header, an operand that varies unless
    it is marked (it is no constant, argument or global and its parent is a
    block of the loop) stands before the instruction that uses it. *)
Theorem hoisted_operand_precedes_user {Ty : Type} `{!BaseType Ty}
    (nodes : gmap Value (Node Ty)) (GetParent : Value -> option Value)
    (IsDominate : Value -> Value -> bool) (cur_loop_ : LoopInfo) (gfuel fuel : nat)
    (stored : gset Value) (insts : gmap Value (list Value)) (s : Marks)
    (i v : Value) (n : Node Ty) :
  mark_invariants nodes GetParent IsDominate cur_loop_ gfuel stored insts fuel = Done s ->
  i ∈ invs_ s ->
  nodes !! i = Some n ->
  Some v ∈ oprs n ->
  i ∈ usersOf nodes v ->
  IsInvariant nodes GetParent cur_loop_ ∅ v = false ->
  v ∈ invs_ s /\ comes_before v i (invs_ s).
Proof.
  intros Hs Hi Hn Hv Hu Hvar.
  pose proof Hs as [[_ Hiff] _]%marks_invs_ok.
  apply mark_loop_grows in Hs.
  assert (usersOf nodes v <> []) as Hne by (intros Heq; rewrite Heq in Hu; by apply elem_of_nil in Hu).
  pose proof Hi as [Him _]%Hiff.
  eapply grows_operands_first in Hs as [Hvm Hord]; [|exact Him|exact Hn|exact Hv|exact Hvar].
  split; [by apply Hiff | by apply Hord].
Qed.

Lemma filter_none {A : Type} (P : A -> Prop) `{!forall x, Decision (P x)} (l : list A) :
  (forall x, x ∈ l -> ~ P x) -> filter P l = [].
Proof.
  induction l as [|x l IH]; [done|]. intros Hno.
  rewrite filter_cons_False by (apply Hno; by left).
  apply IH. intros y Hy. apply Hno. by right.
Qed.

Lemma invs_are_hoistable {Ty : Type} `{!BaseType Ty}
    (nodes : gmap Value (Node Ty)) (GetParent : Value -> option Value)
    (IsDominate : Value -> Value -> bool) (cur_loop_ : LoopInfo) (gfuel fuel : nat)
    (stored : gset Value) (insts : gmap Value (list Value)) (s : Marks) (i : Value) :
  mark_invariants nodes GetParent IsDominate cur_loop_ gfuel stored insts fuel = Done s ->
  i ∈ invs_ s -> is_hoistable nodes i = true.
Proof.
  intros Hs Hi. pose proof Hs as [[_ Hiff] _]%marks_invs_ok.
  apply Hiff in Hi as [Hi _]. apply mark_loop_grows in Hs.
  eapply grows_marked_sound in Hs as (n & _ & Hn & Hk & _); [|exact Hi].
  unfold is_hoistable, kindOf. by rewrite Hn.
Qed.

(** X3. [ProcessLoop] moves nothing but accesses, binary and unary
    operations, casts, selects and loads: in every block, the sequence of
    the other instructions (stores, calls, phis, allocas, branches, jumps,
    returns) is the same after the run as before. *)
Theorem ProcessLoop_keeps_the_other_classes {Ty : Type} `{!BaseType Ty}
    (nodes : gmap Value (Node Ty)) (GetParent : Value -> option Value)
    (IsDominate : Value -> Value -> bool) (cur_loop_ : LoopInfo) (gfuel fuel : nat)
    (insts insts' : gmap Value (list Value)) (ch : bool) :
  ProcessLoop nodes GetParent IsDominate cur_loop_ gfuel fuel insts = Done (insts', ch) ->
  forall block,
    filter (fun i => is_hoistable nodes i = false) (instsOf insts' block)
    = filter (fun i => is_hoistable nodes i = false) (instsOf insts block).
Proof.
  intros Hrun block.
  apply ProcessLoop_inv in Hrun as (stored & s & _ & Hs & Hcase).
  destruct Hcase as [(_ & -> & _) | (_ & _ & Hh)]; [done|].
  apply hoist_spec in Hh as (ph & front & term & _ & Hph & Hall).
  assert (forall x, x ∈ invs_ s -> is_hoistable nodes x = true) as Hinv
    by (intros x; by eapply invs_are_hoistable).
  rewrite Hall, list_filter_filter.
  transitivity (filter (fun i => is_hoistable nodes i = false)
                       (if decide (ph = block) then front ++ invs_ s ++ [term]
                        else instsOf insts block)).
  { apply filter_iff_elem. intros x _. split; [tauto|]. intros Hx. split; [done|].
    intros [Hin _]. apply Hinv in Hin. congruence. }
  destruct (decide (ph = block)) as [<-|]; [|done].
  rewrite Hph, !filter_app.
  rewrite (filter_none _ (invs_ s)); [done|].
  intros x Hx. apply Hinv in Hx. congruence.
Qed.

Lemma forM_not_Done {A S : Type} (P : S -> Prop) (f : S -> A -> Res S) (l : list A)
    (x : A) :
  (forall s y s', y ∈ l -> P s -> f s y = Done s' -> P s') ->
  (forall s s', P s -> f s x <> Done s') ->
  x ∈ l ->
  forall s s', P s -> forM f l s <> Done s'.
Proof.
  intros Hstep Hx. induction l as [|y l IH]; [by intros ?%elem_of_nil|].
  intros Hin s s' Hs. simpl. destruct (f s y) as [s1| |] eqn:Hy; simpl; try done.
  apply elem_of_cons in Hin as [-> | Hin].
  - by apply Hx in Hy.
  - apply IH; [|done|].
    + intros s0 z s0' Hz. apply Hstep. by right.
    + eapply Hstep; [|exact Hs|exact Hy]. by left.
Qed.

Section Alloca.
Context {Ty : Type} `{!BaseType Ty}.
Variable nodes : gmap Value (Node Ty).
Variable GetParent : Value -> option Value.
Variable IsDominate : Value -> Value -> bool.
Variable cur_loop_ : LoopInfo.
Variable gfuel : nat.
Variable stored_ptrs_ : gset Value.
Variable insts : gmap Value (list Value).
Variable block i : Value.

Hypothesis in_loop : block ∈ body cur_loop_.
Hypothesis in_block : i ∈ instsOf insts block.
Hypothesis is_alloca : kindOf nodes i = Some AllocaSSA.

Local Abbreviation sweep' := (sweep nodes GetParent IsDominate cur_loop_ gfuel stored_ptrs_ insts).
Local Abbreviation grows' :=
  (grows nodes GetParent IsDominate cur_loop_ gfuel stored_ptrs_ insts).
Local Abbreviation start := {| marked_invs_ := ∅; invs_ := [] |}.

Lemma alloca_never_marked (s : Marks) : grows' start s -> i ∉ marked_invs_ s.
Proof.
  intros Hg Hi. eapply grows_marked_sound in Hg as (n & _ & Hn & Hk & _); [|exact Hi].
  unfold kindOf in is_alloca. rewrite Hn in is_alloca. simpl in is_alloca.
  injection is_alloca as Heq. by rewrite Heq in Hk.
Qed.

Lemma sweep_stops_at_alloca (s : Marks) : sweep' start <> Done s.
Proof.
  unfold sweep.
  apply (forM_not_Done (fun s => grows' start s) _ _ block); [| |done|constructor].
  - intros s0 b s0' Hb Hg Hrun. eapply grows_trans; [exact Hg|].
    by eapply sweep_block_grows.
  - intros s0 s0' Hg. unfold sweep_block.
    apply (forM_not_Done (fun s => grows' start s) _ _ i); [| |done|done].
    + intros s1 y s1' Hy Hg1 Hrun.
      destruct (decide (y ∈ marked_invs_ s1)) as [|Hny]; [by injection Hrun as <-|].
      pose proof Hrun as [-> | ->]%RunPass_cases; [done|].
      eapply grows_step; eauto.
    + intros s1 s1' Hg1. rewrite decide_False by (by apply alloca_never_marked).
      unfold RunPass. by rewrite is_alloca.
Qed.

Lemma marking_stops_at_alloca (fuel : nat) (s : Marks) :
  mark_invariants nodes GetParent IsDominate cur_loop_ gfuel stored_ptrs_ insts fuel
  <> Done s.
Proof.
  unfold mark_invariants. destruct fuel as [|fuel]; simpl.
  - destruct (decide _) as [Heq|_]; [by vm_compute in Heq | done].
  - destruct (decide _) as [Heq|_]; [by vm_compute in Heq|].
    destruct (sweep' start) as [s1| |] eqn:Hsw; simpl; try done.
    by apply sweep_stops_at_alloca in Hsw.
Qed.
End Alloca.

(** X4. [RunOn(AllocaSSA&)] is [assert(false)]: on a loop that holds an
    alloca in one of its blocks [ProcessLoop] never returns normally, and
    once [ProcessStores] has returned and the base pointers of the loop's
    loads are found, the first sweep of the marking loop fails the
    assertion. *)
Theorem alloca_in_loop_fails_the_assertion {Ty : Type} `{!BaseType Ty}
    (nodes : gmap Value (Node Ty)) (GetParent : Value -> option Value)
    (IsDominate : Value -> Value -> bool) (cur_loop_ : LoopInfo) (gfuel : nat)
    (insts : gmap Value (list Value)) (block i : Value) :
  block ∈ body cur_loop_ ->
  i ∈ instsOf insts block ->
  kindOf nodes i = Some AllocaSSA ->
  (forall fuel r,
      ProcessLoop nodes GetParent IsDominate cur_loop_ gfuel fuel insts <> Done r)
  /\ (forall fuel stored,
         ProcessStores nodes cur_loop_ gfuel insts = Done stored ->
         (forall b l, b ∈ body cur_loop_ -> l ∈ instsOf insts b ->
                      kindOf nodes l = Some LoadSSA ->
                      GetBasePointer nodes gfuel (operand nodes l 0) <> NoFuel) ->
         ProcessLoop nodes GetParent IsDominate cur_loop_ gfuel (S fuel) insts = Abort).
Proof.
  intros Hb Hi Hk. split.
  - intros fuel [insts' ch] Hrun.
    apply ProcessLoop_inv in Hrun as (stored & s & _ & Hs & _).
    by eapply marking_stops_at_alloca in Hs.
  - intros fuel stored Hst Hbase. unfold ProcessLoop. rewrite Hst. simpl.
    unfold mark_invariants. simpl.
    destruct (decide _) as [Heq|_]; [by vm_compute in Heq|].
    destruct (sweep nodes GetParent IsDominate cur_loop_ gfuel stored insts _)
      as [s1| |] eqn:Hsw; simpl; [| done |].
    + by eapply sweep_stops_at_alloca in Hsw.
    + by eapply sweep_not_NoFuel in Hsw.
Qed.

Lemma loop_insts_filter (P : Value -> Prop) `{!forall x, Decision (P x)}
    (cur_loop_ : LoopInfo) (insts insts' : gmap Value (list Value)) :
  (forall block, block ∈ body cur_loop_ ->
                 instsOf insts' block = filter P (instsOf insts block)) ->
  loop_insts cur_loop_ insts' = filter P (loop_insts cur_loop_ insts).
Proof.
  unfold loop_insts. induction (body cur_loop_) as [|b bs IH]; intros Hall; [done|].
  simpl. rewrite filter_app, Hall by (by left). f_equal.
  apply IH. intros block Hb. apply Hall. by right.
Qed.

Lemma hoist_accurate (GetParent : Value -> option Value) (cur_loop_ : LoopInfo)
    (invs : list Value) (insts insts' : gmap Value (list Value)) (ph : Value) :
  hoist GetParent cur_loop_ invs insts = Done insts' ->
  preheader cur_loop_ = Some ph ->
  ph ∉ body cur_loop_ ->
  (forall block i, block ∈ body cur_loop_ -> i ∈ instsOf insts block ->
                   GetParent i = Some block) ->
  (forall i, i ∈ invs -> i ∈ loop_insts cur_loop_ insts) ->
  exists front term,
    instsOf insts ph = front ++ [term]
    /\ instsOf insts' ph = front ++ invs ++ [term]
    /\ (forall block, block ∈ body cur_loop_ ->
                      instsOf insts' block = filter (fun x => x ∉ invs) (instsOf insts block))
    /\ (forall block, block ∉ body cur_loop_ -> block <> ph ->
                      instsOf insts' block = instsOf insts block).
Proof.
  intros Hh Hph Hout Hparent Hsub.
  assert (forall x, x ∈ invs -> exists b, b ∈ body cur_loop_ /\ GetParent x = Some b)
    as Hwhere.
  { intros x Hx. apply Hsub in Hx. unfold loop_insts in Hx.
    apply list_elem_of_bind in Hx as (b & Hx & Hb). exists b. split; [done|].
    by apply Hparent. }
  pose proof Hh as (ph' & front & term & Hph' & Hfront & Hall)%hoist_spec.
  assert (ph' = ph) as -> by congruence.
  exists front, term. split_and!; [done| | |].
  - rewrite Hall, decide_True by done. apply filter_all.
    intros x _ [Hx Hp]. apply Hwhere in Hx as (b & Hb & Hp'). congruence.
  - eapply hoist_body_filter; [exact Hh| |done].
    intros ph0 Hp. rewrite Hph in Hp. by injection Hp as <-.
  - intros block Hnb Hne. rewrite Hall, decide_False by done. apply filter_all.
    intros x _ [Hx Hp]. apply Hwhere in Hx as (b & Hb & Hp'). congruence.
Qed.

(** X5. With a pre-header outside the loop, a parent scanner that knows the
    instructions of the loop and no instruction listed twice in the loop,
    [ProcessLoop] neither loses nor duplicates an instruction: what leaves
    the blocks of the loop is what the pre-header gains, and every other
    block keeps its list. *)
Theorem ProcessLoop_keeps_every_instruction {Ty : Type} `{!BaseType Ty}
    (nodes : gmap Value (Node Ty)) (GetParent : Value -> option Value)
    (IsDominate : Value -> Value -> bool) (cur_loop_ : LoopInfo) (gfuel fuel : nat)
    (insts insts' : gmap Value (list Value)) (ch : bool) (ph : Value) :
  ProcessLoop nodes GetParent IsDominate cur_loop_ gfuel fuel insts = Done (insts', ch) ->
  preheader cur_loop_ = Some ph ->
  ph ∉ body cur_loop_ ->
  (forall block i, block ∈ body cur_loop_ -> i ∈ instsOf insts block ->
                   GetParent i = Some block) ->
  NoDup (loop_insts cur_loop_ insts) ->
  exists moved,
    (ch = true <-> moved <> [])
    /\ loop_insts cur_loop_ insts ≡ₚ loop_insts cur_loop_ insts' ++ moved
    /\ instsOf insts' ph ≡ₚ instsOf insts ph ++ moved
    /\ (forall block, block ∉ body cur_loop_ -> block <> ph ->
                      instsOf insts' block = instsOf insts block).
Proof.
  intros Hrun Hph Hout Hparent Hnd.
  apply ProcessLoop_inv in Hrun as (stored & s & _ & Hs & Hcase).
  pose proof Hs as [[Hnd' Hiff] Hsub]%marks_invs_ok.
  exists (invs_ s).
  destruct Hcase as [(Hnil & -> & ->) | (Hne & -> & Hh)].
  { rewrite Hnil, !app_nil_r. split_and!; done. }
  assert (forall i, i ∈ invs_ s -> i ∈ loop_insts cur_loop_ insts) as Hin.
  { intros i [Hi _]%Hiff. apply Hsub in Hi. by apply elem_of_list_to_set in Hi. }
  destruct (hoist_accurate _ _ _ _ _ _ Hh Hph Hout Hparent Hin)
    as (front & term & Hfront & Hph' & Hbody & Hother).
  split_and!; [done| | |done].
  - rewrite (loop_insts_filter (fun x => x ∉ invs_ s) _ _ _ Hbody).
    rewrite <- (filter_app_complement (fun x => x ∉ invs_ s) (loop_insts cur_loop_ insts))
      at 1.
    apply Permutation_app_head. apply NoDup_Permutation; [by apply NoDup_filter|done|].
    intros x. rewrite list_elem_of_filter. split.
    + intros [Hx _]. destruct (decide (x ∈ invs_ s)); tauto.
    + intros Hx. split; [tauto | by apply Hin].
  - rewrite Hph', Hfront, <- !app_assoc. apply Permutation_app_head.
    apply Permutation_app_comm.
Qed.

Section GetBasePointer_result.
Context {Ty : Type} `{!BaseType Ty}.
Variable nodes : gmap Value (Node Ty).

Lemma GetBasePointer_step_base (ptr b : Value) :
  GetBasePointer_step nodes ptr = Done (inr b) ->
  b = ptr /\ exists n, nodes !! ptr = Some n /\ is_base (kind n) = true.
Proof.
  unfold GetBasePointer_step. destruct (nodes !! ptr) as [n|]; [|discriminate].
  simpl. destruct (kind n) eqn:Hk; try (intros [= <-]; split; [done|]; exists n;
                                        rewrite Hk; by split); try discriminate.
  destruct (forM _ _ _); discriminate.
Qed.

Lemma GetBasePointer_base_step (b : Value) (n : Node Ty) :
  nodes !! b = Some n -> is_base (kind n) = true ->
  GetBasePointer_step nodes b = Done (inr b).
Proof.
  intros Hn Hk. unfold GetBasePointer_step. rewrite Hn. simpl.
  by destruct (kind n).
Qed.
End GetBasePointer_result.

(** X6. What [GetBasePointer] returns is an object that is neither an
    access, nor a cast, nor a phi, and it is its own base pointer: a second
    call on the result returns at once. *)
Theorem GetBasePointer_returns_a_base {Ty : Type} `{!BaseType Ty}
    (nodes : gmap Value (Node Ty)) (fuel : nat) (ptr : option Value) (b : Value) :
  GetBasePointer nodes fuel ptr = Done b ->
  (exists n, nodes !! b = Some n /\ is_base (kind n) = true)
  /\ forall fuel', GetBasePointer nodes (S fuel') (Some b) = Done b.
Proof.
  revert ptr. induction fuel as [|fuel IH]; intros ptr; [discriminate|].
  simpl. destruct ptr as [p|]; [|discriminate]. simpl.
  destruct (GetBasePointer_step nodes p) as [[p'|b']| |] eqn:Hstep; simpl;
    try discriminate.
  - apply IH.
  - intros [= ->]. apply GetBasePointer_step_base in Hstep as (-> & n & Hn & Hk).
    split; [by exists n|]. intros fuel'. simpl.
    by rewrite (GetBasePointer_base_step _ _ _ Hn Hk).
Qed.

Section Stores_origin.
Context {Ty : Type} `{!BaseType Ty}.
Variable nodes : gmap Value (Node Ty).
Variable cur_loop_ : LoopInfo.
Variable gfuel : nat.
Variable insts : gmap Value (list Value).

Local Abbreviation store_origin' := (store_origin nodes cur_loop_ gfuel insts).

Lemma store_args_origin (args : list Value) (st st' : gset Value) :
  forM (fun (st : gset Value) arg =>
          ty ← deref (typeOf nodes arg);
          Done (if IsPointer ty then {[arg]} ∪ st else st)) args st = Done st' ->
  forall p, p ∈ st' ->
            p ∈ st \/ p ∈ args /\ exists ty, typeOf nodes p = Some ty /\ IsPointer ty = true.
Proof.
  revert st. induction args as [|a args IH]; intros st; simpl.
  - intros [= <-]. auto.
  - destruct (typeOf nodes a) as [ty|] eqn:Hty; [|discriminate]. simpl.
    intros Hrun p Hp. destruct (IH _ Hrun p Hp) as [Hin | (Hin & Hptr)].
    + destruct (IsPointer ty) eqn:Hpt; [|by left].
      apply elem_of_union in Hin as [->%elem_of_singleton | Hin]; [|by left].
      right. split; [by left | eauto].
    + right. split; [by right | done].
Qed.

Lemma ProcessStores_inst_origin (block : Value) (st st' : gset Value) (i : Value) :
  block ∈ body cur_loop_ -> i ∈ instsOf insts block ->
  ProcessStores_inst nodes gfuel block st i = Done st' ->
  forall p, p ∈ st' -> p ∈ st \/ store_origin' p.
Proof.
  intros Hb Hi. unfold ProcessStores_inst.
  destruct (kindOf nodes i) as [k|] eqn:Hk; [|discriminate]. simpl.
  destruct k; try (intros [= <-]; by left).
  intros Hrun. apply bind_Done in Hrun as (b & Hbase & Hrun).
  apply bind_Done in Hrun as (st1 & Hargs & [= <-]).
  intros p [->%elem_of_singleton | Hp]%elem_of_union.
  { right. exists block, i, b. split_and!; auto. }
  destruct (IsSSA_ArgRef nodes b) eqn:Harg; [|injection Hargs as <-; by left].
  apply bind_Done in Hargs as (args & Hparent & Hargs).
  destruct (store_args_origin _ _ _ Hargs p Hp) as [? | (Hin & ty & Hty & Hpt)];
    [by left|].
  right. exists block, i, b. split_and!; try done. right. split; [done|].
  by exists args, ty.
Qed.

Lemma ProcessStores_origin (stored : gset Value) :
  ProcessStores nodes cur_loop_ gfuel insts = Done stored ->
  forall p, p ∈ stored -> store_origin' p.
Proof.
  unfold ProcessStores. intros Hrun.
  revert Hrun. apply (forM_ind (fun st : gset Value => forall p, p ∈ st -> store_origin' p)).
  - intros st block st' Hb Hst. 
    apply (forM_ind (fun st : gset Value => forall p, p ∈ st -> store_origin' p));
      [|done].
    intros st0 i st0' Hi Hst0 Hrun p Hp.
    destruct (ProcessStores_inst_origin _ _ _ _ Hb Hi Hrun p Hp); auto.
  - intros p []%not_elem_of_empty.
Qed.
End Stores_origin.

(** X7. [stored_ptrs_] is exactly the set of the base pointers of the
    stores of the loop, together with the pointer-typed arguments of the
    function of every block of the loop that stores through an argument:
    [ProcessStores] puts nothing else into it. *)
Theorem stored_pointers_are_exactly_the_store_bases {Ty : Type} `{!BaseType Ty}
    (nodes : gmap Value (Node Ty)) (cur_loop_ : LoopInfo) (gfuel : nat)
    (insts : gmap Value (list Value)) (stored : gset Value) :
  ProcessStores nodes cur_loop_ gfuel insts = Done stored ->
  forall p, p ∈ stored <-> store_origin nodes cur_loop_ gfuel insts p.
Proof.
  intros Hrun p. split; [by apply ProcessStores_origin|].
  intros (block & i & b & Hb & Hi & Hk & Hbase & Hcase).
  destruct (ProcessStores_store _ _ _ _ _ _ _ _ Hrun Hb Hi Hk Hbase) as [Hin Hargs].
  destruct Hcase as [-> | (Harg & args & ty & Hparent & Hp & Hty & Hpt)]; [done|].
  destruct (Hargs Harg) as (args' & Hparent' & Hall).
  assert (args' = args) as -> by congruence. by eapply Hall.
Qed.

(** X8. [RunOnFunction] returns [false] only when it has changed nothing:
    the instruction lists are then the ones it was given. *)
Theorem RunOnFunction_false_changes_nothing {Ty : Type} `{!BaseType Ty}
    (nodes : gmap Value (Node Ty)) (IsDominate : Value -> Value -> bool)
    (loops : list LoopInfo) (gfuel fuel : nat) (func : Value)
    (insts insts' : gmap Value (list Value)) :
  RunOnFunction nodes IsDominate loops gfuel fuel func insts = Done (insts', false) ->
  insts' = insts.
Proof.
  unfold RunOnFunction. destruct (is_decl nodes func); [by intros [= <-]|].
  intros Hrun.
  enough (snd (insts', false) = false -> fst (insts', false) = insts) as Hgoal
    by (by apply Hgoal).
  revert Hrun.
  apply (forM_ind (fun st : gmap Value (list Value) * bool =>
                     snd st = false -> fst st = insts)); [|done].
  intros st info st' _ Hst Hstep.
  apply bind_Done in Hstep as ([insts1 ch1] & Hloop & [= <-]). simpl.
  destruct ch1; [discriminate|]. intros Hch.
  apply ProcessLoop_inv in Hloop as (_ & _ & _ & _ & [(_ & -> & _) | (_ & [=] & _)]).
  by apply Hst.
Qed.

(** X9. When the parent scanner is current for the loop in both runs, a
    second [ProcessLoop] over the same loop reports no change and leaves
    the instruction lists as they are. *)
Theorem second_ProcessLoop_changes_nothing {Ty : Type} `{!BaseType Ty}
    (nodes : gmap Value (Node Ty)) (GetParent1 GetParent2 : Value -> option Value)
    (IsDominate : Value -> Value -> bool) (cur_loop_ : LoopInfo)
    (gfuel fuel fuel2 : nat) (insts0 insts1 insts2 : gmap Value (list Value))
    (changed1 changed2 : bool) :
  ProcessLoop nodes GetParent1 IsDominate cur_loop_ gfuel fuel insts0
    = Done (insts1, changed1) ->
  (forall ph, preheader cur_loop_ = Some ph -> ph ∉ body cur_loop_) ->
  (forall v block, GetParent1 v = Some block -> block ∈ body cur_loop_ ->
                   v ∈ instsOf insts0 block) ->
  (forall block v, block ∈ body cur_loop_ -> v ∈ instsOf insts0 block ->
                   GetParent1 v = Some block) ->
  (forall block v, block ∈ body cur_loop_ -> v ∈ instsOf insts1 block ->
                   GetParent2 v = Some block) ->
  (forall i u, u ∈ usersOf nodes i -> exists n, nodes !! u = Some n /\ Some i ∈ oprs n) ->
  (forall block i, block ∈ body cur_loop_ -> i ∈ instsOf insts0 block ->
                   IsConst nodes i = false) ->
  ProcessLoop nodes GetParent2 IsDominate cur_loop_ gfuel fuel2 insts1
    = Done (insts2, changed2) ->
  changed2 = false /\ insts2 = insts1.
Proof.
  intros Hrun1 Hout Hsound Hcomplete Hcomplete2 Huses Hconst Hrun2.
  eapply (second_run_on_one_loop nodes GetParent1 GetParent2); eauto.
Qed.

(** *** Instances *)

Lemma marked_instructions_meet_the_conditions_witness :
  exists n block,
    loop1_nodes !! 41 = Some n
    /\ hoistable (kind n) = true
    /\ block ∈ body loop1 /\ 41 ∈ instsOf loop1_insts block
    /\ (None ∉ oprs n)
    /\ (forall v, Some v ∈ oprs n ->
                  IsInvariant loop1_nodes loop1_parent loop1 (list_to_set [40; 41; 42]) v
                  = true)
    /\ dominates_users loop1_parent loop1_dom loop1 block (uses n) = true.
Proof.
  assert (mark_invariants loop1_nodes loop1_parent loop1_dom loop1 5
            (list_to_set [3; 4; 5]) loop1_insts 10
          = Done {| marked_invs_ := list_to_set [40; 41; 42]; invs_ := [40; 41] |})
    as Hs by by_compute.
  apply (marked_instructions_meet_the_conditions _ _ _ _ _ _ _ _ _ Hs 41).
  elem_compute.
Defined.

Lemma hoisted_operand_precedes_user_witness :
  40 ∈ [40; 41] /\ comes_before 40 41 [40; 41].
Proof.
  assert (mark_invariants loop1_nodes loop1_parent loop1_dom loop1 5
            (list_to_set [3; 4; 5]) loop1_insts 10
          = Done {| marked_invs_ := list_to_set [40; 41; 42]; invs_ := [40; 41] |})
    as Hs by by_compute.
  apply (hoisted_operand_precedes_user _ _ _ _ _ _ _ _ _ 41 40
           (node (BinarySSA Add) [40; 2] [43] (Some i32)) Hs).
  - elem_compute.
  - by_compute.
  - elem_compute.
  - elem_compute.
  - by_compute.
Defined.

Lemma ProcessLoop_keeps_the_other_classes_witness :
  filter (fun i => is_hoistable loop1_nodes i = false) (instsOf loop1_hoisted 13)
  = filter (fun i => is_hoistable loop1_nodes i = false) (instsOf loop1_insts 13).
Proof.
  assert (ProcessLoop loop1_nodes loop1_parent loop1_dom loop1 5 10 loop1_insts
          = Done (loop1_hoisted, true)) as Hrun by by_compute.
  exact (ProcessLoop_keeps_the_other_classes _ _ _ _ _ _ _ _ _ Hrun 13).
Defined.

Lemma alloca_in_loop_fails_the_assertion_witness :
  ProcessLoop alloca_nodes alloca_parent loop1_dom alloca_loop 5 1 alloca_insts = Abort.
Proof.
  assert (12 ∈ body alloca_loop) as Hb by elem_compute.
  assert (30 ∈ instsOf alloca_insts 12) as Hi by elem_compute.
  assert (kindOf alloca_nodes 30 = Some AllocaSSA) as Hk by by_compute.
  destruct (alloca_in_loop_fails_the_assertion alloca_nodes alloca_parent loop1_dom
              alloca_loop 5 alloca_insts 12 30 Hb Hi Hk) as [_ Habort].
  apply (Habort 0 ∅).
  - by_compute.
  - each_loop_inst ltac:(vm_compute; congruence).
Defined.

Lemma ProcessLoop_keeps_every_instruction_witness :
  exists moved,
    (true = true <-> moved <> [])
    /\ loop_insts loop1 loop1_insts ≡ₚ loop_insts loop1 loop1_hoisted ++ moved
    /\ instsOf loop1_hoisted 11 ≡ₚ instsOf loop1_insts 11 ++ moved
    /\ (forall block, block ∉ body loop1 -> block <> 11 ->
                      instsOf loop1_hoisted block = instsOf loop1_insts block).
Proof.
  assert (ProcessLoop loop1_nodes loop1_parent loop1_dom loop1 5 10 loop1_insts
          = Done (loop1_hoisted, true)) as Hrun by by_compute.
  apply (ProcessLoop_keeps_every_instruction _ _ _ _ _ _ _ _ _ _ Hrun).
  - reflexivity.
  - intros Hin. apply (bool_decide_pack _) in Hin. vm_compute in Hin. exact Hin.
  - each_loop_inst by_compute.
  - apply (bool_decide_unpack _). vm_compute. exact I.
Defined.

Lemma GetBasePointer_returns_a_base_witness :
  (exists n, chain_nodes !! 1 = Some n /\ is_base (kind n) = true)
  /\ forall fuel', GetBasePointer chain_nodes (S fuel') (Some 1) = Done 1.
Proof.
  apply (GetBasePointer_returns_a_base chain_nodes 5 (Some 3) 1). by_compute.
Defined.

Lemma stored_pointers_are_exactly_the_store_bases_witness :
  4 ∈ (list_to_set [3; 4; 5] : gset Value)
  <-> store_origin loop1_nodes loop1 5 loop1_insts 4.
Proof.
  apply (stored_pointers_are_exactly_the_store_bases loop1_nodes loop1 5 loop1_insts).
  by_compute.
Defined.

Lemma RunOnFunction_false_changes_nothing_witness :
  exists insts',
    RunOnFunction loop1_nodes loop1_dom [loop1] 5 10 100 loop1_hoisted
      = Done (insts', false)
    /\ insts' = loop1_hoisted.
Proof.
  assert (RunOnFunction loop1_nodes loop1_dom [loop1] 5 10 100 loop1_hoisted
          = Done (loop1_hoisted, false)) as Hrun by by_compute.
  exists loop1_hoisted. split; [exact Hrun|].
  exact (RunOnFunction_false_changes_nothing _ _ _ _ _ _ _ _ Hrun).
Defined.

Lemma second_ProcessLoop_changes_nothing_witness :
  ProcessLoop loop1_nodes loop1_parent loop1_dom loop1 5 10 loop1_insts
    = Done (loop1_hoisted, true)
  /\ ProcessLoop loop1_nodes loop1_parent_again loop1_dom loop1 5 10 loop1_hoisted
     = Done (loop1_hoisted, false)
  /\ false = false /\ loop1_hoisted = loop1_hoisted.
Proof.
  assert (ProcessLoop loop1_nodes loop1_parent loop1_dom loop1 5 10 loop1_insts
          = Done (loop1_hoisted, true)) as Hrun1 by by_compute.
  assert (ProcessLoop loop1_nodes loop1_parent_again loop1_dom loop1 5 10 loop1_hoisted
          = Done (loop1_hoisted, false)) as Hrun2 by by_compute.
  assert (forall ph, preheader loop1 = Some ph -> ph ∉ body loop1) as Hout.
  { intros ph [= <-] Hin. apply (bool_decide_pack _) in Hin. vm_compute in Hin.
    exact Hin. }
  assert (forall v block, loop1_parent v = Some block -> block ∈ body loop1 ->
                          v ∈ instsOf loop1_insts block) as Hsound.
  { intros v block Hp. revert v block Hp.
    change (map_Forall (fun v block => block ∈ body loop1 -> v ∈ instsOf loop1_insts block)
                       (ParentScanner loop1_nodes loop1_insts 100)).
    apply (bool_decide_unpack _). vm_compute. exact I. }
  assert (forall block v, block ∈ body loop1 -> v ∈ instsOf loop1_insts block ->
                          loop1_parent v = Some block) as Hcomplete
    by (each_loop_inst by_compute).
  assert (forall block v, block ∈ body loop1 -> v ∈ instsOf loop1_hoisted block ->
                          loop1_parent_again v = Some block) as Hcomplete2
    by (each_loop_inst by_compute).
  assert (forall i u, u ∈ usersOf loop1_nodes i ->
                      exists n, loop1_nodes !! u = Some n /\ Some i ∈ oprs n) as Huses.
  { intros i u Hu.
    assert (map_Forall (fun (i : Value) (n : Node Ty) =>
              Forall (fun u => Is_true match loop1_nodes !! u with
                                       | Some n' => bool_decide (Some i ∈ oprs n')
                                       | None => false
                                       end) (uses n)) loop1_nodes) as Hall.
    { apply (bool_decide_unpack _). vm_compute. exact I. }
    unfold usersOf in Hu. destruct (loop1_nodes !! i) as [n|] eqn:Hn;
      [|apply elem_of_nil in Hu; contradiction].
    simpl in Hu. apply Hall in Hn. rewrite List.Forall_forall in Hn.
    apply list_elem_of_In in Hu. apply Hn in Hu.
    destruct (loop1_nodes !! u) as [n'|]; [|contradiction].
    exists n'. split; [reflexivity|]. exact (bool_decide_unpack _ Hu). }
  assert (forall block i, block ∈ body loop1 -> i ∈ instsOf loop1_insts block ->
                          IsConst loop1_nodes i = false) as Hconst
    by (each_loop_inst by_compute).
  split; [exact Hrun1|]. split; [exact Hrun2|].
  exact (second_ProcessLoop_changes_nothing loop1_nodes loop1_parent loop1_parent_again
           loop1_dom loop1 5 10 10 loop1_insts loop1_hoisted loop1_hoisted true false
           Hrun1 Hout Hsound Hcomplete Hcomplete2 Huses Hconst Hrun2).
Defined.

(** ** The pass manager: the assertion of [RunPasses] and [ShowInfo] *)

Lemma forM_Abort {A S : Type} (f : S -> A -> Res S) (l : list A) (s : S) :
  forM f l s = Abort -> exists x s', x ∈ l /\ f s' x = Abort.
Proof.
  revert s. induction l as [|x l IH]; intros s; [discriminate|].
  simpl. destruct (f s x) as [s1| |] eqn:Hx; simpl.
  - intros (y & s' & Hy & Hrun)%IH. exists y, s'. split; [by right | done].
  - intros _. exists x, s. split; [by left | done].
  - discriminate.
Qed.

Lemma forM_reaches_Abort {A S : Type} (f : S -> A -> Res S) (l : list A) (x : A) :
  (forall s y, f s y <> NoFuel) ->
  (forall s, f s x = Abort) ->
  x ∈ l ->
  forall s, forM f l s = Abort.
Proof.
  intros Hfuel Hx. induction l as [|y l IH]; [by intros ?%elem_of_nil|].
  intros Hin s. simpl. destruct (f s y) as [s1| |] eqn:Hy; simpl; [|done|].
  - apply elem_of_cons in Hin as [-> | Hin]; [|by apply IH].
    rewrite Hx in Hy. discriminate.
  - by apply Hfuel in Hy.
Qed.

Section Assertion.
Variable World : Type.
Variable funcs : World -> list Value.
Variable blocks : World -> Value -> list Value.
Variable passes : list (PassInfo World).
Variable opt_level_ : nat.

Local Abbreviation run_info' := (run_info World funcs blocks opt_level_).

Lemma run_info_not_NoFuel (s : Sweep World) (info : PassInfo World) :
  run_info' s info <> NoFuel.
Proof.
  unfold run_info. destruct (decide _); [done|].
  destruct (IsModulePass _); [done|]. destruct (IsFunctionPass _); [done|].
  by destruct (IsBlockPass _).
Qed.

Lemma run_info_Abort (s : Sweep World) (info : PassInfo World) :
  run_info' s info = Abort <-> min_opt_level info <= opt_level_ /\ of_no_kind info.
Proof.
  unfold run_info, of_no_kind. destruct (decide _) as [Hlt|Hge].
  - split; [discriminate | lia].
  - destruct (IsModulePass _); [split; [discriminate | by intros (_ & ? & _)]|].
    destruct (IsFunctionPass _); [split; [discriminate | by intros (_ & _ & ? & _)]|].
    destruct (IsBlockPass _); [split; [discriminate | by intros (_ & _ & _ & ?)]|].
    split; [|done]. intros _. split; [lia | done].
Qed.

Lemma sweep_passes_Abort (w : World) :
  sweep_passes World funcs blocks passes opt_level_ w = Abort
  <-> exists info, info ∈ enabled opt_level_ passes /\ of_no_kind info.
Proof.
  unfold sweep_passes, enabled. split.
  - intros (info & s' & Hin & Hrun)%forM_Abort. apply run_info_Abort in Hrun as [? ?].
    exists info. split; [|done]. by apply list_elem_of_filter.
  - intros (info & [Hle Hin]%list_elem_of_filter & Hkind).
    apply (forM_reaches_Abort _ _ info); [apply run_info_not_NoFuel| |done].
    intros s. by apply run_info_Abort.
Qed.
End Assertion.

(** X10. [RunPasses] fails [assert(pass->IsBlockPass())] exactly when some
    enabled pass is neither a module pass, nor a function pass, nor a block
    pass; a pass of no kind whose minimum level is above the current one is
    never looked at. *)
Theorem RunPasses_fails_exactly_on_a_pass_of_no_kind (World : Type)
    (funcs : World -> list Value) (blocks : World -> Value -> list Value)
    (passes : list (PassInfo World)) (opt_level_ : nat) (fuel : nat) (w : World) :
  RunPasses World funcs blocks passes opt_level_ (S fuel) w = Abort
  <-> exists info, info ∈ enabled opt_level_ passes /\ of_no_kind info.
Proof.
  split.
  - revert w. induction (S fuel) as [|n IH]; intros w; [discriminate|].
    simpl. destruct (sweep_passes _ _ _ _ _ w) as [s| |] eqn:Hsw; simpl.
    + destruct (changed s); [|discriminate].
      destruct (RunPasses _ _ _ _ _ n (world s)) as [r| |] eqn:Hrec; simpl;
        try discriminate.
      intros _. by eapply IH.
    + intros _. by eapply sweep_passes_Abort.
    + discriminate.
  - intros Hbad. simpl.
    by rewrite (proj2 (sweep_passes_Abort World funcs blocks passes opt_level_ w) Hbad).
Qed.

(** *** [ShowInfo] *)

Lemma append_empty_r (a : string) : a +:+ "" = a.
Proof.
  induction a as [|x a IH]; [reflexivity|].
  change (String x (a +:+ "") = String x a). by rewrite IH.
Qed.

Lemma cat_app (l1 l2 : list string) : cat (l1 ++ l2) = cat l1 +:+ cat l2.
Proof.
  induction l1 as [|x l1 IH]; [done|]. simpl. by rewrite IH, append_assoc.
Qed.

Section ShowInfo_facts.
Variable World : Type.
Variable fill : ascii.
Variable opt_level_ : nat.

Lemma foldl_show_registered (passes : list (PassInfo World)) (os : string) :
  foldl (show_registered fill) os passes = os +:+ cat (registered_line fill <$> passes).
Proof.
  revert os. induction passes as [|i passes IH]; intros os; simpl.
  - by rewrite append_empty_r.
  - rewrite IH. unfold show_registered, registered_line.
    by rewrite !append_assoc.
Qed.

Lemma foldl_show_enabled (passes : list (PassInfo World)) (os : string) (c : nat) :
  foldl (show_enabled fill opt_level_) (os, c) passes
  = (os +:+ enabled_text fill c (name <$> enabled opt_level_ passes),
     c + length (enabled opt_level_ passes)).
Proof.
  revert os c. induction passes as [|i passes IH]; intros os c.
  - cbn [foldl enabled_text fmap list_fmap length]. unfold enabled.
    by rewrite filter_nil, append_empty_r, Nat.add_0_r.
  - cbn [foldl]. unfold enabled, show_enabled at 2. cbn [fst snd].
    destruct (decide (min_opt_level i <= opt_level_)) as [Hle|Hgt].
    + rewrite filter_cons_True, fmap_cons by done. cbn [enabled_text length].
      rewrite IH. f_equal; [|unfold enabled; lia].
      destruct (decide (c mod 5 = 0)), (decide (c mod 5 = 4));
        by rewrite ?append_assoc.
    + rewrite filter_cons_False by done. apply IH.
Qed.

Lemma rows_of_five_nil {A : Type} (fuel : nat) : rows_of_five fuel (@nil A) = [].
Proof. by destruct fuel. Qed.

Lemma mod5_shift (c k : nat) : c mod 5 = 0 -> k < 5 -> (c + k) mod 5 = k.
Proof.
  intros Hc Hk. rewrite Nat.Div0.add_mod, Hc, Nat.add_0_l, Nat.Div0.mod_mod.
  by apply Nat.mod_small.
Qed.

Lemma mod5_pred (c : nat) : c mod 5 = 0 -> c <> 0 -> (c - 1) mod 5 = 4.
Proof.
  intros Hc Hne. apply Nat.Div0.div_exact in Hc.
  replace (c - 1) with (4 + (c / 5 - 1) * 5) by lia.
  by rewrite Nat.Div0.mod_add.
Qed.

Ltac decide_by_lia :=
  repeat first [rewrite decide_True by lia | rewrite decide_False by lia].

Lemma enabled_text_rows (fuel : nat) (names : list string) (c : nat) :
  length names <= fuel -> c mod 5 = 0 -> names <> [] \/ c <> 0 ->
  enabled_text fill c names
  +:+ (if decide ((c + length names - 1) mod 5 <> 4) then endl else "")
  = cat (enabled_row fill <$> rows_of_five fuel names).
Proof.
  revert names c. induction fuel as [|fuel IH]; intros names c Hlen Hc Hne.
  { destruct names; [|simpl in Hlen; lia]. destruct Hne as [|Hne]; [done|].
    cbn [enabled_text length rows_of_five fmap list_fmap cat foldr].
    replace (c + 0 - 1) with (c - 1) by lia. rewrite (mod5_pred c Hc Hne).
    by decide_by_lia. }
  pose proof (mod5_shift c 1 Hc ltac:(lia)) as H1.
  pose proof (mod5_shift c 2 Hc ltac:(lia)) as H2.
  pose proof (mod5_shift c 3 Hc ltac:(lia)) as H3.
  pose proof (mod5_shift c 4 Hc ltac:(lia)) as H4.
  replace (c + 1) with (S c) in H1 by lia.
  replace (c + 2) with (S (S c)) in H2 by lia.
  replace (c + 3) with (S (S (S c))) in H3 by lia.
  replace (c + 4) with (S (S (S (S c)))) in H4 by lia.
  destruct names as [|n1 [|n2 [|n3 [|n4 [|n5 rest]]]]].
  - destruct Hne as [|Hne]; [done|].
    cbn [enabled_text length rows_of_five fmap list_fmap cat foldr].
    replace (c + 0 - 1) with (c - 1) by lia. rewrite (mod5_pred c Hc Hne).
    by decide_by_lia.
  - cbn [enabled_text length rows_of_five take drop]. rewrite rows_of_five_nil.
    replace (c + 1 - 1) with c by lia. rewrite Hc. decide_by_lia.
    unfold enabled_row. cbn [fmap list_fmap cat foldr]. 
    by rewrite ?append_assoc, ?append_empty_r.
  - cbn [enabled_text length rows_of_five take drop]. rewrite rows_of_five_nil.
    replace (c + 2 - 1) with (S c) by lia. rewrite Hc, H1. decide_by_lia.
    unfold enabled_row. cbn [fmap list_fmap cat foldr].
    by rewrite ?append_assoc, ?append_empty_r.
  - cbn [enabled_text length rows_of_five take drop]. rewrite rows_of_five_nil.
    replace (c + 3 - 1) with (S (S c)) by lia. rewrite Hc, H1, H2. decide_by_lia.
    unfold enabled_row. cbn [fmap list_fmap cat foldr].
    by rewrite ?append_assoc, ?append_empty_r.
  - cbn [enabled_text length rows_of_five take drop]. rewrite rows_of_five_nil.
    replace (c + 4 - 1) with (S (S (S c))) by lia. rewrite Hc, H1, H2, H3.
    decide_by_lia.
    unfold enabled_row. cbn [fmap list_fmap cat foldr].
    by rewrite ?append_assoc, ?append_empty_r.
  - cbn [enabled_text rows_of_five take drop]. rewrite Hc, H1, H2, H3, H4.
    decide_by_lia. rewrite fmap_cons.
    change (cat (?x :: ?l)) with (x +:+ cat l). rewrite take_0, drop_0.
    rewrite <- (IH rest (S (S (S (S (S c)))))).
    + replace (S (S (S (S (S c)))) + length rest - 1)
        with (c + length (n1 :: n2 :: n3 :: n4 :: n5 :: rest) - 1)
        by (simpl; lia).
      unfold enabled_row. cbn [fmap list_fmap cat foldr].
      by rewrite ?append_assoc, ?append_empty_r.
    + simpl in Hlen. lia.
    + replace (S (S (S (S (S c))))) with (c + 1 * 5) by lia.
      by rewrite Nat.Div0.mod_add.
    + right. lia.
Qed.
End ShowInfo_facts.

(** X11. [ShowInfo] writes the optimization level, one line for every
    registered pass, and then the names of the passes that [RunPasses]
    runs (those whose minimum level is at most the current one), in
    registration order, five to a row, every row indented by two spaces
    and ended by a newline; [<none>] stands for an empty list, and with no
    registered pass the second part is not written at all. *)
Theorem ShowInfo_layout (World : Type) (fill : ascii) (passes : list (PassInfo World))
    (opt_level_ : nat) :
  let names := name <$> enabled opt_level_ passes in
  ShowInfo fill passes opt_level_
  = "current optimization level: " +:+ dec opt_level_ +:+ endl +:+ endl
    +:+ "registed passes:" +:+ endl
    +:+ match passes with
        | [] => "  <none>" +:+ endl
        | _ :: _ =>
            cat (registered_line fill <$> passes) +:+ endl
            +:+ "enabled passes:" +:+ endl
            +:+ match names with
                | [] => "  <none>" +:+ endl
                | _ :: _ => cat (enabled_row fill <$> rows_of_five (length names) names)
                end
        end.
Proof.
  intros names. destruct passes as [|i passes'].
  { unfold ShowInfo. by rewrite ?append_assoc. }
  unfold ShowInfo. cbv beta iota zeta.
  rewrite foldl_show_registered, foldl_show_enabled. cbn [fst snd]. rewrite Nat.add_0_l.
  fold names. assert (length (enabled opt_level_ (i :: passes')) = length names) as ->
    by (unfold names; by rewrite length_fmap).
  destruct names as [|n names'] eqn:Hnames.
  { cbn [length enabled_text]. rewrite decide_True by done.
    by rewrite ?append_assoc, ?append_empty_r. }
  rewrite <- Hnames. rewrite decide_False by (rewrite Hnames; simpl; lia).
  rewrite <- (enabled_text_rows fill (length names) names 0);
    [|done|done|left; by rewrite Hnames].
  rewrite Nat.add_0_l.
  destruct (decide ((length names - 1) mod 5 <> 4));
    by rewrite ?append_assoc, ?append_empty_r.
Qed.

(** ** The dump of string constants *)

Lemma all_chars_complete (c : ascii) : In c all_chars.
Proof.
  unfold all_chars. rewrite <- (ascii_nat_embedding c) at 1.
  apply (in_map ascii_of_nat), in_seq.
  pose proof (nat_ascii_bounded c). lia.
Qed.

Lemma all_formats_complete (fmt : Format) : In fmt all_formats.
Proof. destruct fmt as [[] [] []]; vm_compute; tauto. Qed.

Lemma is_prefix_spec (l k : list ascii) :
  is_prefix l k = true <-> exists r, k = l ++ r.
Proof.
  revert k. induction l as [|x l IH]; intros k; simpl.
  - split; [intros _; by exists k | done].
  - destruct k as [|y k]; [split; [done | intros (r & [=])]|].
    rewrite andb_true_iff, bool_decide_eq_true, IH. split.
    + intros (-> & r & ->). by exists r.
    + intros (r & [= -> ->]). split; [done | by exists r].
Qed.

Lemma escape_table_complete (fmt : Format) (a : ascii) :
  In (a, list_ascii_of_string (ConvertChar fmt a)) (escape_table fmt).
Proof.
  exact (in_map (fun c => (c, list_ascii_of_string (ConvertChar fmt c))) all_chars a
                (all_chars_complete a)).
Qed.

(** The two checks, made on the 256 characters for each of the sixteen
    settings of the flags. *)
Lemma escapes_ok_checked :
  forallb (fun fmt => forallb escape_ok (escape_table fmt)) all_formats = true.
Proof. vm_compute. reflexivity. Qed.

Lemma escapes_apart_checked :
  forallb (fun fmt =>
             let table := escape_table fmt in
             implb (pads_before fmt)
                   (forallb (fun x => forallb (escape_apart x) table) table))
          all_formats = true.
Proof. vm_compute. reflexivity. Qed.

Lemma escape_ok_all (fmt : Format) (a : ascii) :
  escape_ok (a, list_ascii_of_string (ConvertChar fmt a)) = true.
Proof.
  exact (proj1 (forallb_forall escape_ok (escape_table fmt))
               (proj1 (forallb_forall (fun fmt => forallb escape_ok (escape_table fmt))
                                      all_formats)
                      escapes_ok_checked fmt (all_formats_complete fmt))
               _ (escape_table_complete fmt a)).
Qed.

Lemma escape_apart_all (fmt : Format) (a b : ascii) :
  pads_before fmt = true ->
  escape_apart (a, list_ascii_of_string (ConvertChar fmt a))
               (b, list_ascii_of_string (ConvertChar fmt b)) = true.
Proof.
  intros Hfmt.
  pose proof (proj1 (forallb_forall _ all_formats) escapes_apart_checked fmt
                    (all_formats_complete fmt)) as Hall.
  cbv beta zeta in Hall. rewrite Hfmt in Hall. cbn [implb] in Hall.
  exact (proj1 (forallb_forall (escape_apart _) (escape_table fmt))
               (proj1 (forallb_forall (fun x => forallb (escape_apart x)
                                                        (escape_table fmt))
                                      (escape_table fmt))
                      Hall _ (escape_table_complete fmt a))
               _ (escape_table_complete fmt b)).
Qed.

Lemma ConvertChar_printable (fmt : Format) (a : ascii) :
  let ea := list_ascii_of_string (ConvertChar fmt a) in
  ea <> [] /\ Forall (fun c => printable c = true) ea.
Proof.
  intros ea. pose proof (escape_ok_all fmt a) as Hok. unfold escape_ok in Hok.
  cbn [fst snd] in Hok. fold ea in Hok. apply andb_true_iff in Hok as [Hne Hpr].
  split.
  - intros Heq. rewrite Heq in Hne. discriminate.
  - apply List.Forall_forall. by apply forallb_forall.
Qed.

(** On a stream that pads before the digits and writes no base, the text
    that begins with the escape sequence of a character does not begin with
    that of another one. *)
Lemma ConvertChar_apart (fmt : Format) (a b : ascii) (r r' : list ascii) :
  pads_before fmt = true ->
  list_ascii_of_string (ConvertChar fmt a) ++ r
  = list_ascii_of_string (ConvertChar fmt b) ++ r' ->
  a = b.
Proof.
  intros Hfmt Heq.
  pose proof (escape_apart_all fmt a b Hfmt) as Hab.
  pose proof (escape_apart_all fmt b a Hfmt) as Hba.
  unfold escape_apart in Hab, Hba. cbn [fst snd] in Hab, Hba.
  apply List.app_eq_app in Heq as (l & [[H1 H2] | [H1 H2]]).
  - assert (is_prefix (list_ascii_of_string (ConvertChar fmt b))
                      (list_ascii_of_string (ConvertChar fmt a)) = true) as Hp
      by (apply is_prefix_spec; by exists l).
    rewrite Hp in Hba. simpl in Hba. symmetry. by apply bool_decide_eq_true in Hba.
  - assert (is_prefix (list_ascii_of_string (ConvertChar fmt a))
                      (list_ascii_of_string (ConvertChar fmt b)) = true) as Hp
      by (apply is_prefix_spec; by exists l).
    rewrite Hp in Hab. simpl in Hab. by apply bool_decide_eq_true in Hab.
Qed.

Lemma list_ascii_of_string_app (a b : string) :
  list_ascii_of_string (a +:+ b) = list_ascii_of_string a ++ list_ascii_of_string b.
Proof.
  induction a as [|x a IH]; [done|].
  change (x :: list_ascii_of_string (a +:+ b)
          = x :: list_ascii_of_string a ++ list_ascii_of_string b). by rewrite IH.
Qed.

Lemma list_ascii_of_string_inj (a b : string) :
  list_ascii_of_string a = list_ascii_of_string b -> a = b.
Proof.
  intros Heq. rewrite <- (string_of_list_ascii_of_string a),
                <- (string_of_list_ascii_of_string b). by rewrite Heq.
Qed.

Lemma escape_chars (fmt : Format) (l : list ascii) :
  list_ascii_of_string (cat (ConvertChar fmt <$> l))
  = l ≫= (fun c => list_ascii_of_string (ConvertChar fmt c)).
Proof.
  induction l as [|c l IH]; [done|].
  change (cat (ConvertChar fmt <$> c :: l))
    with (ConvertChar fmt c +:+ cat (ConvertChar fmt <$> l)).
  by rewrite list_ascii_of_string_app, IH.
Qed.

Lemma escape_injective_when_padded_before (fmt : Format) (str1 str2 : string) :
  pads_before fmt = true ->
  escape fmt str1 = escape fmt str2 -> str1 = str2.
Proof.
  intros Hfmt. unfold escape. intros Heq. apply list_ascii_of_string_inj.
  apply (f_equal list_ascii_of_string) in Heq. rewrite !escape_chars in Heq.
  revert Heq. generalize (list_ascii_of_string str2) as l2.
  induction (list_ascii_of_string str1) as [|a l1 IH]; intros [|b l2]; simpl.
  - done.
  - intros Heq. destruct (ConvertChar_printable fmt b) as (Hne & _). symmetry in Heq.
    by apply app_eq_nil in Heq as [? _].
  - intros Heq. destruct (ConvertChar_printable fmt a) as (Hne & _).
    by apply app_eq_nil in Heq as [? _].
  - intros Heq. pose proof (ConvertChar_apart fmt _ _ _ _ Hfmt Heq) as <-.
    apply app_inv_head in Heq. f_equal. by apply IH.
Qed.

(** On a stream that is left adjusted the bytes 1 and 16 are both written
    [\x10]; on a stream with [showbase] the byte 1 followed by the
    character [0] is written like the byte 16. *)
Lemma escape_collides_when_padded_after (u : bool) :
  escape (mkFormat AdjustLeft false u) (String (ascii_of_nat 1) "")
  = escape (mkFormat AdjustLeft false u) (String (ascii_of_nat 16) "").
Proof. by destruct u. Qed.

Lemma escape_collides_with_showbase (a : Adjust) (u : bool) :
  escape (mkFormat a true u) (String (ascii_of_nat 1) "0")
  = escape (mkFormat a true u) (String (ascii_of_nat 16) "").
Proof. by destruct a, u. Qed.

(** X12. The escaping that [ConvertChar] applies to a string can be undone
    exactly on a stream that is not left adjusted and has [showbase] clear:
    there no escape sequence is the beginning of another one, and two strings
    with the same escaped text are the same string.  On any other stream two
    different strings are written alike. *)
Theorem escape_injective (fmt : Format) :
  (forall str1 str2 : string, escape fmt str1 = escape fmt str2 -> str1 = str2)
  <-> adjustfield fmt <> AdjustLeft /\ showbase fmt = false.
Proof.
  split.
  - intros Hinj. destruct fmt as [a b u]. cbn [adjustfield showbase].
    destruct b.
    + by pose proof (Hinj _ _ (escape_collides_with_showbase a u)).
    + split; [|done]. intros ->.
      by pose proof (Hinj _ _ (escape_collides_when_padded_after u)).
  - intros [Hadj Hbase] str1 str2. apply escape_injective_when_padded_before.
    unfold pads_before. rewrite Hbase. by destruct (adjustfield fmt).
Qed.

(** X13. The escaped text holds printable characters only: no newline and no
    other control character reaches the output, whatever the string and the
    format flags of the stream. *)
Theorem escape_is_printable (fmt : Format) (str : string) :
  Forall (fun c => printable c = true) (list_ascii_of_string (escape fmt str)).
Proof.
  unfold escape. rewrite escape_chars.
  induction (list_ascii_of_string str) as [|a l IH]; [constructor|].
  simpl. apply Forall_app. split; [|done].
  by destruct (ConvertChar_printable fmt a) as (_ & ?).
Qed.

Lemma for_out_put {A : Type} (f : A -> string) (l : list A) (idm : IdManager)
    (os : string) :
  for_out (fun c => put (f c)) l (idm, os) = Done (tt, (idm, os +:+ cat (f <$> l))).
Proof.
  revert os. induction l as [|c l IH]; intros os.
  - cbn [for_out fmap list_fmap]. unfold mret, Out_ret, cat. simpl.
    by rewrite append_empty_r.
  - cbn [for_out]. rewrite bind_put. cbn [fst snd]. rewrite IH.
    change (cat (f <$> c :: l)) with (f c +:+ cat (f <$> l)).
    by rewrite append_assoc.
Qed.

(** X14. Inside an expression, the dump of a string constant is [constant],
    its type and, between double quotes, the string as [ConvertChar] writes
    it on a stream with the given format flags; the id manager is left as
    it was.  Outside an expression it fails [assert(in_expr)] and writes
    nothing. *)
Theorem ConstStr_dump_text {Ty : Type} `{!BaseType Ty} `{!SSAMethods Ty}
    (fmt : Format) (nodes : gmap Value (Node Ty)) (insts : gmap Value (list Value))
    (k e : nat) (this : Value) (n : Node Ty) (str : string) (t : Ty)
    (idm : IdManager) (os : string) :
  nodes !! this = Some n ->
  kind n = ConstStrSSA str ->
  type_ n = Some t ->
  Dump fmt nodes insts (S k) (S e) (Some this) (idm, os)
  = Done (tt, (idm, os +:+ "constant " +:+ GetTypeId t +:+ " "
                    +:+ String (ascii_of_nat 34) ""
                    +:+ escape fmt str
                    +:+ String (ascii_of_nat 34) ""))
  /\ Dump fmt nodes insts (S k) 0 (Some this) (idm, os) = Abort.
Proof.
  intros Hn Hk Ht. rewrite !(Dump_S _ _ _ _ _ _ _ _ Hn). unfold Dump_node.
  rewrite Hk, Ht. split; [|done].
  unfold assert_in_expr, PrintType.
  unfold mbind at 1 2 3 4 5 6 7. unfold Out_bind, mret, Out_ret, lift, put. cbn [deref fst snd].
  change (fun (c : ascii) (st : IdManager * string) =>
            Done (tt, (fst st, snd st +:+ ConvertChar fmt c)))
    with (fun c => put (ConvertChar fmt c)).
  rewrite for_out_put. cbn [fst snd]. unfold escape. by rewrite !append_assoc.
Qed.

(** The string constant [%1] of [str_nodes] on a new stream and on a stream
    that was left with [std::left]: the byte 1 is written [\x01] on the
    first and [\x10] on the second. *)
Lemma ConstStr_dump_text_witness :
  Dump new_stream str_nodes ∅ 1 1 (Some 1) (IdManager_new, "")
  = Done (tt, (IdManager_new,
               "constant i8* " +:+ String (ascii_of_nat 34) "" +:+ "a\tb\"
               +:+ String (ascii_of_nat 34) "" +:+ "\x01"
               +:+ String (ascii_of_nat 34) ""))
  /\ Dump left_stream str_nodes ∅ 1 1 (Some 1) (IdManager_new, "")
     = Done (tt, (IdManager_new,
                  "constant i8* " +:+ String (ascii_of_nat 34) "" +:+ "a\tb\"
                  +:+ String (ascii_of_nat 34) "" +:+ "\x10"
                  +:+ String (ascii_of_nat 34) ""))
  /\ Dump new_stream str_nodes ∅ 1 0 (Some 1) (IdManager_new, "") = Abort.
Proof.
  destruct (ConstStr_dump_text new_stream str_nodes ∅ 0 0 1
              (node (ConstStrSSA str_text) [] [] (Some (ptr i8))) str_text (ptr i8)
              IdManager_new "" eq_refl eq_refl eq_refl) as [Hin Hout].
  destruct (ConstStr_dump_text left_stream str_nodes ∅ 0 0 1
              (node (ConstStrSSA str_text) [] [] (Some (ptr i8))) str_text (ptr i8)
              IdManager_new "" eq_refl eq_refl eq_refl) as [Hleft _].
  split_and!; [|clear Hin|exact Hout].
  - etrans; [exact Hin|]. vm_compute. reflexivity.
  - etrans; [exact Hleft|]. vm_compute. reflexivity.
Defined.

(** The text of [ShowInfo] for [seven_passes] at level 2, on a stream that
    fills with spaces. *)
Lemma ShowInfo_seven_passes :
  ShowInfo " "%char seven_passes 2
  = unlines [
      "current optimization level: 2";
      "";
      "registed passes:";
      "  dom_info            min_opt_level = 0";
      "  loop_info           min_opt_level = 0";
      "  licm                min_opt_level = 2";
      "  dead_code_elim      min_opt_level = 1";
      "  inline              min_opt_level = 3";
      "  a_pass_with_a_long_namemin_opt_level = 1";
      "  gvn                 min_opt_level = 2";
      "";
      "enabled passes:";
      "  dom_info        loop_info       licm            dead_code_elim  a_pass_with_a_long_name";
      "  gvn             "
    ].
Proof. vm_compute. reflexivity. Qed.

(** ** The builder: the global constructor *)

Ltac fields :=
  cbn [m_nodes m_insts m_next vars_ funcs_ insert_point_ global_ctor_ ctor_entry_
       ctor_exit_ is_ctor_sealed_ fst snd kind oprs uses type_ org_type_].

Section Ctor_facts.
Context {Ty : Type} `{!BaseType Ty} `{!SSAMethods Ty} `{!FuncTypeMethods Ty}.
Implicit Types (m : Module Ty) (nodes : gmap Value (Node Ty)).


Lemma CreateFunction_explicit m link name ty :
  IsFunction ty = true ->
  CreateFunction m link name ty
  = Done (mkModule
            (<[m_next m := mkNode (FunctionSSA link name []) [] []
                                  (Some (GetTrivialType ty)) (Some ty)]> (m_nodes m))
            (m_insts m) (S (m_next m)) (vars_ m) (funcs_ m ++ [m_next m])
            (insert_point_ m) (global_ctor_ m) (ctor_entry_ m) (ctor_exit_ m)
            (is_ctor_sealed_ m),
          m_next m).
Proof.
  intros Hf. unfold CreateFunction. rewrite Hf. cbn [negb].
  unfold MakeSSA. cbn [foldl]. unfold set_types, set_type, set_org_type, set_nodes,
    set_funcs, set_store. fields.
  by rewrite !alter_insert_eq.
Qed.

Lemma CreateBlock_explicit m p name n pty :
  m_nodes m !! p = Some n ->
  type_ n = Some pty ->
  IsFunction pty = true ->
  p <> m_next m ->
  CreateBlock m (Some p) name
  = Done (mkModule
            (<[m_next m := mkNode (BlockSSA (Some p) name) [] [p] None None]>
               (<[p := mkNode (kind n) (oprs n ++ [Some (m_next m)]) (uses n)
                              (type_ n) (org_type_ n)]> (m_nodes m)))
            (m_insts m) (S (m_next m)) (vars_ m) (funcs_ m)
            (insert_point_ m) (global_ctor_ m) (ctor_entry_ m) (ctor_exit_ m)
            (is_ctor_sealed_ m),
          m_next m).
Proof.
  intros Hn Hty Hf Hne. unfold CreateBlock, typeOf. cbn [deref mbind Res_bind].
  rewrite Hn. cbn [mbind option_bind]. rewrite Hty. cbn [deref mbind Res_bind].
  rewrite Hf. cbn [negb].
  unfold MakeSSA. cbn [foldl]. unfold AddValue, link_use, set_nodes, set_store. fields.
  rewrite (alter_insert_ne _ p) by done.
  rewrite alter_insert_eq. unfold add_use. fields.
  rewrite (alter_alt_Some _ _ _ _ Hn). cbn [app]. by rewrite ?Hty.
Qed.

Lemma CreateReturn_void m block func name fn ty args ret :
  insert_point_ m = Some block ->
  m_nodes m !! block = Some (mkNode (BlockSSA (Some func) name) [] [func] None None) ->
  m_nodes m !! func = Some fn ->
  org_type_ fn = Some ty ->
  GetArgsType ty = Some args ->
  GetReturnType ty args = Some ret ->
  IsVoid ret = true ->
  CreateReturn m None
  = Done (mkModule
            (<[m_next m := mkNode ReturnSSA [None] [] None None]> (m_nodes m))
            (<[block := instsOf (m_insts m) block ++ [m_next m]]> (m_insts m))
            (S (m_next m)) (vars_ m) (funcs_ m)
            (insert_point_ m) (global_ctor_ m) (ctor_entry_ m) (ctor_exit_ m)
            (is_ctor_sealed_ m),
          m_next m).
Proof.
  intros Hip Hb Hfn Hty Hargs Hret Hvoid.
  unfold CreateReturn, parent_of_block, kindOf. rewrite Hip. cbn [deref mbind Res_bind].
  rewrite Hb. cbn [fmap option_fmap option_map kind deref mbind Res_bind].
  rewrite Hfn. cbn [deref mbind Res_bind]. rewrite Hty. cbn [deref mbind Res_bind].
  rewrite Hargs. cbn [deref mbind Res_bind]. rewrite Hret. cbn [deref mbind Res_bind].
  rewrite Hvoid. rewrite bool_decide_eq_true_2 by done.
  cbn [andb negb mbind Res_bind].
  unfold AddInst. rewrite Hip. cbn [deref mbind Res_bind].
  unfold MakeSSA. cbn [foldl]. unfold link_use, set_store. fields.
  by rewrite Hip.
Qed.

Lemma EnterGlobalCtor_again m :
  global_ctor_ m <> None ->
  EnterGlobalCtor m = Done (set_insert_point m (ctor_entry_ m), insert_point_ m).
Proof. unfold EnterGlobalCtor. by destruct (global_ctor_ m). Qed.
End Ctor_facts.

(** X15. When no constructor exists yet, [EnterGlobalCtor] creates the
    function [_$ctor] with linkage [GlobalCtor], appends it to [funcs_],
    gives it the blocks [entry] and [exit], puts a [return] without value
    into [exit], marks the constructor as not sealed and makes [entry] the
    insert point; the guard it returns holds the old insert point, and
    entering again after its release creates nothing.  The type system is
    asked that the constructor's type and its trivial type are function
    types and that its return type is void. *)
Theorem EnterGlobalCtor_builds_the_constructor {Ty : Type} `{!BaseType Ty}
    `{!SSAMethods Ty} `{!FuncTypeMethods Ty} (m : Module Ty) (args : list Ty) (ret : Ty) :
  let ty := FuncType [] MakeVoid true in
  let f := m_next m in
  let entry := S f in
  let exit := S (S f) in
  let return_ := S (S (S f)) in
  let m1 :=
    mkModule
      (<[return_ := mkNode ReturnSSA [None] [] None None]>
         (<[exit := mkNode (BlockSSA (Some f) "exit") [] [f] None None]>
            (<[entry := mkNode (BlockSSA (Some f) "entry") [] [f] None None]>
               (<[f := mkNode (FunctionSSA GlobalCtor "_$ctor" [])
                              [Some entry; Some exit] []
                              (Some (GetTrivialType ty)) (Some ty)]>
                  (m_nodes m)))))
      (<[exit := instsOf (m_insts m) exit ++ [return_]]> (m_insts m))
      (S return_) (vars_ m) (funcs_ m ++ [f])
      (Some entry) (Some f) (Some entry) (Some exit) false in
  IsFunction ty = true ->
  IsFunction (GetTrivialType ty) = true ->
  GetArgsType ty = Some args ->
  GetReturnType ty args = Some ret ->
  IsVoid ret = true ->
  global_ctor_ m = None ->
  EnterGlobalCtor m = Done (m1, insert_point_ m)
  /\ forall cur, EnterGlobalCtor (release_guard m1 cur) = Done (m1, cur).
Proof.
  intros ty f entry exit return_ m1 Hf Hf' Hargs Hret Hvoid Hnone. split.
  - unfold EnterGlobalCtor. rewrite Hnone.
    rewrite (CreateFunction_explicit _ _ _ _ Hf). cbn [mbind Res_bind fst snd].
    unfold set_global_ctor. fields.
    set (f0 := mkNode (FunctionSSA GlobalCtor "_$ctor" []) [] []
                      (Some (GetTrivialType ty)) (Some ty)).
    rewrite (CreateBlock_explicit _ f "entry" f0 (GetTrivialType ty));
      [|apply lookup_insert_eq|reflexivity|exact Hf'|cbn; lia].
    cbn [mbind Res_bind]. unfold set_ctor_entry. fields. cbn [app].
    rewrite insert_insert_eq.
    set (f1 := mkNode (FunctionSSA GlobalCtor "_$ctor" []) [Some entry] []
                      (Some (GetTrivialType ty)) (Some ty)).
    rewrite (CreateBlock_explicit _ f "exit" f1 (GetTrivialType ty));
      [|cbn [m_nodes]; rewrite lookup_insert_ne by lia; apply lookup_insert_eq
       |reflexivity|exact Hf'|cbn; lia].
    cbn [mbind Res_bind]. unfold set_ctor_exit. fields. cbn [app].
    rewrite (insert_insert_ne _ f (S f)) by lia. rewrite insert_insert_eq.
    set (f2 := mkNode (FunctionSSA GlobalCtor "_$ctor" []) [Some entry; Some exit] []
                      (Some (GetTrivialType ty)) (Some ty)).
    rewrite (CreateReturn_void _ exit f "exit" f2 ty args ret);
      [|reflexivity
       |apply lookup_insert_eq
       |cbn [set_insert_point m_nodes];
        rewrite !lookup_insert_ne by lia; apply lookup_insert_eq
       |reflexivity|exact Hargs|exact Hret|exact Hvoid].
    reflexivity.
  - intros cur. rewrite EnterGlobalCtor_again by done. reflexivity.
Qed.

Section Seal_facts.
Context {Ty : Type} `{!BaseType Ty} `{!SSAMethods Ty}.
Implicit Types (m : Module Ty) (nodes : gmap Value (Node Ty)).

Lemma CreateJump_explicit m block target :
  insert_point_ m = Some block ->
  CreateJump m target
  = Done (mkModule
            (alter (add_use target) block
               (alter (fun n => mkNode (kind n) (oprs n ++ [Some block]) (uses n)
                                       (type_ n) (org_type_ n)) target
                  (alter (add_use (m_next m)) target
                     (<[m_next m := mkNode JumpSSA [Some target] [] None None]>
                        (m_nodes m)))))
            (<[block := instsOf (m_insts m) block ++ [m_next m]]> (m_insts m))
            (S (m_next m)) (vars_ m) (funcs_ m)
            (insert_point_ m) (global_ctor_ m) (ctor_entry_ m) (ctor_exit_ m)
            (is_ctor_sealed_ m),
          m_next m).
Proof.
  intros Hip. unfold CreateJump, AddInst. rewrite Hip. cbn [deref mbind Res_bind].
  unfold MakeSSA. cbn [foldl]. unfold AddValue, link_use, set_store. fields.
  by rewrite Hip.
Qed.
End Seal_facts.

(** X16. On a module whose constructor is not sealed yet, [SealGlobalCtor]
    appends one jump to the entry block of the constructor and touches no
    other instruction list; the jump goes to the exit block, the entry block
    becomes the last predecessor of the exit block, the constructor is
    marked sealed, and the insert point is left at the entry block: the
    insert point that was current before is not put back. *)
Theorem SealGlobalCtor_links_entry_to_exit {Ty : Type} `{!BaseType Ty}
    `{!SSAMethods Ty} (m : Module Ty) (f entry exit : Value) :
  global_ctor_ m = Some f ->
  is_ctor_sealed_ m = false ->
  ctor_entry_ m = Some entry ->
  ctor_exit_ m = Some exit ->
  let jump := m_next m in
  exists m',
    SealGlobalCtor m = Done m'
    /\ instsOf (m_insts m') entry = instsOf (m_insts m) entry ++ [jump]
    /\ (forall block, block <> entry ->
                      instsOf (m_insts m') block = instsOf (m_insts m) block)
    /\ kindOf (m_nodes m') jump = Some JumpSSA
    /\ operand (m_nodes m') jump 0 = Some exit
    /\ (exit <> jump ->
        oprs <$> m_nodes m' !! exit
        = (fun n => oprs n ++ [Some entry]) <$> m_nodes m !! exit)
    /\ insert_point_ m' = Some entry
    /\ is_ctor_sealed_ m' = true
    /\ global_ctor_ m' = Some f
    /\ m_next m' = S (m_next m).
Proof.
  intros Hf Hs He Hx jump. subst jump. eexists. split.
  { unfold SealGlobalCtor. rewrite Hf, Hs. cbn [negb].
    unfold set_insert_point. fields. rewrite Hx, He. cbn [deref mbind Res_bind].
    rewrite (CreateJump_explicit _ entry) by reflexivity.
    cbn [mbind Res_bind fst]. reflexivity. }
  unfold set_is_ctor_sealed, set_insert_point. fields.
  split_and!; try done.
  - by rewrite instsOf_insert, decide_True.
  - intros block Hne. by rewrite instsOf_insert, decide_False.
  - unfold kindOf. rewrite !(alter_field kind) by done. by rewrite lookup_insert_eq.
  - rewrite operand_oprs. rewrite (alter_field oprs) by done.
    rewrite lookup_alter. destruct (decide (exit = m_next m)) as [->|Hne].
    + rewrite lookup_alter, decide_True by done. by rewrite lookup_insert_eq.
    + rewrite (alter_field oprs), lookup_insert_eq by done. done.
  - intros Hne. rewrite (alter_field oprs) by done.
    rewrite lookup_alter, decide_True by done.
    rewrite <- option_fmap_compose.
    rewrite lookup_alter, decide_True by done.
    rewrite lookup_insert_ne by done.
    by destruct (m_nodes m !! exit).
Qed.

(** ** The builder: calls *)

Section Call_facts.
Context {Ty : Type} `{!BaseType Ty} `{!SSAMethods Ty} `{!FuncTypeMethods Ty}.
Implicit Types (m : Module Ty) (nodes : gmap Value (Node Ty)).

Lemma core_add_use (u : Value) (n : Node Ty) : core (add_use u n) = core n.
Proof. done. Qed.

Lemma core_kindOf nodes nodes' y y' :
  core <$> nodes' !! y' = core <$> nodes !! y -> kindOf nodes' y' = kindOf nodes y.
Proof.
  unfold kindOf. destruct (nodes' !! y'), (nodes !! y); simpl; try done.
  by intros [= -> _ _ _].
Qed.

Lemma core_typeOf nodes nodes' y y' :
  core <$> nodes' !! y' = core <$> nodes !! y -> typeOf nodes' y' = typeOf nodes y.
Proof.
  unfold typeOf. destruct (nodes' !! y'), (nodes !! y); simpl; try done.
  by intros [= _ _ -> _].
Qed.

Lemma core_org_type nodes nodes' y y' :
  core <$> nodes' !! y' = core <$> nodes !! y ->
  (nodes' !! y') ≫= org_type_ = (nodes !! y) ≫= org_type_.
Proof.
  destruct (nodes' !! y'), (nodes !! y); simpl; try done.
  by intros [= _ _ _ ->].
Qed.

Lemma core_oprs nodes nodes' y y' :
  core <$> nodes' !! y' = core <$> nodes !! y ->
  oprs <$> nodes' !! y' = oprs <$> nodes !! y.
Proof.
  destruct (nodes' !! y'), (nodes !! y); simpl; try done.
  by intros [= _ -> _ _].
Qed.

Lemma extends_refl m : extends m m.
Proof. by split_and!. Qed.

Lemma extends_trans m1 m2 m3 : extends m1 m2 -> extends m2 m3 -> extends m1 m3.
Proof.
  intros (Hn & Hip & Hc) (Hn' & Hip' & Hc'). split_and!; [lia|congruence|].
  intros y Hy. rewrite Hc' by lia. by apply Hc.
Qed.

(** A new object: the store that [MakeSSA] leaves. *)
Lemma MakeSSA_core m k operands y :
  core <$> m_nodes (MakeSSA m k operands).1 !! y
  = if decide (y = m_next m) then Some (k, operands, None, None)
    else core <$> m_nodes m !! y.
Proof.
  unfold MakeSSA. cbn [fst m_nodes set_store].
  rewrite (link_uses_field core) by done.
  destruct (decide (y = m_next m)) as [->|Hne].
  - by rewrite lookup_insert_eq.
  - by rewrite lookup_insert_ne.
Qed.

Lemma core_None nodes nodes' y :
  core <$> nodes' !! y = core <$> nodes !! y -> nodes !! y = None -> nodes' !! y = None.
Proof. intros Hc Hn. rewrite Hn in Hc. by apply fmap_None in Hc. Qed.

Lemma MakeSSA_extends m k operands :
  fresh m ->
  fresh (MakeSSA m k operands).1 /\ extends m (MakeSSA m k operands).1.
Proof.
  intros Hfresh. split.
  - intros v Hv. cbn in Hv.
    apply (core_None (m_nodes m)); [|apply Hfresh; lia].
    rewrite MakeSSA_core, decide_False by lia. done.
  - split_and!; [cbn; lia|done|]. intros y Hy.
    rewrite MakeSSA_core, decide_False by lia. done.
Qed.

Lemma AddInst_explicit m k operands m' v :
  AddInst m k operands = Done (m', v) ->
  exists block,
    insert_point_ m = Some block
    /\ v = m_next m
    /\ m_next m' = S (m_next m)
    /\ m_nodes m' = m_nodes (MakeSSA m k operands).1
    /\ insert_point_ m' = insert_point_ m
    /\ m_insts m' = <[block := instsOf (m_insts m) block ++ [v]]> (m_insts m).
Proof.
  unfold AddInst. intros Hrun.
  apply bind_Done in Hrun as (block & Hb%deref_Done & Hrun).
  injection Hrun as <- <-. exists block. by split_and!.
Qed.

Lemma AddInst_extends m k operands m' v :
  fresh m -> AddInst m k operands = Done (m', v) -> fresh m' /\ extends m m'.
Proof.
  intros Hfresh Hrun.
  apply AddInst_explicit in Hrun as (block & Hb & -> & Hnext & Hnodes & Hip & Hinsts).
  destruct (MakeSSA_extends m k operands Hfresh) as (Hf1 & Hn1 & Hip1 & Hc1).
  split.
  - intros y Hy. rewrite Hnodes. apply Hf1. cbn. lia.
  - split_and!; [lia|done|]. intros y Hy. rewrite Hnodes. by apply Hc1.
Qed.

(** [set_type] and [set_org_type] on one object leave the others alone. *)
Lemma set_types_core nodes v t t' y :
  y <> v ->
  core <$> set_org_type (set_type nodes v t) v t' !! y = core <$> nodes !! y.
Proof.
  intros Hne. unfold set_org_type, set_type.
  by rewrite !lookup_alter_ne.
Qed.

Lemma set_types_at nodes v t t' :
  core <$> set_org_type (set_type nodes v t) v t' !! v
  = (fun c => (c.1.1.1, c.1.1.2, t, t')) <$> (core <$> nodes !! v).
Proof.
  unfold set_org_type, set_type. rewrite !lookup_alter_eq.
  by destruct (nodes !! v).
Qed.

(** The two outcomes of [CreateCast] on a store with free addresses. *)
Lemma CreateCast_extends m opr type m' v :
  fresh m ->
  CreateCast m opr type = Done (m', v) ->
  exists opr_ty,
    typeOf (m_nodes m) opr = Some opr_ty
    /\ fresh m' /\ extends m m'
    /\ (IsIdentical opr_ty (GetTrivialType type) = true /\ m' = m /\ v = opr
        \/ IsIdentical opr_ty (GetTrivialType type) = false
           /\ v = m_next m
           /\ m_next m' = S (m_next m)
           /\ kindOf (m_nodes m') v = Some CastSSA
           /\ typeOf (m_nodes m') v = Some (GetTrivialType type)).
Proof.
  intros Hfresh. unfold CreateCast. intros Hrun.
  apply bind_Done in Hrun as (opr_ty & Hty%deref_Done & Hrun).
  exists opr_ty. split; [done|].
  destruct (negb (CanCastTo _ _)); [discriminate|].
  destruct (IsIdentical opr_ty (GetTrivialType type)) eqn:Hid.
  { injection Hrun as <- <-. split_and!; [done|apply extends_refl|by left]. }
  apply bind_Done in Hrun as (operand & Hop & Hrun).
  apply bind_Done in Hrun as ([m1 cast] & Hmk & Hrun). injection Hrun as <- <-.
  cbn [fst snd].
  assert (fresh m1 /\ extends m m1 /\ cast = m_next m /\ m_next m1 = S (m_next m)
          /\ core <$> m_nodes m1 !! cast = Some (CastSSA, [Some operand], None, None))
    as (Hf1 & Hext1 & -> & Hnext & Hcast).
  { destruct (IsConst (m_nodes m) operand).
    - assert (MakeSSA m CastSSA [Some operand] = (m1, cast)) as Hmk' by congruence.
      destruct (MakeSSA_extends m CastSSA [Some operand] Hfresh) as [Hf He].
      pose proof (MakeSSA_core m CastSSA [Some operand] (m_next m)) as Hc.
      rewrite decide_True in Hc by done.
      assert ((MakeSSA m CastSSA [Some operand]).2 = m_next m) as Hv by done.
      assert (m_next (MakeSSA m CastSSA [Some operand]).1 = S (m_next m)) as Hn by done.
      rewrite Hmk' in Hf, He, Hc, Hv, Hn. cbn [fst snd] in *. subst cast.
      by split_and!.
    - destruct (AddInst_extends _ _ _ _ _ Hfresh Hmk) as [Hf He].
      apply AddInst_explicit in Hmk as (block & Hb & -> & Hnext & Hnodes & _).
      split_and!; try done. by rewrite Hnodes, MakeSSA_core, decide_True. }
  destruct Hext1 as (Hn1 & Hip1 & Hc1).
  split_and!.
  - intros y Hy. cbn in Hy. cbn [m_nodes set_store].
    eapply core_None; [apply set_types_core; lia|]. apply Hf1. lia.
  - split_and!; [cbn; lia|done|]. intros y Hy. cbn [m_nodes set_store].
    rewrite set_types_core by lia. by apply Hc1.
  - right. cbn [m_nodes m_next set_store]. split_and!; [done..| |].
    + unfold kindOf, set_org_type, set_type. rewrite !lookup_alter_eq.
      destruct (m_nodes m1 !! m_next m) as [n|]; [|done].
      injection Hcast as Hk _ _ _. simpl. by rewrite Hk.
    + unfold typeOf, set_org_type, set_type. rewrite !lookup_alter_eq.
      by destruct (m_nodes m1 !! m_next m).
Qed.

(** The loop of [CreateCall]: the values appended to [casted_args], the
    types read in the store the loop started from. *)
Lemma cast_args_spec (pas : list (Ty * option Value)) :
  forall m0 acc m1 out,
    fresh m0 ->
    Forall (fun pa => forall a, pa.2 = Some a -> a < m_next m0) pas ->
    forM cast_arg pas (m0, acc) = Done (m1, out) ->
    fresh m1 /\ extends m0 m1
    /\ exists new,
        out = acc ++ (Some <$> new)
        /\ Forall2 (fun pa a' =>
             exists a ty,
               pa.2 = Some a /\ typeOf (m_nodes m0) a = Some ty
               /\ a' < m_next m1
               /\ if IsIdentical ty (GetTrivialType pa.1)
                     || IsIdentical ty (GetTrivialType (GetTrivialType pa.1))
                  then a' = a
                  else m_next m0 <= a'
                       /\ kindOf (m_nodes m1) a' = Some CastSSA
                       /\ typeOf (m_nodes m1) a'
                          = Some (GetTrivialType (GetTrivialType pa.1))) pas new.
Proof.
  induction pas as [|[p oa] pas IH]; intros m0 acc m1 out Hfresh Hargs Hrun.
  { injection Hrun as <- <-. split_and!; [done|apply extends_refl|].
    exists []. split; [by rewrite app_nil_r|constructor]. }
  cbn [forM] in Hrun. apply bind_Done in Hrun as ([mj' accj] & Hstep & Hrun).
  apply Forall_cons in Hargs as [Ha Hargs].
  unfold cast_arg in Hstep. cbn [fst snd] in Hstep.
  apply bind_Done in Hstep as (a & Hoa%deref_Done & Hstep).
  apply bind_Done in Hstep as (ty & Hty%deref_Done & Hstep).
  apply bind_Done in Hstep as ([mj a'] & Hcast & Hstep).
  injection Hstep as <- <-. cbn [fst snd] in *.
  specialize (Ha a Hoa).
  (* the store and the value after this argument *)
  assert (fresh mj /\ extends m0 mj /\ a' < m_next mj
          /\ if IsIdentical ty (GetTrivialType p)
                || IsIdentical ty (GetTrivialType (GetTrivialType p))
             then a' = a
             else m_next m0 <= a'
                  /\ kindOf (m_nodes mj) a' = Some CastSSA
                  /\ typeOf (m_nodes mj) a'
                     = Some (GetTrivialType (GetTrivialType p)))
    as (Hfj & Hej & Hlt & Hhead).
  { destruct (IsIdentical ty (GetTrivialType p)) eqn:Hid; cbn [negb orb] in *.
    - injection Hcast as <- <-. split_and!; [done|apply extends_refl|done|done].
    - apply CreateCast_extends in Hcast
        as (ty' & Hty' & Hfj & Hej & Hcases); [|done].
      assert (ty' = ty) as -> by congruence.
      destruct Hcases as [(Hid' & -> & ->)|(Hid' & -> & Hnext & Hk & Ht)];
        rewrite Hid'; split_and!; try done. lia. }
  destruct (IH mj (acc ++ [Some a']) m1 out Hfj) as (Hf1 & He1 & new & -> & Hall);
    [|done|].
  { eapply Forall_impl; [exact Hargs|]. intros pa Hpa b Hb.
    destruct Hej as (Hn & _). specialize (Hpa b Hb). lia. }
  split_and!; [done|by eapply extends_trans|].
  exists (a' :: new). split; [by rewrite <- app_assoc|].
  pose proof He1 as (Hn1 & _ & Hc1). pose proof Hej as (Hnj & _ & Hcj).
  constructor.
  - exists a, ty. cbn [fst snd]. split_and!; [done|done|lia|].
    destruct (IsIdentical ty (GetTrivialType p) || _); [done|].
    destruct Hhead as (Hge & Hk & Ht).
    split_and!; [done| |].
    + rewrite <- Hk. apply core_kindOf. by apply Hc1.
    + rewrite <- Ht. apply core_typeOf. by apply Hc1.
  - apply Forall2_same_length_lookup. split; [by eapply Forall2_length|].
    intros i [p' oa'] b Hpa Hb.
    destruct (Forall2_lookup_lr _ _ _ _ _ _ Hall Hpa Hb)
      as (a0 & ty0 & Hoa0 & Hty0 & Hlt0 & Hcase). cbn [fst snd] in *.
    assert (a0 < m_next m0) as Ha0.
    { by apply (proj1 (Forall_lookup _ _) Hargs i (p', oa')). }
    exists a0, ty0. cbn [fst snd]. split_and!; [done| |done|].
    + rewrite <- Hty0. symmetry. apply core_typeOf. by apply Hcj.
    + destruct (IsIdentical ty0 (GetTrivialType p') || _); [done|].
      destruct Hcase as (Hge & Hk & Ht). split_and!; [lia|done|done].
Qed.

End Call_facts.

(** X17. In a store whose addresses from [m_next] on are free, and with
    arguments that exist, a [CreateCall] that returns has appended the call
    to the end of the current block; the operands of the call are the
    callee and then one value for every parameter, in order.  The value is
    the argument itself when the type of the argument is identical to the
    trivial type of the parameter (or to the trivial type of that, which is
    what [CreateCast] compares with), and otherwise a cast that was created
    during this call and has the trivial type of the trivial type of the
    parameter.  The call has the trivial type of the return type. *)
Theorem CreateCall_passes_one_value_for_every_parameter {Ty : Type} `{!BaseType Ty}
    `{!SSAMethods Ty} `{!FuncTypeMethods Ty} (m m' : Module Ty) (callee call : Value)
    (args : list (option Value)) :
  fresh m ->
  (forall a, Some a ∈ args -> is_Some (m_nodes m !! a)) ->
  CreateCall m callee args = Done (m', call) ->
  exists (cn : Node Ty) (org : Ty) (args_type : list Ty) (new : list Value)
         (block : Value),
    m_nodes m !! callee = Some cn
    /\ org_type_ cn = Some org
    /\ GetArgsType org = Some args_type
    /\ insert_point_ m = Some block
    /\ last (instsOf (m_insts m') block) = Some call
    /\ kindOf (m_nodes m') call = Some CallSSA
    /\ oprs <$> m_nodes m' !! call = Some (Some callee :: (Some <$> new))
    /\ typeOf (m_nodes m') call = GetTrivialType <$> GetReturnType org args_type
    /\ length args = length args_type
    /\ length new = length args_type
    /\ forall i p a',
        args_type !! i = Some p -> new !! i = Some a' ->
        exists a ty,
          args !! i = Some (Some a)
          /\ typeOf (m_nodes m) a = Some ty
          /\ if IsIdentical ty (GetTrivialType p)
                || IsIdentical ty (GetTrivialType (GetTrivialType p))
             then a' = a /\ typeOf (m_nodes m') a' = Some ty
             else m_next m <= a' < call
                  /\ kindOf (m_nodes m') a' = Some CastSSA
                  /\ typeOf (m_nodes m') a'
                     = Some (GetTrivialType (GetTrivialType p)).
Proof.
  intros Hfresh Hargs Hrun. unfold CreateCall in Hrun.
  apply bind_Done in Hrun as (cty & Hcty%deref_Done & Hrun).
  destruct (negb (IsFunction cty)); [discriminate|].
  apply bind_Done in Hrun as (cn & Hcn%deref_Done & Hrun).
  apply bind_Done in Hrun as (org & Horg%deref_Done & Hrun).
  apply bind_Done in Hrun as (args_type & Hat%deref_Done & Hrun).
  destruct (bool_decide (length args_type = length args)) eqn:Hlen;
    [|discriminate].
  apply bool_decide_eq_true in Hlen. cbn [negb] in Hrun.
  apply bind_Done in Hrun as ([m1 out] & Hloop & Hrun).
  apply bind_Done in Hrun as ([m2 v] & Hadd & Hrun).
  apply bind_Done in Hrun as (cn' & Hcn'%deref_Done & Hrun).
  apply bind_Done in Hrun as (org' & Horg'%deref_Done & Hrun).
  injection Hrun as <- <-. cbn [fst snd] in *.
  assert (forall y, is_Some (m_nodes m !! y) -> y < m_next m) as Hlive.
  { intros y [n Hn]. destruct (decide (y < m_next m)) as [|Hge]; [done|].
    rewrite Hfresh in Hn by lia. done. }
  apply cast_args_spec in Hloop
    as (Hf1 & (Hn1 & Hip1 & Hc1) & new & -> & Hall); [|done|].
  2:{ apply Forall_forall. intros [p oa] Hin a Ha. cbn [snd] in Ha. subst oa.
      apply Hlive, Hargs. apply elem_of_zip_r in Hin. done. }
  cbn [app] in *.
  apply AddInst_explicit in Hadd as (block & Hb & -> & Hnext & Hnodes & Hip & Hinsts).
  assert (callee < m_next m) as Hcallee by (apply Hlive; eauto).
  (* an object below the call is in [m'] what it was after the loop *)
  assert (forall y, y < m_next m1 ->
            core <$> set_types (m_nodes m2) (m_next m1)
                               (GetReturnType org' args_type) !! y
            = core <$> m_nodes m1 !! y) as Hbelow.
  { intros y Hy. unfold set_types. rewrite set_types_core by lia.
    rewrite Hnodes, MakeSSA_core, decide_False by lia. done. }
  assert (org' = org) as ->.
  { assert (m_nodes m2 !! callee ≫= org_type_ = m_nodes m !! callee ≫= org_type_)
      as Heq.
    { apply core_org_type. rewrite Hnodes, MakeSSA_core, decide_False by lia.
      apply Hc1. lia. }
    rewrite Hcn', Hcn in Heq. cbn in Heq. congruence. }
  pose proof (Forall2_length _ _ _ Hall) as Hlen'.
  rewrite length_zip_with in Hlen'.
  exists cn, org, args_type, new, block. cbn [m_nodes m_insts set_nodes set_store].
  split_and!; try done.
  - congruence.
  - rewrite Hinsts, instsOf_insert, decide_True by done. apply last_snoc.
  - unfold kindOf, set_types, set_org_type, set_type. rewrite !lookup_alter_eq.
    rewrite <- !option_fmap_compose.
    pose proof (MakeSSA_core m1 CallSSA (Some callee :: (Some <$> new)) (m_next m1))
      as Hc. rewrite decide_True, <- Hnodes in Hc by done.
    destruct (m_nodes m2 !! m_next m1); [|done]. cbn in *. by injection Hc as -> _ _ _.
  - unfold set_types, set_org_type, set_type. rewrite !lookup_alter_eq.
    rewrite <- !option_fmap_compose.
    pose proof (MakeSSA_core m1 CallSSA (Some callee :: (Some <$> new)) (m_next m1))
      as Hc. rewrite decide_True, <- Hnodes in Hc by done.
    destruct (m_nodes m2 !! m_next m1); [|done]. cbn in *. by injection Hc as _ -> _ _.
  - unfold typeOf, set_types, set_org_type, set_type. rewrite !lookup_alter_eq.
    pose proof (MakeSSA_core m1 CallSSA (Some callee :: (Some <$> new)) (m_next m1))
      as Hc. rewrite decide_True, <- Hnodes in Hc by done.
    destruct (m_nodes m2 !! m_next m1); [|done]. done.
  - etrans; [symmetry; exact Hlen'|]. rewrite <- Hlen. apply Nat.min_id.
  - intros i p a' Hp Ha'.
    destruct (lookup_lt_is_Some_2 args i) as [oa Hoa].
    { apply lookup_lt_Some in Hp. lia. }
    assert (zip args_type args !! i = Some (p, oa)) as Hz.
    { rewrite lookup_zip_with, Hp. cbn. by rewrite Hoa. }
    destruct (Forall2_lookup_lr _ _ _ _ _ _ Hall Hz Ha')
      as (a & ty & Hsome & Hty & Hlt & Hcase). cbn [fst snd] in *. subst oa.
    exists a, ty. split_and!; [done|done|].
    assert (a < m_next m) as Halive.
    { apply Hlive, Hargs. by eapply list_elem_of_lookup_2. }
    destruct (IsIdentical ty (GetTrivialType p) || _).
    + subst a'. split; [done|]. rewrite <- Hty.
      apply core_typeOf. rewrite Hbelow by lia. apply Hc1. lia.
    + destruct Hcase as (Hge & Hk & Ht). split_and!; [lia|lia| |].
      * rewrite <- Hk. apply core_kindOf. by apply Hbelow.
      * rewrite <- Ht. apply core_typeOf. by apply Hbelow.
Qed.

Lemma EnterGlobalCtor_builds_the_constructor_witness :
  exists m1,
    EnterGlobalCtor store_module = Done (m1, Some 4)
    /\ funcs_ m1 = [3; 9]
    /\ kindOf (m_nodes m1) 9 = Some (FunctionSSA GlobalCtor "_$ctor" [])
    /\ kindOf (m_nodes m1) 10 = Some (BlockSSA (Some 9) "entry")
    /\ kindOf (m_nodes m1) 11 = Some (BlockSSA (Some 9) "exit")
    /\ instsOf (m_insts m1) 11 = [12]
    /\ insert_point_ m1 = Some 10
    /\ EnterGlobalCtor (release_guard m1 (Some 4)) = Done (m1, Some 4).
Proof.
  destruct (EnterGlobalCtor_builds_the_constructor store_module [] (Prim Void true))
    as [Hfirst Hagain]; [reflexivity..|].
  eexists. split; [exact Hfirst|].
  split_and!; [by_compute..|apply Hagain].
Defined.

Lemma SealGlobalCtor_links_entry_to_exit_witness :
  exists m',
    SealGlobalCtor ctor_module = Done m'
    /\ instsOf (m_insts m') 4 = [8; 9; 11; 12; 13]
    /\ kindOf (m_nodes m') 13 = Some JumpSSA
    /\ operand (m_nodes m') 13 0 = Some 5
    /\ insert_point_ m' = Some 4
    /\ is_ctor_sealed_ m' = true.
Proof.
  destruct (SealGlobalCtor_links_entry_to_exit ctor_module 3 4 5)
    as (m' & Hrun & Hentry & _ & Hk & Hop & _ & Hip & Hs & _); [reflexivity..|].
  exists m'. split_and!; done.
Defined.

Lemma call_module_fresh : fresh call_module.
Proof.
  intros v Hv. change (7 <= v) in Hv.
  destruct (m_nodes call_module !! v) as [n|] eqn:Hn; [|done].
  assert (map_Forall (fun k _ => k < 7) (m_nodes call_module)) as Hall
    by elem_compute.
  apply Hall in Hn. lia.
Qed.

(** The call of the example: the first argument is passed as it is, the
    second behind the cast [%7]. *)
Lemma CreateCall_passes_one_value_for_every_parameter_witness :
  CreateCall call_module 1 [Some 6; Some 6] = Done (call_module_after, 8)
  /\ last (instsOf (m_insts call_module_after) 4) = Some 8
  /\ exists new,
      oprs <$> m_nodes call_module_after !! 8 = Some (Some 1 :: (Some <$> new))
      /\ length new = 2.
Proof.
  assert (CreateCall call_module 1 [Some 6; Some 6] = Done (call_module_after, 8))
    as Hrun by by_compute.
  split; [exact Hrun|].
  destruct (CreateCall_passes_one_value_for_every_parameter
              call_module call_module_after 1 8 [Some 6; Some 6])
    as (cn & org & args_type & new & block & Hcn & Horg & Hat & Hb & Hlast
        & Hk & Hoprs & Hty & Hlen & Hlen' & Heach).
  - apply call_module_fresh.
  - intros a Ha. assert (a = 6) as -> by set_solver. elem_compute.
  - exact Hrun.
  - injection Hb as <-. split; [exact Hlast|].
    exists new. split; [exact Hoprs|]. etrans; [exact Hlen'|]. etrans; [symmetry; exact Hlen|]. reflexivity.
Defined.
